(** * avito-parser: a shallow embedding of [src/main.py]

    The development follows the layout of the source file:

    - Python strings and the part of the CPython runtime the parser calls
      ([re], [int], [str], [urllib.parse]);
    - [AvitoParse.__extract_area] and [AvitoParse.get_next_page_url], the two
      pure methods;
    - the browser driver as an interface, the parser object as a record, and
      the stateful methods [__get_url], [__parse_detail], [__save_to_xml],
      [__parse_page], [open_next_btn], [__paginator] and [parse] in a state
      and exception monad;
    - the properties of the specification, one theorem for each;
    - the [__main__] block, and what else the methods show: the numbering
      of the list pages, the faults of the driver and where an exception
      can come from, the records and the files of a run.

    A Python [str] is a sequence of Unicode code points.  What CPython takes
    from the Unicode database, from a codec or from its configuration is a
    field of the class [CPython], and the theorems hold for every instance;
    [basic_runtime] is a small instance (ASCII digits, Unicode white space,
    the case of ASCII and Russian letters) that the worked examples run on.

    The surroundings of the parser (browser driver, random numbers, clock,
    stop event) are the class [Env]; [scripted] is a driver that answers
    from a script.  Faults come from the driver calls, from [int] and from
    the writing of a file; the logging, the sleeps and the [SB] context are
    taken to succeed.  The retries of
    [__get_url] and [__parse_detail] recurse, and the interpreter bounds how
    deep: the methods take the room that the stack has left, counted in
    nested calls of the method and called fuel, and the call that finds
    none raises [RecursionError].  A call of the driver that runs out of
    stack is a fault of the driver like any other. *)

From Stdlib Require Import String Ascii.
From Stdlib Require Import List NArith ZArith Lia Bool Arith.
Import ListNotations.

Set Implicit Arguments.

(** ** Strings *)

Definition char := N.
Definition str := list char.

(** Decoder for the literals of this file (well-formed UTF-8). *)
Fixpoint utf8_decode (bs : list N) : str :=
  match bs with
  | [] => []
  | b0 :: r0 =>
    if (b0 <? 128)%N then b0 :: utf8_decode r0 else
    match r0 with
    | [] => [b0]
    | b1 :: r1 =>
      if (b0 <? 224)%N then ((b0 - 192) * 64 + (b1 - 128))%N :: utf8_decode r1 else
      match r1 with
      | [] => [b0; b1]
      | b2 :: r2 =>
        if (b0 <? 240)%N
        then ((b0 - 224) * 4096 + (b1 - 128) * 64 + (b2 - 128))%N :: utf8_decode r2
        else match r2 with
             | [] => [b0; b1; b2]
             | b3 :: r3 =>
               ((b0 - 240) * 262144 + (b1 - 128) * 4096
                + (b2 - 128) * 64 + (b3 - 128))%N :: utf8_decode r3
             end
      end
    end
  end.

Definition u (s : string) : str :=
  utf8_decode (map N_of_ascii (list_ascii_of_string s)).

Fixpoint str_eqb (a b : str) : bool :=
  match a, b with
  | [], [] => true
  | x :: a', y :: b' => (x =? y)%N && str_eqb a' b'
  | _, _ => false
  end.

Fixpoint startswith (s prefix : str) : bool :=
  match prefix, s with
  | [], _ => true
  | p :: prefix', c :: s' => (c =? p)%N && startswith s' prefix'
  | _ :: _, [] => false
  end.

(** [needle in hay] *)
Fixpoint str_contains (needle hay : str) : bool :=
  startswith hay needle ||
  match hay with
  | [] => false
  | _ :: hay' => str_contains needle hay'
  end.

Definition char_in (c : char) (s : str) : bool := existsb (N.eqb c) s.

(** [s.partition(sep)] for a one-character separator: the text before the
    first [sep] and, when there is one, the text after it. *)
Fixpoint partition_char (sep : char) (s : str) : str * option str :=
  match s with
  | [] => ([], None)
  | c :: s' =>
    if (c =? sep)%N then ([], Some s')
    else let '(a, b) := partition_char sep s' in (c :: a, b)
  end.

(** [s.split(sep)] for a one-character separator. *)
Fixpoint split_char (sep : char) (s : str) : list str :=
  match s with
  | [] => [[]]
  | c :: s' =>
    if (c =? sep)%N then [] :: split_char sep s'
    else match split_char sep s' with
         | [] => [[c]]
         | w :: ws => (c :: w) :: ws
         end
  end.

(** [s.replace(old, new)] for one-character arguments. *)
Definition replace_char (old new : char) (s : str) : str :=
  map (fun c => if (c =? old)%N then new else c) s.

(** ** The CPython runtime

    Library tables and settings that the methods reach through [re], [int],
    [str] and [urllib.parse]. *)

Class CPython := {
  (** [Py_UNICODE_TODECIMAL]: the value of a decimal digit (category Nd). *)
  Py_UNICODE_TODECIMAL : char -> option N;
  (** [Py_UNICODE_ISSPACE] *)
  Py_UNICODE_ISSPACE : char -> bool;
  Py_UNICODE_TOLOWER : char -> char;
  Py_UNICODE_TOUPPER : char -> char;
  (** [sre_compile._ignorecase_fixes]: further characters that a lower-case
      character is equivalent to under [re.IGNORECASE]. *)
  ignorecase_fixes : char -> list char;
  (** [bytes.decode('utf-8', 'replace')] *)
  decode_utf8_replace : list N -> str;
  (** [urllib.parse._check_bracketed_netloc], [true] when it passes: the
      test of a network location that has both brackets. *)
  check_bracketed : str -> bool;
  (** The NFKC test of [urllib.parse._checknetloc] on a network location
      that is not ASCII, [true] when it passes. *)
  checknetloc : str -> bool;
  (** [sys.get_int_max_str_digits()], 0 when the limit is off. *)
  int_max_str_digits : N
}.

Definition isdecimal `{CPython} (c : char) : bool :=
  match Py_UNICODE_TODECIMAL c with Some _ => true | None => false end.

(** ** Regular expressions: the fragment of [re] that [__extract_area] uses

    The engine backtracks like [sre]: [rmatch] lists the ways a pattern can
    match at the start of a string in the order [sre] tries them, and
    [re_search] takes the first way at the leftmost position that has one. *)

Inductive atom :=
| ALit (c : char)            (* a character of the pattern *)
| ADigit                     (* \d *)
| ASpace                     (* \s *)
| ASet (cs : list char).     (* [...] *)

Inductive regex :=
| Eps
| Atom (a : atom)
| Star (a : atom)            (* a*, greedy *)
| Plus (a : atom)            (* a+, greedy *)
| Seq (r1 r2 : regex)
| Alt (r1 r2 : regex)        (* r1|r2 *)
| Opt (r : regex)            (* r?, greedy *)
| Group (n : nat) (r : regex).

Section Regex.
Context `{CPython}.

(** [_sre.unicode_iscased] *)
Definition iscased (c : char) : bool :=
  negb (c =? Py_UNICODE_TOLOWER c)%N || negb (c =? Py_UNICODE_TOUPPER c)%N.

(** A literal compiled under [re.IGNORECASE]: a character without case is
    compared as it is ([LITERAL]); a cased one is lowered and the text's
    character, lowered, must be it or one of its fixes
    ([LITERAL_UNI_IGNORE], [IN_UNI_IGNORE]). *)
Definition lit_ignorecase (c ch : char) : bool :=
  if iscased c
  then let lo := Py_UNICODE_TOLOWER c in
       char_in (Py_UNICODE_TOLOWER ch) (lo :: ignorecase_fixes lo)
  else (ch =? c)%N.

Definition atom_match (a : atom) (ch : char) : bool :=
  match a with
  | ALit c => lit_ignorecase c ch
  | ADigit => isdecimal ch
  | ASpace => Py_UNICODE_ISSPACE ch
  | ASet cs => existsb (fun c => lit_ignorecase c ch) cs
  end.

Definition captures := list (nat * str).

Fixpoint group (n : nat) (caps : captures) : option str :=
  match caps with
  | [] => None
  | (k, v) :: caps' => if Nat.eqb k n then Some v else group n caps'
  end.

(** What is left of [s] after a greedy repetition of [a], longest first. *)
Fixpoint star_rests (a : atom) (s : str) : list str :=
  match s with
  | [] => [[]]
  | c :: s' => if atom_match a c then star_rests a s' ++ [s] else [s]
  end.

Definition consumed (s rest : str) : str :=
  firstn (length s - length rest) s.

Fixpoint rmatch (r : regex) (s : str) (caps : captures)
  : list (str * captures) :=
  match r with
  | Eps => [(s, caps)]
  | Atom a =>
    match s with
    | c :: s' => if atom_match a c then [(s', caps)] else []
    | [] => []
    end
  | Star a => map (fun rest => (rest, caps)) (star_rests a s)
  | Plus a =>
    match s with
    | c :: s' =>
      if atom_match a c
      then map (fun rest => (rest, caps)) (star_rests a s') else []
    | [] => []
    end
  | Seq r1 r2 =>
    flat_map (fun m => rmatch r2 (fst m) (snd m)) (rmatch r1 s caps)
  | Alt r1 r2 => rmatch r1 s caps ++ rmatch r2 s caps
  | Opt r1 => rmatch r1 s caps ++ [(s, caps)]
  | Group n r1 =>
    map (fun m => (fst m, (n, consumed s (fst m)) :: snd m))
        (rmatch r1 s caps)
  end.

(** [re.search]: the groups of the first match, scanning start positions
    from the left. *)
Fixpoint re_search (r : regex) (s : str) : option captures :=
  match rmatch r s [] with
  | m :: _ => Some (snd m)
  | [] =>
    match s with
    | [] => None
    | _ :: s' => re_search r s'
    end
  end.

(** A run of pattern characters. *)
Fixpoint lits (s : str) : regex :=
  match s with
  | [] => Eps
  | c :: s' => Seq (Atom (ALit c)) (lits s')
  end.

Definition number_re : regex :=
  Seq (Plus ADigit) (Opt (Seq (Atom (ASet (u ".,"))) (Plus ADigit))).

Definition unit_re : regex :=
  Alt (lits (u "м²"))
 (Alt (Seq (lits (u "кв")) (Seq (Opt (Atom (ALit 46%N))) (lits (u "м"))))
      (lits (u "квадратных метров"))).

(** [r'(\d+(?:[.,]\d+)?)\s*(м²|кв\.?м|квадратных метров)'] with
    [re.IGNORECASE] *)
Definition pattern : regex :=
  Seq (Group 1 number_re) (Seq (Star ASpace) (Group 2 unit_re)).

(** [AvitoParse.__extract_area] *)
Definition extract_area (text : str) : str :=
  match re_search pattern text with
  | Some m =>
    match group 1 m with
    | Some g => g
    | None => []
    end
  | None => []
  end.

End Regex.

(** ** Exceptions

    The classes the methods raise or catch by name, [RecursionError], which
    the interpreter raises when a call finds its stack full, and [OSError],
    the class of a failed write of a file.  All of them derive from
    [Exception]; only [StaleElementReferenceException] and
    [TimeoutException] have handlers of their own. *)

Inductive exn :=
| StaleElementReferenceException
| TimeoutException
| NoSuchElementException
| WebDriverException
| ValueError
| TypeError
| IndexError
| RecursionError
| OSError.

Definition is_stale (e : exn) : bool :=
  match e with StaleElementReferenceException => true | _ => false end.

Definition is_timeout (e : exn) : bool :=
  match e with TimeoutException => true | _ => false end.

(** A pure computation that may raise. *)
Inductive exc (A : Type) :=
| Ok (a : A)
| Raise (e : exn).
Arguments Ok {A} a.
Arguments Raise {A} e.

Definition exc_bind {A B} (m : exc A) (k : A -> exc B) : exc B :=
  match m with
  | Ok a => k a
  | Raise e => Raise e
  end.

Declare Scope exc_scope.
Delimit Scope exc_scope with exc.
Notation "x <- m ;; k" := (exc_bind m (fun x => k))
  (at level 61, m at next level, right associativity) : exc_scope.

(** ** [int(str)] and [str(int)] *)

Section Integers.
Context `{CPython}.

(** [Py_ISSPACE]: the ASCII white space of the C locale. *)
Definition Py_ISSPACE (c : char) : bool :=
  ((9 <=? c) && (c <=? 13) || (c =? 32))%N.

(** [_PyLong_DigitValue], base 10. *)
Definition digit_value (c : char) : option N :=
  if ((48 <=? c) && (c <=? 57))%N then Some (c - 48)%N else None.

(** [_PyUnicode_TransformDecimalAndSpaceToASCII]: ASCII is kept, other
    white space becomes a blank, other decimal digits become ASCII digits,
    and the text is cut after the first character that is neither,
    replaced by a question mark. *)
Fixpoint transform_decimal_and_space_to_ascii (s : str) : str :=
  match s with
  | [] => []
  | ch :: s' =>
    if (ch <? 127)%N then ch :: transform_decimal_and_space_to_ascii s'
    else if Py_UNICODE_ISSPACE ch
         then 32%N :: transform_decimal_and_space_to_ascii s'
    else match Py_UNICODE_TODECIMAL ch with
         | Some d => (48 + d)%N :: transform_decimal_and_space_to_ascii s'
         | None => [63%N]
         end
  end.

Fixpoint skip_spaces (s : str) : str :=
  match s with
  | c :: s' => if Py_ISSPACE c then skip_spaces s' else s
  | [] => []
  end.

(** The scan of [long_from_string_base]: digits with single underscores
    between them.  [prev] tells that the last character was an underscore;
    the result is the value, the number of digits and the text left. *)
Fixpoint scan_digits (s : str) (prev : bool) (acc nd : N)
  : option (N * N * str) :=
  match s with
  | [] => if prev then None else Some (acc, nd, [])
  | c :: s' =>
    match digit_value c with
    | Some d => scan_digits s' false (acc * 10 + d)%N (nd + 1)%N
    | None =>
      if (c =? 95)%N
      then if prev then None else scan_digits s' true acc nd
      else if prev then None else Some (acc, nd, s)
    end
  end.

Definition over_digit_limit (ndigits len : N) : bool :=
  ((640 <? len) && (0 <? int_max_str_digits)
   && (int_max_str_digits <? ndigits))%N.

(** [PyLong_FromString] in base 10 on the transformed text. *)
Definition long_from_string (s : str) : exc Z :=
  let s1 := skip_spaces s in
  let negative := startswith s1 [45%N] in
  let s2 := if startswith s1 [43%N] || negative then tl s1 else s1 in
  if startswith s2 [95%N] then Raise ValueError
  else
    match scan_digits s2 false 0 0 with
    | None => Raise ValueError
    | Some (v, nd, rest) =>
      if (nd =? 0)%N then Raise ValueError
      else match skip_spaces rest with
           | _ :: _ => Raise ValueError
           | [] =>
             if over_digit_limit nd nd then Raise ValueError
             else Ok (if negative then (- Z.of_N v)%Z else Z.of_N v)
           end
    end.

(** [int(s)] for a [str] *)
Definition int_of_str (s : str) : exc Z :=
  long_from_string (transform_decimal_and_space_to_ascii s).

(** [int(x)] for the values [get_attribute] and [dict.get] hand over:
    [None] is a [TypeError]. *)
Definition int_of_attr (x : option str) : exc Z :=
  match x with
  | Some s => int_of_str s
  | None => Raise TypeError
  end.

Fixpoint decimal_digits (fuel : nat) (n : N) : str :=
  match fuel with
  | O => []
  | S fuel' =>
    if (n <? 10)%N then [(48 + n)%N]
    else decimal_digits fuel' (n / 10)%N ++ [(48 + n mod 10)%N]
  end.

Definition str_of_N (n : N) : str :=
  decimal_digits (S (N.to_nat (N.log2 n))) n.

(** [str(n)], which is also how an f-string renders an [int]. *)
Definition str_of_int (z : Z) : exc str :=
  let digits := str_of_N (Z.abs_N z) in
  let negative := (z <? 0)%Z in
  let nosign := N.of_nat (length digits) in
  let len := if negative then (nosign + 1)%N else nosign in
  if over_digit_limit nosign len then Raise ValueError
  else Ok (if negative then 45%N :: digits else digits).

End Integers.

(** ** [urllib.parse] (CPython 3.12) *)

Record SplitResult := {
  scheme : str;
  netloc : str;
  path : str;
  query : str;
  fragment : str
}.

Section UrlParse.
Context `{CPython}.

Definition is_ascii_alpha (c : char) : bool :=
  ((65 <=? c) && (c <=? 90) || (97 <=? c) && (c <=? 122))%N.

Definition is_ascii_digit (c : char) : bool :=
  ((48 <=? c) && (c <=? 57))%N.

(** [scheme_chars]: letters, digits and ["+-."] *)
Definition scheme_char (c : char) : bool :=
  is_ascii_alpha c || is_ascii_digit c || char_in c (u "+-.").

Definition ascii_lower (c : char) : char :=
  if ((65 <=? c) && (c <=? 90))%N then (c + 32)%N else c.

(** [url.lstrip(_WHATWG_C0_CONTROL_OR_SPACE)] *)
Fixpoint lstrip_c0_or_space (s : str) : str :=
  match s with
  | c :: s' => if (c <=? 32)%N then lstrip_c0_or_space s' else s
  | [] => []
  end.

(** Removal of [_UNSAFE_URL_BYTES_TO_REMOVE]: tab, carriage return and
    line feed. *)
Definition remove_unsafe (s : str) : str :=
  filter (fun c => negb ((c =? 9) || (c =? 13) || (c =? 10))%N) s.

(** [_splitnetloc(url, 0)] on the text after the two slashes: the network
    location ends at the first of [/], [?] and [#]. *)
Fixpoint splitnetloc (s : str) : str * str :=
  match s with
  | [] => ([], [])
  | c :: s' =>
    if char_in c (u "/?#") then ([], s)
    else let '(a, b) := splitnetloc s' in (c :: a, b)
  end.

(** [_checknetloc]: nothing to check on an empty or ASCII location; the
    NFKC test of the others is the runtime's. *)
Definition checknetloc_ok (nl : str) : bool :=
  match nl with
  | [] => true
  | _ => forallb (fun c => (c <? 128)%N) nl || checknetloc nl
  end.

(** The scheme of [url] and the text after its colon, when the text
    before the first colon is a scheme. *)
Definition split_scheme (url : str) : str * str :=
  match partition_char 58%N url with
  | (c :: before, Some after) =>
    if is_ascii_alpha c && forallb scheme_char (c :: before)
    then (map ascii_lower (c :: before), after)
    else ([], url)
  | _ => ([], url)
  end.

(** The network location of a URL that goes on with two slashes, checked,
    and the text after it. *)
Definition split_netloc (url : str) : exc (str * str) :=
  if startswith url (u "//")
  then
    let '(nl, url') := splitnetloc (skipn 2 url) in
    let has_open := char_in 91%N nl in
    let has_close := char_in 93%N nl in
    if has_open && negb has_close || has_close && negb has_open
    then Raise ValueError
    else if has_open && has_close && negb (check_bracketed nl)
         then Raise ValueError
         else Ok (nl, url')
  else Ok ([], url).

(** The fragment, the query and the path of what follows the network
    location, and the last check of the location. *)
Definition split_path (sch nl url : str) : exc SplitResult :=
  let '(url, frag) :=
    match partition_char 35%N url with
    | (before, Some after) => (before, after)
    | (before, None) => (before, [])
    end in
  let '(url, qs) :=
    match partition_char 63%N url with
    | (before, Some after) => (before, after)
    | (before, None) => (before, [])
    end in
  if checknetloc_ok nl
  then Ok {| scheme := sch; netloc := nl; path := url;
             query := qs; fragment := frag |}
  else Raise ValueError.

Definition urlsplit (url0 : str) : exc SplitResult :=
  let url := remove_unsafe (lstrip_c0_or_space url0) in
  let '(sch, url) := split_scheme url in
  (nl_url <- split_netloc url ;;
   split_path sch (fst nl_url) (snd nl_url))%exc.

(** [urlparse] further splits the parameters off the last path segment;
    the other components, among them the query, are those of
    [urlsplit]. *)
Definition urlparse (url : str) : exc SplitResult := urlsplit url.

End UrlParse.

Section ParseQs.
Context `{CPython}.

Definition hex_value (c : char) : option N :=
  if ((48 <=? c) && (c <=? 57))%N then Some (c - 48)%N
  else if ((65 <=? c) && (c <=? 70))%N then Some (c - 55)%N
  else if ((97 <=? c) && (c <=? 102))%N then Some (c - 87)%N
  else None.

(** One item of [string.split('%')] after the first, in
    [_unquote_impl]: two hexadecimal digits become a byte, anything else
    keeps its percent sign. *)
Definition unquote_item (item : str) : list N :=
  match item with
  | h :: l :: rest =>
    match hex_value h, hex_value l with
    | Some a, Some b => (a * 16 + b)%N :: rest
    | _, _ => 37%N :: item
    end
  | _ => 37%N :: item
  end.

Definition unquote_impl (s : str) : list N :=
  match split_char 37%N s with
  | [] => s
  | first :: items => first ++ concat (map unquote_item items)
  end.

(** The maximal runs of ASCII and of other characters
    ([_asciire.finditer]), each with whether it is ASCII. *)
Fixpoint ascii_runs (s : str) : list (bool * str) :=
  match s with
  | [] => []
  | c :: s' =>
    let a := (c <? 128)%N in
    match ascii_runs s' with
    | (b, run) :: runs =>
      if Bool.eqb a b then (b, c :: run) :: runs
      else (a, [c]) :: (b, run) :: runs
    | [] => [(a, [c])]
    end
  end.

(** [urllib.parse.unquote(string)] with its defaults
    ([encoding='utf-8'], [errors='replace']) *)
Definition unquote (s : str) : str :=
  if negb (char_in 37%N s) then s
  else concat (map (fun r : bool * str =>
                      if fst r then decode_utf8_replace (unquote_impl (snd r))
                      else snd r)
                   (ascii_runs s)).

(** [parse_qsl(qs)] with its defaults: fields are separated by [&], a
    field without [=] or with a blank value is dropped. *)
Definition parse_qsl (qs : str) : list (str * str) :=
  let query_args := match qs with [] => [] | _ => split_char 38%N qs end in
  flat_map
    (fun name_value : str =>
       match partition_char 61%N name_value with
       | (_, None) => []
       | (n, Some v) =>
         match v with
         | [] => []
         | _ => [(unquote (replace_char 43%N 32%N n),
                  unquote (replace_char 43%N 32%N v))]
         end
       end)
    query_args.

(** A [dict] from [str] to lists of [str], in insertion order. *)
Definition dict := list (str * list str).

Fixpoint dict_get (k : str) (d : dict) : option (list str) :=
  match d with
  | [] => None
  | (k', v) :: d' => if str_eqb k' k then Some v else dict_get k d'
  end.

(** [parsed_result[name].append(value)] or
    [parsed_result[name] = [value]] *)
Fixpoint dict_add (k v : str) (d : dict) : dict :=
  match d with
  | [] => [(k, [v])]
  | (k', vs) :: d' =>
    if str_eqb k' k then (k', vs ++ [v]) :: d'
    else (k', vs) :: dict_add k v d'
  end.

Definition parse_qs (qs : str) : dict :=
  fold_left (fun d nv => dict_add (fst nv) (snd nv) d) (parse_qsl qs) [].

(** [AvitoParse.get_next_page_url]; [base_url] is [self.base_url].  The
    body of the [try] is [next_page_url]; the handler logs and returns
    [url]. *)
Definition next_page_url (base_url url : str) : exc str :=
  (url_parts <- urlparse url ;;
   let query_params := parse_qs (query url_parts) in
   current_page <-
     match dict_get (u "p") query_params with
     | None => Ok 1%Z                       (* int([1][0]) *)
     | Some [] => Raise IndexError
     | Some (v :: _) => int_of_str v
     end ;;
   let next_page := (current_page + 1)%Z in
   digits <- str_of_int next_page ;;
   Ok (base_url ++ u "?p=" ++ digits))%exc.

Definition get_next_page_url (base_url url : str) : str :=
  match next_page_url base_url url with
  | Ok next_url => next_url
  | Raise _ => url
  end.

End ParseQs.

(** ** The outside world: browser driver, random numbers, clock, stop event *)

(** [LocatorAvito] *)
Inductive locator :=
| TITLES | NAME | DESCRIPTIONS | URL | PRICE | GEO | DATE_PUBLIC.

Definition locator_eqb (a b : locator) : bool :=
  match a, b with
  | TITLES, TITLES | NAME, NAME | DESCRIPTIONS, DESCRIPTIONS | URL, URL
  | PRICE, PRICE | GEO, GEO | DATE_PUBLIC, DATE_PUBLIC => true
  | _, _ => false
  end.

(** A [WebElement] handle. *)
Definition element := nat.

(** [xml.etree.ElementTree.Element] *)
#[warnings="-register-all"]
Inductive Element :=
| El (tag : str) (text : option str) (children : list Element).

Record xml_file := {
  file_name : str;
  root : Element
}.

(** What the parser asks of its surroundings.  [D] is their state: every
    call on the driver and every draw of a random number may change it, and
    the calls on the driver and the writing of a file may raise. *)
Class Env (D : Type) := {
  drv_open : option str -> D -> exc unit * D;
  drv_get_title : D -> exc str * D;
  drv_get_current_url : D -> exc str * D;
  drv_find_elements : locator -> D -> exc (list element) * D;
  drv_execute_script : str -> D -> exc unit * D;
  (** [WebDriverWait(driver, t).until(EC.presence_of_element_located(l))] *)
  drv_wait_presence : N -> locator -> D -> exc unit * D;
  el_find_element : element -> locator -> D -> exc element * D;
  el_find_elements : element -> locator -> D -> exc (list element) * D;
  el_text : element -> D -> exc str * D;
  el_get_attribute : element -> str -> D -> exc (option str) * D;
  (** [random.randint(a, b)] *)
  randint : Z -> Z -> D -> Z * D;
  randint_range :
    forall a b d, (a <= b)%Z -> (a <= fst (randint a b d) <= b)%Z;
  (** [stop_event.is_set()] *)
  stop_is_set : D -> bool;
  (** [datetime.datetime.now().strftime('%Y%m%d_%H%M%S')] *)
  strftime_now : D -> str;
  (** [ET.ElementTree(root).write(file_name, encoding='utf-8',
      xml_declaration=True)]: whether it succeeds is up to the surroundings
      (a directory that is missing, a disk that is full). *)
  write_file : xml_file -> D -> exc unit
}.

(** ** The parser object and its output *)

(** [ad_data] *)
Record ad_data := {
  ad_name : str;
  ad_url : option str;
  ad_price : option str;
  ad_area : str;
  ad_date_public : str;
  ad_address : str
}.

(** [detail_data] *)
Record detail_data := {
  date_public : str;
  address : str
}.

Inductive event :=
| EvOpen (url : option str)          (* driver.open(url) *)
| EvSleep (seconds : Z)              (* time.sleep(seconds) *)
| EvFindElements (loc : locator)     (* driver.find_elements(loc) *)
| EvScript.                          (* driver.execute_script(...) *)

(** The fields of [AvitoParse], the surroundings [env], and what the run has
    done so far: driver calls and sleeps in [trace], the files whose writing
    succeeded in [files]; [session] tells whether the [SB] context is
    entered. *)
Record state (D : Type) := {
  base_url : str;
  url : str;
  count : Z;
  data : list ad_data;
  stop_event : bool;                 (* an event object was given *)
  region : option str;
  env : D;
  trace : list event;
  files : list xml_file;
  session : bool
}.

(** A method returns or raises. *)
Inductive outcome (A : Type) :=
| Returns (a : A)
| Raises (e : exn).
Arguments Returns {A} a.
Arguments Raises {A} e.

Section Monad.
Context {D : Type} `{Env D}.

(** [AvitoParse.__init__] *)
Definition init (url0 : str) (count0 : Z) (stop_event0 : bool)
           (region0 : option str) (d : D) : state D :=
  {| base_url := url0; url := url0; count := count0; data := [];
     stop_event := stop_event0; region := region0;
     env := d; trace := []; files := []; session := false |}.

Definition set_url (v : str) (w : state D) : state D :=
  {| base_url := base_url w; url := v; count := count w; data := data w;
     stop_event := stop_event w; region := region w; env := env w;
     trace := trace w; files := files w; session := session w |}.

Definition set_data (v : list ad_data) (w : state D) : state D :=
  {| base_url := base_url w; url := url w; count := count w; data := v;
     stop_event := stop_event w; region := region w; env := env w;
     trace := trace w; files := files w; session := session w |}.

Definition set_env (v : D) (w : state D) : state D :=
  {| base_url := base_url w; url := url w; count := count w; data := data w;
     stop_event := stop_event w; region := region w; env := v;
     trace := trace w; files := files w; session := session w |}.

Definition set_trace (v : list event) (w : state D) : state D :=
  {| base_url := base_url w; url := url w; count := count w; data := data w;
     stop_event := stop_event w; region := region w; env := env w;
     trace := v; files := files w; session := session w |}.

Definition set_files (v : list xml_file) (w : state D) : state D :=
  {| base_url := base_url w; url := url w; count := count w; data := data w;
     stop_event := stop_event w; region := region w; env := env w;
     trace := trace w; files := v; session := session w |}.

Definition set_session (v : bool) (w : state D) : state D :=
  {| base_url := base_url w; url := url w; count := count w; data := data w;
     stop_event := stop_event w; region := region w; env := env w;
     trace := trace w; files := files w; session := v |}.

Definition M (A : Type) := state D -> outcome A * state D.

Definition ret {A} (a : A) : M A := fun w => (Returns a, w).

Definition bind {A B} (m : M A) (k : A -> M B) : M B :=
  fun w =>
    match m w with
    | (Returns a, w') => k a w'
    | (Raises e, w') => (Raises e, w')
    end.

Definition raise {A} (e : exn) : M A := fun w => (Raises e, w).

(** [try: body  except Exception as e: handler e]; a handler that names
    one class tests for it. *)
Definition try_except {A} (body : M A) (handler : exn -> M A) : M A :=
  fun w =>
    match body w with
    | (Raises e, w') => handler e w'
    | r => r
    end.

Definition lift_exc {A} (r : exc A) : M A :=
  fun w => (match r with Ok a => Returns a | Raise e => Raises e end, w).

Definition gets {A} (f : state D -> A) : M A :=
  fun w => (Returns (f w), w).

Definition modify (f : state D -> state D) : M unit :=
  fun w => (Returns tt, f w).

(** A call on the surroundings. *)
Definition call {A} (f : D -> exc A * D) : M A :=
  fun w =>
    let '(r, d) := f (env w) in
    (match r with Ok a => Returns a | Raise e => Raises e end, set_env d w).

Definition emit (e : event) : M unit :=
  modify (fun w => set_trace (trace w ++ [e]) w).

End Monad.

Declare Scope monad_scope.
Delimit Scope monad_scope with monad.
Notation "x <- m ;; k" := (bind m (fun x => k))
  (at level 61, m at next level, right associativity) : monad_scope.
Notation "m ;; k" := (bind m (fun _ => k))
  (at level 61, right associativity) : monad_scope.

(** ** The methods of [AvitoParse] *)

Inductive loop_ctl := Break | Continue.

Section Methods.
Context `{CPython} {D : Type} `{Env D}.
Local Open Scope monad_scope.
Local Abbreviation M := (@M D).

(** The [loguru] calls: the sink is outside the model. *)
Definition logger_info : M unit := ret tt.
Definition logger_error : M unit := ret tt.
Definition logger_debug : M unit := ret tt.

(** [time.sleep] *)
Definition sleep (seconds : Z) : M unit := emit (EvSleep seconds).

Definition random_randint (a b : Z) : M Z :=
  fun w => let '(r, d) := randint a b (env w) in (Returns r, set_env d w).

Definition driver_open (target : option str) : M unit :=
  emit (EvOpen target) ;; call (drv_open target).

Definition driver_get_title : M str := call drv_get_title.

Definition driver_get_current_url : M str := call drv_get_current_url.

Definition driver_find_elements (loc : locator) : M (list element) :=
  emit (EvFindElements loc) ;; call (drv_find_elements loc).

Definition driver_execute_script (code : str) : M unit :=
  emit EvScript ;; call (drv_execute_script code).

Definition access_restricted : str := u "Доступ ограничен".

(** The body of [AvitoParse.__get_url]; [again] is what the call
    [self.__get_url()] does where the body makes it: in the [try] at line
    60, and outside it, in the handlers, at lines 73 and 78. *)
Definition get_url_body (again : M unit) : M unit :=
  logger_info ;;
  try_except
    (target <- gets (@url D) ;;
     driver_open (Some target) ;;
     title <- driver_get_title ;;
     if str_contains access_restricted title
     then
       logger_info ;;
       pause <- random_randint 10 20 ;;
       sleep pause ;;
       again
     else
       call (drv_wait_presence 10 TITLES) ;;
       logger_info)
    (fun e =>
       if is_timeout e
       then logger_error ;; sleep 5 ;; again
       else logger_error ;; sleep 5 ;; again).

(** [AvitoParse.__get_url].  The method retries by calling itself, and the
    interpreter bounds how deep calls nest.  [fuel] is the room the stack
    has left, counted in calls of the method nested in this one: with none
    left, a call of the method raises [RecursionError] where it is made. *)
Fixpoint get_url (fuel : nat) : M unit :=
  match fuel with
  | O => get_url_body (raise RecursionError)
  | S fuel' => get_url_body (get_url fuel')
  end.

Definition empty_detail : detail_data :=
  {| date_public := []; address := [] |}.

(** The text of the first element, or the empty string. *)
Definition first_text (els : list element) : M str :=
  match els with
  | e :: _ => call (el_text e)
  | [] => ret []
  end.

(** The body of [AvitoParse.__parse_detail]; [again] is what the call
    [self.__parse_detail(url)] at line 214 does, inside the [try]. *)
Definition parse_detail_body (again : M detail_data) (target : option str)
  : M detail_data :=
  try_except
    (driver_open target ;;
     sleep 2 ;;
     title <- driver_get_title ;;
     if str_contains access_restricted title
     then
       logger_info ;;
       pause <- random_randint 10 20 ;;
       sleep pause ;;
       again
     else
       date_elements <- driver_find_elements DATE_PUBLIC ;;
       date <- first_text date_elements ;;
       geo_elements <- driver_find_elements GEO ;;
       geo <- first_text geo_elements ;;
       ret {| date_public := date; address := geo |})
    (fun e => logger_debug ;; ret empty_detail).

(** [AvitoParse.__parse_detail]; [fuel] is the room of the stack, as in
    [get_url]: with none left the nested call raises [RecursionError],
    which the handler of the [try] around it catches. *)
Fixpoint parse_detail (fuel : nat) (target : option str) : M detail_data :=
  match fuel with
  | O => parse_detail_body (raise RecursionError) target
  | S fuel' => parse_detail_body (parse_detail fuel' target) target
  end.

Definition ad_element (ad : ad_data) : Element :=
  El (u "ad") None
     [ El (u "title") (Some (ad_name ad)) [];
       El (u "price") (ad_price ad) [];
       El (u "address") (Some (ad_address ad)) [];
       El (u "area") (Some (ad_area ad)) [];
       El (u "url") (ad_url ad) [];
       El (u "date") (Some (ad_date_public ad)) [] ].

(** [f'{self.region}'] *)
Definition format_region (r : option str) : str :=
  match r with
  | Some s => s
  | None => u "None"
  end.

Definition xml_of (ads : list ad_data) (region0 : option str)
           (timestamp : str) : xml_file :=
  {| file_name := u "avito_" ++ format_region region0 ++ u "_"
                  ++ timestamp ++ u ".xml";
     root := El (u "real_estate") None (map ad_element ads) |}.

(** [tree.write(file_name, ...)]: the file is among [files] when the
    write has succeeded; a write that fails raises and leaves them as they
    were. *)
Definition tree_write (f : xml_file) : M unit :=
  fun w =>
    match write_file f (env w) with
    | Ok _ => (Returns tt, set_files (files w ++ [f]) w)
    | Raise e => (Raises e, w)
    end.

(** [AvitoParse.__save_to_xml] *)
Definition save_to_xml : M unit :=
  ads <- gets (@data D) ;;
  match ads with
  | [] => logger_info
  | _ =>
    timestamp <- gets (fun w => strftime_now (env w)) ;;
    region0 <- gets (@region D) ;;
    tree_write (xml_of ads region0 timestamp) ;;
    logger_info
  end.

(** [self.stop_event and self.stop_event.is_set()] *)
Definition stop_requested : M bool :=
  gets (fun w => stop_event w && stop_is_set (env w)).

(** [ads_elements[i]] *)
Definition getitem {A} (l : list A) (i : nat) : M A :=
  match nth_error l i with
  | Some a => ret a
  | None => raise IndexError
  end.

(** Lines 176 to 183 of [__parse_page]: the append and the flush at 2000
    records. *)
Definition append_ad (ad : ad_data) : M unit :=
  modify (fun w => set_data (data w ++ [ad]) w) ;;
  logger_info ;;
  n <- gets (fun w => length (data w)) ;;
  if 2000 <=? n
  then save_to_xml ;; modify (set_data [])
  else ret tt.

(** The body of the [try] in [__parse_page], for the ad of index [i],
    from the second statement on: [ads_elements] is the collection just
    resolved. *)
Definition process_elements (fuel : nat) (i : nat) (current_url : str)
           (ads_elements : list element) : M unit :=
  ad <- getitem ads_elements i ;;
  name_el <- call (el_find_element ad NAME) ;;
  name <- call (el_text name_el) ;;
  found <- call (el_find_elements ad DESCRIPTIONS) ;;
  description <-
    match found with
    | [] => ret []
    | _ =>
      try_except
        (description_el <- call (el_find_element ad DESCRIPTIONS) ;;
         call (el_text description_el))
        (fun err => logger_debug ;; ret [])
    end ;;
  url_el <- call (el_find_element ad URL) ;;
  href <- call (el_get_attribute url_el (u "href")) ;;
  price_el <- call (el_find_element ad PRICE) ;;
  price <- call (el_get_attribute price_el (u "content")) ;;
  lift_exc (int_of_attr price) ;;
  let area := extract_area name in
  let area := match area with [] => extract_area description | _ => area end in
  detail <- parse_detail fuel href ;;
  append_ad {| ad_name := name; ad_url := href; ad_price := price;
               ad_area := area; ad_date_public := date_public detail;
               ad_address := address detail |} ;;
  driver_open (Some current_url) ;;
  sleep 1.

(** The body of the [try] in [__parse_page], for the ad of index [i]: the
    collection is resolved anew, then the ad is read from it. *)
Definition process_ad (fuel : nat) (i : nat) (current_url : str) : M unit :=
  ads_elements <- driver_find_elements TITLES ;;
  process_elements fuel i current_url ads_elements.

(** The [while retries > 0] loop of [__parse_page]. *)
Fixpoint retry_ad (retries : nat) (fuel : nat) (i : nat) (current_url : str)
  : M unit :=
  match retries with
  | O => ret tt
  | S retries' =>
    ctl <- try_except
             (process_ad fuel i current_url ;; ret Break)
             (fun e =>
                if is_stale e
                then logger_debug ;; sleep 1 ;; ret Continue
                else logger_debug ;; ret Break) ;;
    match ctl with
    | Break => ret tt
    | Continue => retry_ad retries' fuel i current_url
    end
  end.

(** [for i in range(n): body i] *)
Fixpoint for_each (indices : list nat) (body : nat -> M unit) : M unit :=
  match indices with
  | [] => ret tt
  | i :: rest => body i ;; for_each rest body
  end.

(** [AvitoParse.__parse_page] *)
Definition parse_page (fuel : nat) : M unit :=
  stop <- stop_requested ;;
  if stop then logger_info
  else
    current_url <- driver_get_current_url ;;
    ads_elements <- driver_find_elements TITLES ;;
    match ads_elements with
    | [] => logger_info
    | _ =>
      logger_info ;;
      for_each (seq 0 (length ads_elements))
               (fun i => retry_ad 3 fuel i current_url)
    end.

(** [AvitoParse.open_next_btn] *)
Definition open_next_btn : M unit :=
  modify (fun w => set_url (get_next_page_url (base_url w) (url w)) w) ;;
  logger_info ;;
  target <- gets (@url D) ;;
  driver_open (Some target).

Definition scroll_script : str :=
  u "window.scrollTo(0, document.body.scrollHeight);".

(** The [for i in range(self.count)] loop of [__paginator], [n]
    iterations to go. *)
Fixpoint paginator_loop (fuel : nat) (n : nat) : M unit :=
  match n with
  | O => ret tt
  | S n' =>
    stop <- stop_requested ;;
    if stop then ret tt
    else
      try_except
        (driver_execute_script scroll_script ;; sleep 1)
        (fun _ => logger_debug) ;;
      parse_page fuel ;;
      pause <- random_randint 2 4 ;;
      sleep pause ;;
      open_next_btn ;;
      paginator_loop fuel n'
  end.

(** [if self.data: self.__save_to_xml()] *)
Definition save_remaining : M unit :=
  ads <- gets (@data D) ;;
  match ads with
  | [] => ret tt
  | _ => save_to_xml
  end.

(** [AvitoParse.__paginator] *)
Definition paginator (fuel : nat) : M unit :=
  logger_info ;;
  n <- gets (@count D) ;;
  paginator_loop fuel (Z.to_nat n) ;;
  save_remaining.

(** [with SB(...) as self.driver: body]: the session is released when the
    body is left, by a return or by an exception. *)
Definition with_SB {A} (body : M A) : M A :=
  fun w =>
    let '(r, w') := body (set_session true w) in
    (r, set_session false w').

(** [AvitoParse.parse] *)
Definition parse (fuel : nat) : M unit :=
  with_SB
    (try_except
       (get_url fuel ;; paginator fuel)
       (fun err => logger_error ;; save_remaining)) ;;
  logger_info.

End Methods.

(** ** A runtime and a scripted driver to run the methods on *)

Definition in_range (lo hi c : N) : bool := ((lo <=? c) && (c <=? hi))%N.

(** White space of the Unicode database. *)
Definition basic_isspace (c : char) : bool :=
  in_range 9 13 c || in_range 28 32 c || (c =? 133)%N || (c =? 160)%N
  || (c =? 5760)%N || in_range 8192 8202 c || (c =? 8232)%N || (c =? 8233)%N
  || (c =? 8239)%N || (c =? 8287)%N || (c =? 12288)%N.

(** Lower case of the ASCII letters and of the Russian alphabet. *)
Definition basic_tolower (c : char) : char :=
  if in_range 65 90 c || in_range 1040 1071 c then (c + 32)%N
  else if (c =? 1025)%N then 1105%N
  else c.

Definition basic_toupper (c : char) : char :=
  if in_range 97 122 c || in_range 1072 1103 c then (c - 32)%N
  else if (c =? 1105)%N then 1025%N
  else c.

(** The Cyrillic entries of [sre_compile._equivalences], and the two of the
    ASCII letters. *)
Definition basic_fixes (c : char) : list char :=
  if (c =? 1074)%N then [7296%N]                 (* в *)
  else if (c =? 1076)%N then [7297%N]            (* д *)
  else if (c =? 1086)%N then [7298%N]            (* о *)
  else if (c =? 1089)%N then [7299%N]            (* с *)
  else if (c =? 1090)%N then [7300%N; 7301%N]    (* т *)
  else if (c =? 1098)%N then [7302%N]            (* ъ *)
  else if (c =? 105)%N then [305%N]              (* i *)
  else if (c =? 115)%N then [383%N]              (* s *)
  else [].

(** A runtime for the worked examples: ASCII digits, the white space of
    Unicode, the case of ASCII and Russian letters, the UTF-8 decoder of the
    literals, the default digit limit.  It refuses network locations with
    brackets or with characters outside ASCII, which no example has. *)
#[export] Instance basic_runtime : CPython := {|
  Py_UNICODE_TODECIMAL := fun c => if in_range 48 57 c then Some (c - 48)%N else None;
  Py_UNICODE_ISSPACE := basic_isspace;
  Py_UNICODE_TOLOWER := basic_tolower;
  Py_UNICODE_TOUPPER := basic_toupper;
  ignorecase_fixes := basic_fixes;
  decode_utf8_replace := utf8_decode;
  check_bracketed := fun _ => false;
  checknetloc := fun _ => false;
  int_max_str_digits := 4300
|}.

(** An answer of the scripted driver to one call. *)
Inductive response :=
| RNone                              (* the call returns nothing *)
| RStr (s : str)
| RAttr (v : option str)
| RElements (els : list element)
| RElement (el : element)
| RRaise (e : exn).

(** A scripted driver: the answers to the calls to come, in order.  A call
    that finds no answer of its kind raises [WebDriverException].  The stop
    event is set once [stop_at] calls have been made. *)
Record script := {
  responses : list response;
  randoms : list Z;
  calls : nat;
  stop_at : option nat;
  now : str
}.

Definition answer {A} (pick : response -> option A) (s : script)
  : exc A * script :=
  let s' rest := {| responses := rest; randoms := randoms s;
                    calls := S (calls s); stop_at := stop_at s;
                    now := now s |} in
  match responses s with
  | [] => (Raise WebDriverException, s' [])
  | RRaise e :: rest => (Raise e, s' rest)
  | r :: rest =>
    (match pick r with Some a => Ok a | None => Raise WebDriverException end,
     s' rest)
  end.

Definition pick_none (r : response) : option unit :=
  match r with RNone => Some tt | _ => None end.
Definition pick_str (r : response) : option str :=
  match r with RStr s => Some s | _ => None end.
Definition pick_attr (r : response) : option (option str) :=
  match r with RAttr v => Some v | _ => None end.
Definition pick_elements (r : response) : option (list element) :=
  match r with RElements els => Some els | _ => None end.
Definition pick_element (r : response) : option element :=
  match r with RElement el => Some el | _ => None end.

Definition script_randint (a b : Z) (s : script) : Z * script :=
  match randoms s with
  | [] => (a, s)
  | r :: rest =>
    ((a + r mod (b - a + 1))%Z,
     {| responses := responses s; randoms := rest; calls := calls s;
        stop_at := stop_at s; now := now s |})
  end.

Lemma script_randint_range a b s :
  (a <= b)%Z -> (a <= fst (script_randint a b s) <= b)%Z.
Proof.
  intros Hab. unfold script_randint.
  destruct (randoms s) as [|r rest]; simpl; [lia|].
  pose proof (Z.mod_pos_bound r (b - a + 1)). lia.
Qed.

(** The scripted driver over a disk: [disk] tells whether the write of a
    file succeeds. *)
Definition scripted_on (disk : xml_file -> script -> exc unit) : Env script := {|
  drv_open := fun _ => answer pick_none;
  drv_get_title := answer pick_str;
  drv_get_current_url := answer pick_str;
  drv_find_elements := fun _ => answer pick_elements;
  drv_execute_script := fun _ => answer pick_none;
  drv_wait_presence := fun _ _ => answer pick_none;
  el_find_element := fun _ _ => answer pick_element;
  el_find_elements := fun _ _ => answer pick_elements;
  el_text := fun _ => answer pick_str;
  el_get_attribute := fun _ _ => answer pick_attr;
  randint := script_randint;
  randint_range := script_randint_range;
  stop_is_set := fun s =>
    match stop_at s with
    | Some k => Nat.leb k (calls s)
    | None => false
    end;
  strftime_now := now;
  write_file := disk
|}.

(** A disk that takes every file. *)
#[export] Instance scripted : Env script := scripted_on (fun _ _ => Ok tt).

(** A working directory without subdirectories: the write of a file whose
    name has a slash fails, for the directory that the name asks for is
    missing. *)
Definition flat_directory : Env script :=
  scripted_on (fun f _ =>
                 if char_in 47%N (file_name f) then Raise OSError else Ok tt).

Definition play (rs : list response) : script :=
  {| responses := rs; randoms := []; calls := 0; stop_at := None;
     now := u "20250110_120000" |}.

(** ** What the specification says of [extract_area], as predicates *)

Section AreaSpec.
Context `{CPython}.

Definition all_digits (d : str) : Prop :=
  Forall (fun c => isdecimal c = true) d.

Definition all_space (ws : str) : Prop :=
  Forall (fun c => Py_UNICODE_ISSPACE c = true) ws.

(** An integer, or a decimal with a dot or a comma. *)
Definition is_number (n : str) : Prop :=
  exists d1, d1 <> [] /\ all_digits d1 /\
    (n = d1 \/
     exists sep d2, (sep = 46%N \/ sep = 44%N) /\ d2 <> [] /\ all_digits d2
                    /\ n = d1 ++ sep :: d2).

(** The characters of [w] are those of [token] in some letter case. *)
Definition same_letters (token w : str) : Prop :=
  Forall2 (fun p c => lit_ignorecase p c = true) token w.

Definition unit_tokens : list str :=
  [u "м²"; u "кв.м"; u "квм"; u "квадратных метров"].

Definition is_unit (w : str) : Prop :=
  exists token, In token unit_tokens /\ same_letters token w.

(** [s] starts with the number [n], white space and a unit. *)
Definition area_at_start (s n : str) : Prop :=
  exists ws w post,
    s = n ++ ws ++ w ++ post /\ is_number n /\ all_space ws /\ is_unit w.

(** [s] starts with the number [n] and a unit right after it. *)
Definition adjacent_at_start (s n : str) : Prop :=
  exists w post, s = n ++ w ++ post /\ is_number n /\ is_unit w.

Definition occurs_at (text : str) (i : nat) (n : str) : Prop :=
  i <= length text /\ area_at_start (skipn i text) n.

Definition adjacent_occurs_at (text : str) (i : nat) (n : str) : Prop :=
  i <= length text /\ adjacent_at_start (skipn i text) n.

(** What the proofs need of the Unicode tables: digits, white space, the
    two decimal separators and the letters a unit can start with (м, к in
    either case) are apart. *)
Record unicode_apart : Prop := {
  digit_not_space :
    forall c, isdecimal c = true -> Py_UNICODE_ISSPACE c = false;
  digit_not_sep :
    forall c, isdecimal c = true -> c <> 46%N /\ c <> 44%N;
  sep_not_space :
    Py_UNICODE_ISSPACE 46%N = false /\ Py_UNICODE_ISSPACE 44%N = false;
  sep_uncased :
    iscased 46%N = false /\ iscased 44%N = false;
  unit_start_apart :
    forall c, lit_ignorecase 1084%N c = true \/ lit_ignorecase 1082%N c = true ->
              isdecimal c = false /\ Py_UNICODE_ISSPACE c = false
              /\ c <> 46%N /\ c <> 44%N
}.

(** The longest run of digits at the start of [s], and the rest. *)
Fixpoint span_digits (s : str) : str * str :=
  match s with
  | [] => ([], [])
  | c :: s' =>
    if isdecimal c
    then let '(d, r) := span_digits s' in (c :: d, r)
    else ([], s)
  end.

(** The number a text starts with: its leading digits and, when a
    separator follows them, the separator and the digits after it. *)
Definition leading_number (s : str) : str :=
  let '(d1, r1) := span_digits s in
  match r1 with
  | c :: r2 =>
    if ((c =? 46) || (c =? 44))%N then d1 ++ c :: fst (span_digits r2)
    else d1
  | [] => d1
  end.

(** The language of a pattern, without regard to the order of trials. *)
Inductive Lang : regex -> str -> Prop :=
| LEps : Lang Eps []
| LAtom a c : atom_match a c = true -> Lang (Atom a) [c]
| LStar a w : Forall (fun c => atom_match a c = true) w -> Lang (Star a) w
| LPlus a w :
    w <> [] -> Forall (fun c => atom_match a c = true) w -> Lang (Plus a) w
| LSeq r1 r2 w1 w2 : Lang r1 w1 -> Lang r2 w2 -> Lang (Seq r1 r2) (w1 ++ w2)
| LAltL r1 r2 w : Lang r1 w -> Lang (Alt r1 r2) w
| LAltR r1 r2 w : Lang r2 w -> Lang (Alt r1 r2) w
| LOptSome r w : Lang r w -> Lang (Opt r) w
| LOptNone r : Lang (Opt r) []
| LGroup n r w : Lang r w -> Lang (Group n r) w.

Fixpoint has_group (n : nat) (r : regex) : bool :=
  match r with
  | Eps | Atom _ | Star _ | Plus _ => false
  | Seq r1 r2 | Alt r1 r2 => has_group n r1 || has_group n r2
  | Opt r1 => has_group n r1
  | Group k r1 => Nat.eqb k n || has_group n r1
  end.

End AreaSpec.

(** ** What the specification says of the buffer and of the files *)

Section OutputSpec.
Context `{CPython}.

(** [int(price)] succeeds. *)
Definition price_is_int (price : option str) : bool :=
  match int_of_attr price with
  | Ok _ => true
  | Raise _ => false
  end.

Definition tag_of (e : Element) : str :=
  match e with El t _ _ => t end.

Definition text_of (e : Element) : option str :=
  match e with El _ t _ => t end.

Definition children_of (e : Element) : list Element :=
  match e with El _ _ c => c end.

(** The texts of the [price] elements of a file, ad by ad. *)
Definition price_texts (f : xml_file) : list (option str) :=
  flat_map
    (fun ad =>
       map text_of
           (filter (fun c => str_eqb (tag_of c) (u "price")) (children_of ad)))
    (children_of (root f)).

(** Every record of the buffer and every [price] element of every file
    written holds a price that parses as an integer. *)
Definition prices_are_int {D} (w : state D) : Prop :=
  Forall (fun ad => price_is_int (ad_price ad) = true) (data w)
  /\ Forall (fun f => Forall (fun t => price_is_int t = true) (price_texts f))
            (files w).

End OutputSpec.

(** The number of times the run has resolved the collection of ads
    ([driver.find_elements] with [LocatorAvito.TITLES]). *)
Definition is_titles_query (e : event) : bool :=
  match e with
  | EvFindElements TITLES => true
  | _ => false
  end.

Definition title_queries {D} (w : state D) : nat :=
  length (filter is_titles_query (trace w)).

(** The buffer is below the flush threshold. *)
Definition below_threshold {D} (w : state D) : Prop :=
  length (data w) < 2000.

(** ** What the specification says of a page load *)

Section LoadSpec.
Context {D : Type} `{Env D}.

(** A navigation to [target] that shows the access-restricted page: the
    driver opens the page and reports a title with the marker; [pause] is
    the number then drawn from [random.randint(10, 20)]. *)
Definition soft_blocks (target : str) (d d' : D) (pause : Z) : Prop :=
  exists d1 title d2,
    drv_open (Some target) d = (Ok tt, d1)
    /\ drv_get_title d1 = (Ok title, d2)
    /\ str_contains access_restricted title = true
    /\ randint 10 20 d2 = (pause, d').

(** A navigation to [target] that shows the listing: the title has no
    marker and the wait for the ads succeeds. *)
Definition serves_content (target : str) (d d' : D) : Prop :=
  exists d1 title d2,
    drv_open (Some target) d = (Ok tt, d1)
    /\ drv_get_title d1 = (Ok title, d2)
    /\ str_contains access_restricted title = false
    /\ drv_wait_presence 10 TITLES d2 = (Ok tt, d').

(** [n] soft blocks in a row, with the pauses drawn. *)
Inductive blocked_times (target : str) : nat -> D -> D -> list Z -> Prop :=
| blocked_0 d : blocked_times target 0 d d []
| blocked_S n d d1 d' pause pauses :
    soft_blocks target d d1 pause ->
    blocked_times target n d1 d' pauses ->
    blocked_times target (S n) d d' (pause :: pauses).

Definition is_navigation (e : event) : bool :=
  match e with EvOpen _ => true | _ => false end.

Definition sleeps_of (t : list event) : list Z :=
  flat_map (fun e => match e with EvSleep s => [s] | _ => [] end) t.

(** The trace of a load that is blocked once for each pause and then
    served. *)
Definition load_trace (target : str) (pauses : list Z) : list event :=
  flat_map (fun p => [EvOpen (Some target); EvSleep p]) pauses
  ++ [EvOpen (Some target)].

End LoadSpec.

(** The state once the buffer, when it holds anything, has been written to
    a file: what [if self.data: self.__save_to_xml()] leaves. *)
Definition flushed `{CPython} {D : Type} `{Env D} (w : state D) : state D :=
  match data w with
  | [] => w
  | _ => set_files (files w ++ [xml_of (data w) (region w)
                                       (strftime_now (env w))]) w
  end.

(** Every write of a file succeeds, whatever the file and the state of the
    surroundings. *)
Definition writes_succeed {D : Type} `{Env D} : Prop :=
  forall f d, write_file f d = Ok tt.

(** ** Scripts for the worked examples *)

Definition avito_url : str := u "https://www.avito.ru/adygeya/kvartiry/prodam".

(** The driver shows the access-restricted page twice, then the listing. *)
Definition blocked_twice : script :=
  {| responses := [RNone; RStr (u "Доступ ограничен: проблема с IP");
                   RNone; RStr (u "Доступ ограничен: проблема с IP");
                   RNone; RStr (u "Купить квартиру в Адыгее"); RNone];
     randoms := [3%Z; 17%Z]; calls := 0; stop_at := None;
     now := u "20250110_120000" |}.

Definition after_calls (k : nat) (s : script) : script :=
  {| responses := skipn k (responses s); randoms := randoms s;
     calls := calls s + k; stop_at := stop_at s; now := now s |}.

Definition after_randoms (k : nat) (s : script) : script :=
  {| responses := responses s; randoms := skipn k (randoms s);
     calls := calls s; stop_at := stop_at s; now := now s |}.

(** The answers of the driver while one ad is read and its detail page
    visited: the collection [ads], the name, the descriptions (none when
    [description] is [None]), the link, the price, then the detail page with
    its date and address, and the return to the list. *)
Definition ad_answers (ads : list element) (name : str)
           (description : option str) (href price : option str)
           (date geo : str) : list response :=
  [RElements ads; RElement 10; RStr name]
  ++ match description with
     | None => [RElements []]
     | Some text => [RElements [11]; RElement 11; RStr text]
     end
  ++ [RElement 12; RAttr href; RElement 13; RAttr price;
      RNone; RStr (u "Квартира на Авито"); RElements [20]; RStr date;
      RElements [21]; RStr geo; RNone].

Definition flat_answers : list response :=
  ad_answers [0; 1; 2] (u "Квартира, 45 м²") None
             (Some (u "https://x/1")) (Some (u "3500000"))
             (u "10 января") (u "ул. Ленина").

(** A list page with three ads; the stop event is set once the driver has
    been called [k] times. *)
Definition three_ads (k : option nat) : script :=
  {| responses := [RStr avito_url; RElements [0; 1; 2]]
                  ++ flat_answers ++ flat_answers ++ flat_answers;
     randoms := []; calls := 0; stop_at := k;
     now := u "20250110_120000" |}.

(** The scenario of the specification: two ads, the second with its area in
    the description. *)
Definition two_ads : script :=
  play ([RStr avito_url; RElements [0; 1]]
        ++ ad_answers [0; 1] (u "Квартира, 45 м²") None
                      (Some (u "https://x/1")) (Some (u "3500000"))
                      (u "10 января") (u "ул. Ленина")
        ++ ad_answers [0; 1] (u "Уютная студия") (Some (u "площадь 30 кв.м"))
                      (Some (u "https://x/2")) (Some (u "2100000"))
                      (u "10 января") (u "ул. Ленина")).

(** A run of one page: the load, the scroll, a page with one ad; the
    script ends there, so the driver raises when the next page is opened. *)
Definition one_page_then_error : script :=
  play ([RNone; RStr (u "Купить квартиру в Адыгее"); RNone;
         RNone;
         RStr avito_url; RElements [0]]
        ++ ad_answers [0] (u "Квартира, 45 м²") None
                      (Some (u "https://x/1")) (Some (u "3500000"))
                      (u "10 января") (u "ул. Ленина")).

Definition flat_record : ad_data :=
  {| ad_name := u "Квартира, 45 м²"; ad_url := Some (u "https://x/1");
     ad_price := Some (u "3500000"); ad_area := u "45";
     ad_date_public := u "10 января"; ad_address := u "ул. Ленина" |}.

(** A list page with two ads that are read and recorded, without the
    return to the list after either. *)
Definition two_ads_no_return : script :=
  play ([RStr avito_url; RElements [0; 1]]
        ++ removelast (ad_answers [0; 1] (u "Квартира, 45 м²") None
                                  (Some (u "https://x/1")) (Some (u "3500000"))
                                  (u "10 января") (u "ул. Ленина"))
        ++ removelast (ad_answers [0; 1] (u "Уютная студия")
                                  (Some (u "площадь 30 кв.м"))
                                  (Some (u "https://x/2")) (Some (u "2100000"))
                                  (u "10 января") (u "ул. Ленина"))).

(** A parser for a region whose name has a slash, one record short of the
    threshold, on that page. *)
Definition nearly_full : state script :=
  set_data (repeat flat_record 1999)
           (init avito_url 1 false (Some (u "no/such_dir")) two_ads_no_return).

(** The stop event is set while the page is scrolled: the poll at the head
    of the iteration has passed, the poll of the page collection finds it.
    The driver answers the scroll and the opening of the next page. *)
Definition stop_during_scroll : script :=
  {| responses := [RNone; RNone]; randoms := [1%Z]; calls := 0;
     stop_at := Some 1; now := u "20250110_120000" |}.

(** A parser that was asked to stop, with one record in its buffer. *)
Definition stopped_parser : state script :=
  set_data [{| ad_name := u "Квартира, 45 м²"; ad_url := Some (u "https://x/1");
               ad_price := Some (u "3500000"); ad_area := u "45";
               ad_date_public := u "10 января"; ad_address := u "ул. Ленина" |}]
           (init avito_url 35 true (Some (u "adygeya")) (three_ads (Some 0))).

(** ** Further notions the statements below are written with *)

(** The number that a text of ASCII digits denotes. *)
Definition digits_value (ds : str) : N :=
  fold_left (fun acc c => (acc * 10 + (c - 48))%N) ds 0%N.

Definition ascii_digits (ds : str) : Prop :=
  Forall (fun c => (48 <= c <= 57)%N) ds.

(** The characters of a decimal numeral as [str] renders it. *)
Definition numeral_char (c : char) : Prop :=
  c = 45%N \/ (48 <= c <= 57)%N.

(** Characters that [urlsplit] neither removes nor splits a query at. *)
Definition query_char (c : char) : Prop :=
  c <> 35%N /\ c <> 58%N /\ c <> 9%N /\ c <> 10%N /\ c <> 13%N.

(** The list URL after [n] calls of [open_next_btn] on a parser made for
    [base]: [__init__] sets [self.url] to the base URL, and every call
    replaces it by [get_next_page_url] of it. *)
Fixpoint page_url `{CPython} (base : str) (n : nat) : str :=
  match n with
  | O => base
  | S n' => get_next_page_url base (page_url base n')
  end.


(** [f'https://www.avito.ru/{region}/kvartiry/prodam'] *)
Definition region_url (region : str) : str :=
  u "https://www.avito.ru/" ++ region ++ u "/kvartiry/prodam".

(** The area that [__parse_page] records for an ad: the one of the title
    and, when the title has none, the one of the description. *)
Definition area_of `{CPython} (name description : str) : str :=
  let area := extract_area name in
  match area with
  | [] => extract_area description
  | _ => area
  end.

(** The parser of base URL [base] is on one of its first [j + 1] list
    pages. *)
Definition at_page `{CPython} {D : Type} (base : str) (j : nat)
           (w : state D) : Prop :=
  base_url w = base /\ exists k, k <= j /\ url w = page_url base k.

(** A file as [__save_to_xml] writes it for a parser of region [region0]:
    between 1 and 2000 records. *)
Definition well_formed_file (region0 : option str) (f : xml_file) : Prop :=
  exists timestamp ads,
    f = xml_of ads region0 timestamp /\ 1 <= length ads <= 2000.

Definition files_well_formed {D : Type} (region0 : option str)
           (w : state D) : Prop :=
  region w = region0 /\ length (data w) < 2000
  /\ Forall (well_formed_file region0) (files w).

(** The area of a record is the one of its title when the title has one,
    and else the one of some text, the description of the ad. *)
Definition area_from_title `{CPython} (ad : ad_data) : Prop :=
  (extract_area (ad_name ad) <> [] -> ad_area ad = extract_area (ad_name ad))
  /\ (extract_area (ad_name ad) = [] ->
      exists description, ad_area ad = extract_area description).

(** Every record of the buffer and of the files satisfies [P]. *)
Definition records_satisfy {D : Type} (P : ad_data -> Prop) (w : state D)
  : Prop :=
  Forall P (data w)
  /\ Forall (fun f => exists ads,
                 root f = El (u "real_estate") None (map ad_element ads)
                 /\ Forall P ads)
            (files w).

Section FaultSpec.
Context {D : Type} `{Env D}.

(** A navigation to [target] that fails with the exception [e]: the driver
    raises when it opens the page, when it is asked for the title or, the
    title having no marker, while it waits for the ads.  [d'] is what the
    failing call leaves. *)
Definition load_fails (target : str) (d d' : D) (e : exn) : Prop :=
  drv_open (Some target) d = (Raise e, d')
  \/ (exists d1,
         drv_open (Some target) d = (Ok tt, d1)
         /\ drv_get_title d1 = (Raise e, d'))
  \/ (exists d1 title d2,
         drv_open (Some target) d = (Ok tt, d1)
         /\ drv_get_title d1 = (Ok title, d2)
         /\ str_contains access_restricted title = false
         /\ drv_wait_presence 10 TITLES d2 = (Raise e, d')).

(** The driver refuses the query for the current URL or the first query
    for the ads, in the surroundings [d]. *)
Definition listing_fails (d : D) (e : exn) : Prop :=
  (exists d', drv_get_current_url d = (Raise e, d'))
  \/ (exists current_url d1 d',
         drv_get_current_url d = (Ok current_url, d1)
         /\ drv_find_elements TITLES d1 = (Raise e, d')).

(** Attempts to load [target] that are not served, each a soft block or
    a fault, with the pause that follows each: the number drawn for a soft
    block, five seconds for a fault. *)
Inductive retried (target : str) : D -> D -> list Z -> Prop :=
| retried_nil d : retried target d d []
| retried_block d d1 d' pause pauses :
    soft_blocks target d d1 pause ->
    retried target d1 d' pauses ->
    retried target d d' (pause :: pauses)
| retried_fault d d1 d' e pauses :
    load_fails target d d1 e ->
    retried target d1 d' pauses ->
    retried target d d' (5%Z :: pauses).

(** The text of the first of [els] as the driver gives it, or the empty
    string without a call when there is none. *)
Definition first_text_is (els : list element) (d : D) (text : str) (d' : D)
  : Prop :=
  match els with
  | [] => text = [] /\ d' = d
  | el :: _ => el_text el d = (Ok text, d')
  end.

(** A visit of the detail page [target] that shows the access-restricted
    page; [pause] is the number then drawn. *)
Definition detail_blocked (target : option str) (d d' : D) (pause : Z)
  : Prop :=
  exists d1 title d2,
    drv_open target d = (Ok tt, d1)
    /\ drv_get_title d1 = (Ok title, d2)
    /\ str_contains access_restricted title = true
    /\ randint 10 20 d2 = (pause, d').

(** A visit of the detail page that is served: [detail] holds the texts of
    the first date element and of the first address element. *)
Definition detail_served (target : option str) (d d' : D)
           (detail : detail_data) : Prop :=
  exists d1 title d2 dates d3 d4 geos d5,
    drv_open target d = (Ok tt, d1)
    /\ drv_get_title d1 = (Ok title, d2)
    /\ str_contains access_restricted title = false
    /\ drv_find_elements DATE_PUBLIC d2 = (Ok dates, d3)
    /\ first_text_is dates d3 (date_public detail) d4
    /\ drv_find_elements GEO d4 = (Ok geos, d5)
    /\ first_text_is geos d5 (address detail) d'.

Inductive detail_blocked_times (target : option str)
  : D -> D -> list Z -> Prop :=
| detail_blocked_0 d : detail_blocked_times target d d []
| detail_blocked_S d d1 d' pause pauses :
    detail_blocked target d d1 pause ->
    detail_blocked_times target d1 d' pauses ->
    detail_blocked_times target d d' (pause :: pauses).

(** The trace of a visit that is blocked once for each pause and then
    served. *)
Definition detail_trace (target : option str) (pauses : list Z)
  : list event :=
  flat_map (fun p => [EvOpen target; EvSleep 2; EvSleep p]) pauses
  ++ [EvOpen target; EvSleep 2; EvFindElements DATE_PUBLIC;
      EvFindElements GEO].

End FaultSpec.

(** The list page fails to open, is then blocked, then times out, and is
    served at the fourth attempt. *)
Definition faulty_load : script :=
  {| responses := [RRaise WebDriverException;
                   RNone; RStr (u "Доступ ограничен: проблема с IP");
                   RNone; RStr (u "Купить квартиру в Адыгее");
                   RRaise TimeoutException;
                   RNone; RStr (u "Купить квартиру в Адыгее"); RNone];
     randoms := [4%Z]; calls := 0; stop_at := None;
     now := u "20250110_120000" |}.

(** A detail page that is blocked once and then served, with a date and
    without an address. *)
Definition detail_blocked_once : script :=
  {| responses := [RNone; RStr (u "Доступ ограничен: проблема с IP");
                   RNone; RStr (u "Квартира на Авито"); RElements [20; 22];
                   RStr (u "10 января"); RElements []];
     randoms := [7%Z]; calls := 0; stop_at := None;
     now := u "20250110_120000" |}.

(** A detail page whose date is read and whose address query fails. *)
Definition detail_fails_late : script :=
  play [RNone; RStr (u "Квартира на Авито"); RElements [20];
        RStr (u "10 января"); RRaise WebDriverException].

(** ** The [__main__] block

    One parser for each region, run one after the other in the same
    surroundings.  What a run hands on is the surroundings as it leaves
    them; [written] collects the files of the runs so far. *)

Section Main.
Context `{CPython} {D : Type} `{Env D}.




End Main.


(** The number of records that the parser holds: those of the buffer and
    the [ad] elements of the files. *)
Definition recorded {D : Type} (w : state D) : nat :=
  length (data w)
  + list_sum (map (fun f => length (children_of (root f))) (files w)).

(** No more than [k] records have been added to the [c] there were. *)
Definition at_most {D : Type} (c k : nat) (w : state D) : Prop :=
  recorded w <= c + k.

(** A list page with one ad.  The ad is read and recorded; the return to
    the list then fails with a stale-element fault, and the second attempt
    goes through. *)
Definition stale_return : script :=
  play ([RStr avito_url; RElements [0];
         RElements [0]; RElement 10; RStr (u "Квартира, 45 м²"); RElements [];
         RElement 12; RAttr (Some (u "https://x/1")); RElement 13;
         RAttr (Some (u "3500000"));
         RNone; RStr (u "Квартира на Авито"); RElements [20];
         RStr (u "10 января"); RElements [21]; RStr (u "ул. Ленина");
         RRaise StaleElementReferenceException]
        ++ ad_answers [0] (u "Квартира, 45 м²") None
                      (Some (u "https://x/1")) (Some (u "3500000"))
                      (u "10 января") (u "ул. Ленина")).

(** ** The page loop, iteration by iteration *)

Section LoopSpec.
Context `{CPython} {D : Type} `{Env D}.
Local Open Scope monad_scope.

(** One iteration of the page loop of [__paginator] after the read of the
    stop signal: the scroll, the collection of the page, the pause and the
    opening of the next page. *)
Definition page_iteration (fuel : nat) : M unit :=
  try_except
    (driver_execute_script scroll_script ;; sleep 1)
    (fun _ => logger_debug) ;;
  parse_page fuel ;;
  pause <- random_randint 2 4 ;;
  sleep pause ;;
  open_next_btn.

(** [loop_reaches fuel n w k w']: the page loop entered at [w] with [n]
    iterations to go stands at its head at [w'] with [k] iterations to go,
    every iteration in between having found the stop signal clear and
    returned normally. *)
Inductive loop_reaches (fuel : nat)
  : nat -> state D -> nat -> state D -> Prop :=
| loop_here n w : loop_reaches fuel n w n w
| loop_next n w w1 k w' :
    stop_event w && stop_is_set (env w) = false ->
    page_iteration fuel w = (Returns tt, w1) ->
    loop_reaches fuel n w1 k w' ->
    loop_reaches fuel (S n) w k w'.

(** The iteration entered at [w] is ended by the exception [e] of the
    driver: after the scroll, the signal being clear, the query for the
    current URL or the first query for the ads raises it; or the page
    having been dealt with and the pause drawn, the opening of the next
    page raises it. *)
Definition iteration_fails (fuel : nat) (w : state D) (e : exn) : Prop :=
  let w2 := snd (try_except
                   (driver_execute_script scroll_script ;; sleep 1)
                   (fun _ => logger_debug) w) in
  (stop_event w2 && stop_is_set (env w2) = false /\ listing_fails (env w2) e)
  \/ (exists w3 pause d d',
         parse_page fuel w2 = (Returns tt, w3)
         /\ randint 2 4 (env w3) = (pause, d)
         /\ drv_open (Some (get_next_page_url (base_url w3) (url w3))) d
            = (Raise e, d')).

(** The write of the records left in the buffer of [w] fails with [e]. *)
Definition flush_fails (w : state D) (e : exn) : Prop :=
  data w <> []
  /\ write_file (xml_of (data w) (region w) (strftime_now (env w))) (env w)
     = Raise e.

End LoopSpec.

(** * Properties *)

(** ** The pattern engine *)

Section RegexFacts.
Context `{CPython}.

Lemma star_rests_sound a s rest :
  In rest (star_rests a s) ->
  exists w, s = w ++ rest /\ Forall (fun c => atom_match a c = true) w.
Proof.
  revert rest. induction s as [|c s IH]; simpl; intros rest Hin.
  - destruct Hin as [<-|[]]. exists []. split; [reflexivity|constructor].
  - destruct (atom_match a c) eqn:Hc.
    + apply in_app_or in Hin. destruct Hin as [Hin|[<-|[]]].
      * destruct (IH _ Hin) as (w & -> & Hw).
        exists (c :: w). split; [reflexivity|constructor; assumption].
      * exists []. split; [reflexivity|constructor].
    + destruct Hin as [<-|[]]. exists []. split; [reflexivity|constructor].
Qed.

Lemma star_rests_complete a w rest :
  Forall (fun c => atom_match a c = true) w ->
  In rest (star_rests a (w ++ rest)).
Proof.
  induction 1 as [|c w Hc _ IH]; simpl.
  - destruct rest as [|c s]; simpl; [now left|].
    destruct (atom_match a c); [apply in_or_app; right|]; now left.
  - rewrite Hc. apply in_or_app. now left.
Qed.

Lemma rmatch_sound r : forall s caps rest caps',
  In (rest, caps') (rmatch r s caps) ->
  exists w, s = w ++ rest /\ Lang r w.
Proof.
  induction r as [|a|a|a|r1 IH1 r2 IH2|r1 IH1 r2 IH2|r1 IH1|n r1 IH1];
    simpl; intros s caps rest caps' Hin.
  - destruct Hin as [[= <- <-]|[]]. exists []. split; [reflexivity|constructor].
  - destruct s as [|c s]; [contradiction|].
    destruct (atom_match a c) eqn:Hc; [|contradiction].
    destruct Hin as [[= <- <-]|[]].
    exists [c]. split; [reflexivity|now constructor].
  - apply in_map_iff in Hin. destruct Hin as (x & [= <- <-] & Hin).
    destruct (star_rests_sound _ _ _ Hin) as (w & -> & Hw).
    exists w. split; [reflexivity|now constructor].
  - destruct s as [|c s]; [contradiction|].
    destruct (atom_match a c) eqn:Hc; [|contradiction].
    apply in_map_iff in Hin. destruct Hin as (x & [= <- <-] & Hin).
    destruct (star_rests_sound _ _ _ Hin) as (w & -> & Hw).
    exists (c :: w). split; [reflexivity|].
    constructor; [discriminate|constructor; assumption].
  - apply in_flat_map in Hin. destruct Hin as ([s1 c1] & Hin1 & Hin2).
    simpl in Hin2.
    destruct (IH1 _ _ _ _ Hin1) as (w1 & -> & L1).
    destruct (IH2 _ _ _ _ Hin2) as (w2 & -> & L2).
    exists (w1 ++ w2). split; [now rewrite app_assoc|now constructor].
  - apply in_app_or in Hin. destruct Hin as [Hin|Hin].
    + destruct (IH1 _ _ _ _ Hin) as (w & -> & L). exists w. split; [reflexivity|now apply LAltL].
    + destruct (IH2 _ _ _ _ Hin) as (w & -> & L). exists w. split; [reflexivity|now apply LAltR].
  - apply in_app_or in Hin. destruct Hin as [Hin|[[= <- <-]|[]]].
    + destruct (IH1 _ _ _ _ Hin) as (w & -> & L). exists w. split; [reflexivity|now apply LOptSome].
    + exists []. split; [reflexivity|apply LOptNone].
  - apply in_map_iff in Hin. destruct Hin as ([s1 c1] & [= <- <-] & Hin).
    destruct (IH1 _ _ _ _ Hin) as (w & -> & L). exists w. split; [reflexivity|now constructor].
Qed.

Lemma rmatch_complete r w :
  Lang r w ->
  forall rest caps, exists caps', In (rest, caps') (rmatch r (w ++ rest) caps).
Proof.
  induction 1 as [|a c Hc|a w Hw|a w Hne Hw|r1 r2 w1 w2 _ IH1 _ IH2
                  |r1 r2 w _ IH|r1 r2 w _ IH|r w _ IH|r|n r w _ IH];
    intros rest caps; simpl.
  - exists caps. now left.
  - rewrite Hc. exists caps. now left.
  - exists caps. apply in_map_iff. exists rest. split; [reflexivity|].
    now apply star_rests_complete.
  - destruct w as [|c w]; [contradiction|]. inversion Hw; subst.
    simpl. rewrite H2. exists caps. apply in_map_iff. exists rest.
    split; [reflexivity|]. now apply star_rests_complete.
  - destruct (IH1 (w2 ++ rest) caps) as (c1 & Hin1).
    destruct (IH2 rest c1) as (c2 & Hin2).
    exists c2. rewrite <- app_assoc. apply in_flat_map.
    exists (w2 ++ rest, c1). split; assumption.
  - destruct (IH rest caps) as (c1 & Hin). exists c1. apply in_or_app. now left.
  - destruct (IH rest caps) as (c1 & Hin). exists c1. apply in_or_app. now right.
  - destruct (IH rest caps) as (c1 & Hin). exists c1. apply in_or_app. now left.
  - exists caps. apply in_or_app. right. now left.
  - destruct (IH rest caps) as (c1 & Hin).
    exists ((n, consumed (w ++ rest) rest) :: c1).
    apply in_map_iff. exists (rest, c1). split; [reflexivity|assumption].
Qed.

(** A pattern without group [n] leaves the group as it was. *)
Lemma rmatch_frame n r : forall s caps rest caps',
  has_group n r = false ->
  In (rest, caps') (rmatch r s caps) ->
  group n caps' = group n caps.
Proof.
  induction r as [|a|a|a|r1 IH1 r2 IH2|r1 IH1 r2 IH2|r1 IH1|k r1 IH1];
    simpl; intros s caps rest caps' Hg Hin.
  - destruct Hin as [[= <- <-]|[]]. reflexivity.
  - destruct s as [|c s]; [contradiction|].
    destruct (atom_match a c); [|contradiction].
    destruct Hin as [[= <- <-]|[]]. reflexivity.
  - apply in_map_iff in Hin. destruct Hin as (x & [= <- <-] & _). reflexivity.
  - destruct s as [|c s]; [contradiction|].
    destruct (atom_match a c); [|contradiction].
    apply in_map_iff in Hin. destruct Hin as (x & [= <- <-] & _). reflexivity.
  - apply orb_false_iff in Hg. destruct Hg as [Hg1 Hg2].
    apply in_flat_map in Hin. destruct Hin as ([s1 c1] & Hin1 & Hin2).
    simpl in Hin2.
    rewrite (IH2 _ _ _ _ Hg2 Hin2). exact (IH1 _ _ _ _ Hg1 Hin1).
  - apply orb_false_iff in Hg. destruct Hg as [Hg1 Hg2].
    apply in_app_or in Hin. destruct Hin as [Hin|Hin]; eauto.
  - apply in_app_or in Hin. destruct Hin as [Hin|[[= <- <-]|[]]]; eauto.
  - apply orb_false_iff in Hg. destruct Hg as [Hk Hg1].
    apply in_map_iff in Hin. destruct Hin as ([s1 c1] & [= <- <-] & Hin).
    simpl. rewrite Hk. eauto.
Qed.

Lemma consumed_app (w rest : str) : consumed (w ++ rest) rest = w.
Proof.
  unfold consumed. rewrite length_app.
  replace (length w + length rest - length rest) with (length w) by lia.
  rewrite firstn_app, Nat.sub_diag, firstn_all. simpl. apply app_nil_r.
Qed.

(** [re_search] finds nothing exactly when no position has a match. *)
Lemma re_search_none r s :
  re_search r s = None <->
  forall i, i <= length s -> rmatch r (skipn i s) [] = [].
Proof.
  induction s as [|c s IH]; simpl.
  - destruct (rmatch r [] []) eqn:E.
    + split; [|reflexivity]. intros _ i Hi.
      destruct i; simpl; assumption.
    + split; [discriminate|]. intros Hall.
      specialize (Hall 0 (Nat.le_refl _)). simpl in Hall. congruence.
  - destruct (rmatch r (c :: s) []) eqn:E.
    + rewrite IH. split.
      * intros Hall [|i] Hi; simpl; [assumption|]. apply Hall. lia.
      * intros Hall i Hi. apply (Hall (S i)). lia.
    + split; [discriminate|]. intros Hall.
      specialize (Hall 0 (Nat.le_0_l _)). simpl in Hall. congruence.
Qed.

(** What [re_search] finds is the first way to match at the leftmost
    position that has one. *)
Lemma re_search_some r s caps :
  re_search r s = Some caps ->
  exists i rest others,
    i <= length s
    /\ (forall j, j < i -> rmatch r (skipn j s) [] = [])
    /\ rmatch r (skipn i s) [] = (rest, caps) :: others.
Proof.
  induction s as [|c s IH]; simpl.
  - destruct (rmatch r [] []) as [|[rest c0] others] eqn:E; [discriminate|].
    intros [= <-]. exists 0, rest, others. simpl.
    split; [lia|]. split; [intros j Hj; lia|assumption].
  - destruct (rmatch r (c :: s) []) as [|[rest c0] others] eqn:E.
    + intros Hs. destruct (IH Hs) as (i & rest & others & Hi & Hbefore & Hat).
      exists (S i), rest, others. simpl.
      split; [lia|]. split; [|assumption].
      intros [|j] Hj; simpl; [assumption|]. apply Hbefore. lia.
    + intros [= <-]. exists 0, rest, others. simpl.
      split; [lia|]. split; [intros j Hj; lia|assumption].
Qed.

End RegexFacts.

Section AreaFacts.
Context `{CPython}.

Lemma lit_ignorecase_refl c : lit_ignorecase c c = true.
Proof.
  unfold lit_ignorecase. destruct (iscased c); simpl.
  - now rewrite N.eqb_refl.
  - apply N.eqb_refl.
Qed.

Lemma lang_lits token w : Lang (lits token) w <-> same_letters token w.
Proof.
  unfold same_letters. revert w.
  induction token as [|p token IH]; intros w; simpl; split; intros Hw.
  - inversion Hw; subst. constructor.
  - inversion Hw; subst. constructor.
  - inversion Hw as [| | | |r1 r2 w1 w2 L1 L2| | | | |]; subst.
    inversion L1; subst. simpl. constructor; [assumption|]. now apply IH.
  - inversion Hw as [|p' c token' w' Hc Hrest]; subst.
    change (c :: w') with ([c] ++ w'). constructor.
    + now constructor.
    + now apply IH.
Qed.

Lemma lang_digits d :
  Lang (Plus ADigit) d <-> d <> [] /\ all_digits d.
Proof.
  split.
  - intros L. inversion L; subst. now split.
  - intros [Hne Hd]. now constructor.
Qed.

Lemma lang_spaces ws : Lang (Star ASpace) ws <-> all_space ws.
Proof.
  split.
  - intros L. inversion L; subst. assumption.
  - intros Hw. now constructor.
Qed.

Lemma lang_sep c :
  iscased 46%N = false /\ iscased 44%N = false ->
  Lang (Atom (ASet (u ".,"))) [c] -> c = 46%N \/ c = 44%N.
Proof.
  intros [H46 H44] L. inversion L as [|a c' Hc| | | | | | | |]; subst.
  change (u ".,") with [46%N; 44%N] in Hc. simpl in Hc.
  unfold lit_ignorecase in Hc. rewrite H46, H44 in Hc.
  rewrite orb_false_r in Hc. apply orb_true_iff in Hc.
  destruct Hc as [Hc|Hc]; apply N.eqb_eq in Hc; auto.
Qed.

Lemma lang_sep_intro c :
  c = 46%N \/ c = 44%N -> Lang (Atom (ASet (u ".,"))) [c].
Proof.
  intros Hc. constructor. change (u ".,") with [46%N; 44%N]. simpl.
  destruct Hc as [->| ->]; rewrite lit_ignorecase_refl; simpl;
    [reflexivity|apply orb_true_r].
Qed.

Lemma lang_number n :
  iscased 46%N = false /\ iscased 44%N = false ->
  Lang number_re n -> is_number n.
Proof.
  intros Hsep L. unfold number_re in L.
  inversion L as [| | | |r1 r2 d1 w2 L1 L2| | | | |]; subst.
  apply lang_digits in L1. destruct L1 as [Hne Hd1].
  exists d1. split; [assumption|]. split; [assumption|].
  inversion L2 as [| | | | | | |r w L3|r|]; subst.
  - right. inversion L3 as [| | | |r1 r2 ws d2 Ls Ld| | | | |]; subst.
    assert (exists c, ws = [c]) as [c ->] by (inversion Ls; eauto).
    apply lang_digits in Ld. destruct Ld as [Hne2 Hd2].
    exists c, d2. split; [now apply lang_sep|]. auto.
  - left. now rewrite app_nil_r.
Qed.

Lemma lang_number_intro n : is_number n -> Lang number_re n.
Proof.
  intros (d1 & Hne & Hd1 & [->|(sep & d2 & Hsep & Hne2 & Hd2 & ->)]);
    unfold number_re.
  - rewrite <- (app_nil_r d1). constructor; [now apply lang_digits|].
    apply LOptNone.
  - constructor; [now apply lang_digits|]. apply LOptSome.
    change (sep :: d2) with ([sep] ++ d2).
    constructor; [now apply lang_sep_intro|now apply lang_digits].
Qed.

Lemma same_letters_app t1 t2 w1 w2 :
  same_letters t1 w1 -> same_letters t2 w2 ->
  same_letters (t1 ++ t2) (w1 ++ w2).
Proof. apply Forall2_app. Qed.

Lemma lang_unit w : Lang unit_re w <-> is_unit w.
Proof.
  unfold unit_re, is_unit, unit_tokens. split.
  - intros L.
    inversion L as [| | | | |r1 r2 w' L1|r1 r2 w' L1| | |]; subst.
    + exists (u "м²"). split; [now left|]. now apply (lang_lits (u "м²")).
    + inversion L1 as [| | | | |r1 r2 w' L2|r1 r2 w' L2| | |]; subst.
      * inversion L2 as [| | | |r1 r2 w1 w23 La Lb| | | | |]; subst.
        inversion Lb as [| | | |r1 r2 w2 w3 Lc Ld| | | | |]; subst.
        apply (lang_lits (u "кв")) in La. apply (lang_lits (u "м")) in Ld.
        inversion Lc as [| | | | | | |r w' Le|r|]; subst.
        -- exists (u "кв.м"). split; [right; now left|].
           inversion Le; subst.
           refine (same_letters_app La (same_letters_app (t1 := [46%N]) _ Ld)).
           constructor; [assumption|constructor].
        -- exists (u "квм"). split; [right; right; now left|].
           exact (same_letters_app La Ld).
      * exists (u "квадратных метров").
        split; [right; right; right; now left|].
        now apply (lang_lits (u "квадратных метров")).
  - intros (token & Hin & Hw).
    destruct Hin as [<-|[<-|[<-|[<-|[]]]]].
    + apply LAltL. now apply lang_lits.
    + apply LAltR, LAltL.
      change (u "кв.м") with (u "кв" ++ [46%N] ++ u "м") in Hw.
      apply Forall2_app_inv_l in Hw.
      destruct Hw as (w1 & w23 & Hw1 & Hw23 & ->).
      apply Forall2_app_inv_l in Hw23.
      destruct Hw23 as (w2 & w3 & Hw2 & Hw3 & ->).
      constructor; [now apply lang_lits|].
      constructor; [|now apply lang_lits].
      apply LOptSome. inversion Hw2 as [|p c t' w' Hc Hnil]; subst.
      inversion Hnil; subst. now constructor.
    + apply LAltR, LAltL.
      change (u "квм") with (u "кв" ++ u "м") in Hw.
      apply Forall2_app_inv_l in Hw.
      destruct Hw as (w1 & w3 & Hw1 & Hw3 & ->).
      constructor; [now apply lang_lits|].
      change w3 with ([] ++ w3).
      constructor; [apply LOptNone|now apply lang_lits].
    + apply LAltR, LAltR. now apply lang_lits.
Qed.

(** Every way the pattern matches at the start of [s] is a number, white
    space and a unit, and group 1 is the number. *)
Lemma pattern_sound s rest caps :
  iscased 46%N = false /\ iscased 44%N = false ->
  In (rest, caps) (rmatch pattern s []) ->
  exists n, group 1 caps = Some n /\ area_at_start s n.
Proof.
  intros Hsep Hin. unfold pattern in Hin.
  change (rmatch (Seq (Group 1 number_re) ?t) s [])
    with (flat_map (fun m => rmatch t (fst m) (snd m))
                   (rmatch (Group 1 number_re) s [])) in Hin.
  apply in_flat_map in Hin. destruct Hin as ([s1 c1] & Hin1 & Hin2).
  simpl fst in Hin2. simpl snd in Hin2.
  assert (Hg : group 1 caps = group 1 c1)
    by (eapply rmatch_frame; [|exact Hin2]; reflexivity).
  destruct (rmatch_sound _ _ _ _ _ Hin2) as (w2 & E2 & L2).
  change (rmatch (Group 1 number_re) s [])
    with (map (fun m => (fst m, (1, consumed s (fst m)) :: snd m))
              (rmatch number_re s [])) in Hin1.
  apply in_map_iff in Hin1.
  destruct Hin1 as ([s1' c0] & E1 & Hin1). simpl in E1.
  injection E1 as <- <-.
  destruct (rmatch_sound _ _ _ _ _ Hin1) as (n & En & Ln).
  subst s. rewrite consumed_app in Hg. simpl in Hg.
  exists n. split; [assumption|].
  inversion L2 as [| | | |r1 r2 ws w Ls Lu| | | | |]; subst.
  inversion Lu; subst.
  exists ws, w, rest. rewrite <- app_assoc.
  split; [reflexivity|]. split; [now apply lang_number|].
  split; [now apply lang_spaces|now apply lang_unit].
Qed.

Lemma pattern_complete s n :
  area_at_start s n -> rmatch pattern s [] <> [].
Proof.
  intros (ws & w & post & -> & Hn & Hws & Hw).
  assert (L : Lang pattern (n ++ ws ++ w)).
  { unfold pattern. constructor; [constructor; now apply lang_number_intro|].
    constructor; [now apply lang_spaces|constructor; now apply lang_unit]. }
  destruct (rmatch_complete L post []) as (caps & Hin).
  rewrite <- !app_assoc in Hin. intros E. rewrite E in Hin. contradiction.
Qed.

End AreaFacts.

Section AreaUnique.
Context `{CPython}.
Hypothesis apart : unicode_apart.

Lemma span_digits_app d r :
  all_digits d ->
  match r with [] => True | x :: _ => isdecimal x = false end ->
  span_digits (d ++ r) = (d, r).
Proof.
  induction 1 as [|c d Hc _ IH]; intros Hr; simpl.
  - destruct r as [|x r]; simpl; [reflexivity|now rewrite Hr].
  - rewrite Hc, (IH Hr). reflexivity.
Qed.

Lemma unit_nonempty w :
  is_unit w ->
  exists x w', w = x :: w' /\
    (lit_ignorecase 1084%N x = true \/ lit_ignorecase 1082%N x = true).
Proof.
  intros (token & Hin & Hw). unfold unit_tokens in Hin.
  destruct Hin as [<-|[<-|[<-|[<-|[]]]]];
    inversion Hw as [|p x t w' Hx _]; subst; exists x, w'; auto.
Qed.

(** After the number comes a character that is no digit and no
    separator. *)
Lemma after_number ws w post :
  all_space ws -> is_unit w ->
  exists x rest, ws ++ w ++ post = x :: rest
                 /\ isdecimal x = false /\ x <> 46%N /\ x <> 44%N.
Proof.
  intros Hws Hw. destruct ws as [|x ws].
  - destruct (unit_nonempty Hw) as (x & w' & -> & Hx).
    exists x, (w' ++ post). split; [reflexivity|].
    destruct (unit_start_apart apart x Hx) as (Hd & _ & H46 & H44). auto.
  - inversion Hws as [|? ? Hx _]; subst.
    exists x, (ws ++ w ++ post). split; [reflexivity|].
    destruct (sep_not_space apart) as [S46 S44].
    split; [|split; intros ->; congruence].
    destruct (isdecimal x) eqn:Hd; [|reflexivity].
    rewrite (digit_not_space apart x Hd) in Hx. discriminate.
Qed.

Lemma area_at_start_canonical s n :
  area_at_start s n -> n = leading_number s.
Proof.
  intros (ws & w & post & -> & Hn & Hws & Hw).
  destruct (after_number post Hws Hw) as (x & rest & E & Hx & H46 & H44).
  rewrite E. unfold leading_number.
  destruct Hn as (d1 & Hne & Hd1 & [->|(sep & d2 & Hsep & Hne2 & Hd2 & ->)]).
  - rewrite (span_digits_app (x :: rest) Hd1 Hx).
    destruct (N.eqb_spec x 46); [contradiction|].
    destruct (N.eqb_spec x 44); [contradiction|]. reflexivity.
  - replace ((d1 ++ sep :: d2) ++ x :: rest)
      with (d1 ++ sep :: (d2 ++ x :: rest)) by (now rewrite <- app_assoc).
    assert (Hs : isdecimal sep = false).
    { destruct (isdecimal sep) eqn:Hs; [|reflexivity].
      destruct (digit_not_sep apart sep Hs). destruct Hsep; contradiction. }
    rewrite (span_digits_app (sep :: d2 ++ x :: rest) Hd1 Hs).
    rewrite (span_digits_app (x :: rest) Hd2 Hx).
    destruct Hsep as [-> | ->]; reflexivity.
Qed.

Lemma area_at_start_unique s n n' :
  area_at_start s n -> area_at_start s n' -> n = n'.
Proof.
  intros Hn Hn'.
  rewrite (area_at_start_canonical Hn), (area_at_start_canonical Hn').
  reflexivity.
Qed.

Lemma extract_area_none text :
  (forall i n, ~ occurs_at text i n) -> extract_area text = [].
Proof.
  intros Hno. unfold extract_area.
  destruct (re_search pattern text) as [caps|] eqn:E; [|reflexivity].
  destruct (re_search_some _ _ E) as (i & rest & others & Hi & _ & Hat).
  destruct (@pattern_sound _ (skipn i text) rest caps (sep_uncased apart))
    as (n & _ & Hn).
  { rewrite Hat. now left. }
  exfalso. apply (Hno i n). now split.
Qed.

Lemma extract_area_first text i n :
  occurs_at text i n ->
  (forall j m, j < i -> ~ occurs_at text j m) ->
  extract_area text = n.
Proof.
  intros [Hi Hn] Hfirst. unfold extract_area.
  pose proof (pattern_complete Hn) as Hne.
  destruct (re_search pattern text) as [caps|] eqn:E.
  - destruct (re_search_some _ _ E) as (i' & rest & others & Hi' & Hbefore & Hat).
    destruct (@pattern_sound _ (skipn i' text) rest caps (sep_uncased apart))
      as (n' & Hg & Hn').
    { rewrite Hat. now left. }
    destruct (Nat.lt_trichotomy i' i) as [Hlt|[->|Hgt]].
    + exfalso. apply (Hfirst i' n' Hlt). now split.
    + rewrite Hg. now apply area_at_start_unique with (s := skipn i text).
    + exfalso. apply Hne. now apply Hbefore.
  - exfalso. apply Hne.
    now apply (proj1 (re_search_none pattern text) E).
Qed.

Lemma area_at_start_digit s n :
  area_at_start s n -> exists c s', s = c :: s' /\ isdecimal c = true.
Proof.
  intros (ws & w & post & -> & (d1 & Hne & Hd1 & Hn) & _).
  destruct d1 as [|c d1]; [contradiction|].
  inversion Hd1; subst.
  destruct Hn as [->|(sep & d2 & _ & _ & _ & ->)]; simpl; eauto.
Qed.

End AreaUnique.

(** The tables of [basic_runtime] keep digits, white space, separators and
    unit letters apart. *)
Lemma in_range_spec lo hi c :
  in_range lo hi c = true <-> (lo <= c <= hi)%N.
Proof.
  unfold in_range. rewrite andb_true_iff, !N.leb_le. reflexivity.
Qed.

Lemma basic_isspace_spec c :
  basic_isspace c = true ->
  (c <= 32 \/ c = 133 \/ c = 160 \/ 5760 <= c)%N.
Proof.
  unfold basic_isspace.
  rewrite !orb_true_iff, !in_range_spec, !N.eqb_eq. lia.
Qed.

Lemma basic_tolower_spec c p :
  (p = 1084 \/ p = 1082)%N -> basic_tolower c = p ->
  (c = 1084 \/ c = 1052 \/ c = 1082 \/ c = 1050)%N.
Proof.
  intros Hp. unfold basic_tolower.
  destruct (in_range 65 90 c || in_range 1040 1071 c) eqn:E1.
  - rewrite orb_true_iff, !in_range_spec in E1. lia.
  - rewrite orb_false_iff in E1. destruct E1 as [_ E1].
    destruct (N.eqb_spec c 1025); [lia|]. lia.
Qed.

Lemma basic_apart : @unicode_apart basic_runtime.
Proof.
  assert (Hlow : forall c p, (p = 1084 \/ p = 1082)%N ->
                             @lit_ignorecase basic_runtime p c = true ->
                             (c = 1084 \/ c = 1052 \/ c = 1082 \/ c = 1050)%N).
  { intros c p Hp. unfold lit_ignorecase.
    assert (Hi : @iscased basic_runtime p = true)
      by (destruct Hp as [-> | ->]; reflexivity).
    rewrite Hi.
    assert (Hf : Py_UNICODE_TOLOWER p :: ignorecase_fixes (Py_UNICODE_TOLOWER p)
                 = [p])
      by (destruct Hp as [-> | ->]; reflexivity).
    rewrite Hf. simpl. rewrite orb_false_r. intros E. apply N.eqb_eq in E.
    now apply basic_tolower_spec with (p := p). }
  assert (Hdig : forall c, @isdecimal basic_runtime c = true -> (48 <= c <= 57)%N).
  { intros c. unfold isdecimal. simpl.
    destruct (in_range 48 57 c) eqn:E; [|discriminate].
    intros _. now apply in_range_spec. }
  assert (Hnd : forall c, ~ (48 <= c <= 57)%N -> @isdecimal basic_runtime c = false).
  { intros c Hc. destruct (@isdecimal basic_runtime c) eqn:E; [|reflexivity].
    apply Hdig in E. contradiction. }
  assert (Hns : forall c, ~ (c <= 32 \/ c = 133 \/ c = 160 \/ 5760 <= c)%N ->
                          basic_isspace c = false).
  { intros c Hc. destruct (basic_isspace c) eqn:E; [|reflexivity].
    apply basic_isspace_spec in E. contradiction. }
  constructor.
  - intros c Hc. apply Hdig in Hc. apply Hns. lia.
  - intros c Hc. apply Hdig in Hc. lia.
  - split; reflexivity.
  - split; reflexivity.
  - intros c Hc.
    assert (Hc' : (c = 1084 \/ c = 1052 \/ c = 1082 \/ c = 1050)%N).
    { destruct Hc as [Hc|Hc]; eapply Hlow; try exact Hc; auto. }
    split; [apply Hnd; lia|]. split; [apply Hns; lia|]. lia.
Qed.

(** C2, as amended: let the text hold a number (an integer, or a decimal
    with a comma or a dot) followed by optional white space and a
    square-metre unit in any of its spellings and any letter case; then
    [extract_area] returns the number of the leftmost such place, as
    written; and it returns the empty string when the text has no such
    place. *)
Theorem extract_area_first_occurrence `{CPython} (apart : unicode_apart)
        (text : str) :
  (forall i n,
      occurs_at text i n ->
      (forall j m, j < i -> ~ occurs_at text j m) ->
      extract_area text = n)
  /\ ((forall i n, ~ occurs_at text i n) -> extract_area text = []).
Proof.
  split.
  - intros i n Hocc Hfirst. now apply extract_area_first with (i := i).
  - now apply extract_area_none.
Qed.

Lemma extract_area_first_occurrence_witness :
  extract_area (u "Цена 12,5 кв.м, кухня 9м²") = u "12,5".
Proof.
  apply (proj1 (extract_area_first_occurrence basic_apart
                  (u "Цена 12,5 кв.м, кухня 9м²")) 5 (u "12,5")).
  - split; [vm_compute; lia|].
    exists (u " "), (u "кв.м"), (u ", кухня 9м²").
    split; [reflexivity|]. split.
    + exists (u "12"). split; [discriminate|]. split; [repeat constructor|].
      right. exists 44%N, (u "5").
      split; [now right|]. split; [discriminate|].
      split; [repeat constructor|reflexivity].
    + split; [repeat constructor|].
      exists (u "кв.м"). split; [right; now left|repeat constructor].
  - intros j m Hj [_ Hm].
    destruct (area_at_start_digit Hm) as (c & s' & E & Hc).
    do 5 (destruct j as [|j]; [injection E as <- _; discriminate Hc|]).
    lia.
Defined.

(** C2 as the specification words it fails: this text has no number with a
    unit right after it, and the result is not the empty string. *)
Lemma extract_area_adjacent_counterexample :
  (forall i n, ~ adjacent_occurs_at (u "45 м²") i n)
  /\ extract_area (u "45 м²") = u "45".
Proof.
  split; [|reflexivity].
  intros i n [Hi (w & post & E & Hn & Hw)].
  assert (L : Lang (Seq number_re unit_re) (n ++ w)).
  { constructor; [now apply lang_number_intro|now apply lang_unit]. }
  destruct (rmatch_complete L post []) as (caps & Hin).
  rewrite <- app_assoc, <- E in Hin.
  do 6 (destruct i as [|i]; [vm_compute in Hin; exact Hin|]).
  vm_compute in Hi. lia.
Qed.

(** C10: white space between the number and the unit does not prevent the
    match.  A text whose first digit starts a number that is followed by
    any run of white space and a unit yields that number; so does the
    specification's example. *)
Theorem extract_area_allows_whitespace `{CPython} (apart : unicode_apart)
        (pre n ws w post : str) :
  Forall (fun c => isdecimal c = false) pre ->
  is_number n -> all_space ws -> is_unit w ->
  extract_area (pre ++ n ++ ws ++ w ++ post) = n.
Proof.
  intros Hpre Hn Hws Hw.
  apply (extract_area_first apart) with (i := length pre).
  - split; [rewrite length_app; lia|].
    rewrite skipn_app, Nat.sub_diag, skipn_all. simpl.
    now exists ws, w, post.
  - intros j m Hj [_ Hm].
    destruct (area_at_start_digit Hm) as (c & s' & E & Hc).
    rewrite skipn_app in E.
    replace (j - length pre) with 0 in E by lia. simpl in E.
    assert (Hin : In c pre).
    { destruct (skipn j pre) as [|c' r] eqn:Es.
      - apply (f_equal (@length _)) in Es. rewrite length_skipn in Es.
        simpl in Es. lia.
      - simpl in E. injection E as -> _.
        rewrite <- (firstn_skipn j pre), Es.
        apply in_or_app. right. now left. }
    rewrite Forall_forall in Hpre. rewrite (Hpre c Hin) in Hc. discriminate.
Qed.

Lemma extract_area_allows_whitespace_witness :
  extract_area (u "Квартира, 45 м²") = u "45".
Proof.
  apply (@extract_area_allows_whitespace basic_runtime basic_apart
           (u "Квартира, ") (u "45") (u " ") (u "м²") []).
  - repeat constructor.
  - exists (u "45"). split; [discriminate|]. split; [repeat constructor|now left].
  - repeat constructor.
  - exists (u "м²"). split; [now left|repeat constructor].
Defined.

(** ** Pagination *)

Lemma str_eqb_eq a b : str_eqb a b = true -> a = b.
Proof.
  revert b. induction a as [|x a IH]; intros [|y b]; simpl;
    try discriminate; [reflexivity|].
  intros E. apply andb_true_iff in E. destruct E as [Exy E].
  apply N.eqb_eq in Exy. subst y. now rewrite (IH b E).
Qed.

Section UrlFacts.
Context `{CPython}.

Lemma dict_add_nonempty k v d :
  Forall (fun kv => snd kv <> []) d ->
  Forall (fun kv => snd kv <> []) (dict_add k v d).
Proof.
  induction 1 as [|[k' vs] d Hk Hd IH]; simpl.
  - constructor; [discriminate|constructor].
  - destruct (str_eqb k' k).
    + constructor; [|assumption]. simpl. intros E.
      apply (f_equal (@length _)) in E. rewrite length_app in E.
      simpl in E. lia.
    + constructor; [exact Hk|exact IH].
Qed.

(** Every key of [parse_qs] has at least one value. *)
Lemma parse_qs_nonempty qs : Forall (fun kv => snd kv <> []) (parse_qs qs).
Proof.
  unfold parse_qs.
  assert (G : forall l d, Forall (fun kv : str * list str => snd kv <> []) d ->
              Forall (fun kv => snd kv <> [])
                     (fold_left (fun d nv => dict_add (fst nv) (snd nv) d) l d)).
  { induction l as [|nv l IH]; intros d Hd; simpl; [assumption|].
    apply IH. now apply dict_add_nonempty. }
  apply G. constructor.
Qed.

Lemma dict_get_in k d vs :
  dict_get k d = Some vs -> In (k, vs) d.
Proof.
  induction d as [|[k' v] d IH]; simpl; [discriminate|].
  destruct (str_eqb k' k) eqn:E.
  - apply str_eqb_eq in E. subst k'. intros [= ->]. now left.
  - intros Hd. right. auto.
Qed.

Lemma parse_qs_get k qs vs :
  dict_get k (parse_qs qs) = Some vs -> exists v vs', vs = v :: vs'.
Proof.
  intros Hg. apply dict_get_in in Hg.
  pose proof (parse_qs_nonempty qs) as Hall.
  rewrite Forall_forall in Hall. specialize (Hall _ Hg). simpl in Hall.
  destruct vs as [|v vs']; [contradiction|eauto].
Qed.

End UrlFacts.

(** C1, as amended: when [urlparse] accepts the current URL and its query
    has no [p] parameter with a value, the result is [base_url?p=2]; when
    the first value of [p] parses as an integer [k] and [k+1] is within the
    interpreter's digit limit, the result is [base_url?p=(k+1)], whatever
    else the query holds; when the first value of [p] does not parse as an
    integer, when [k+1] is beyond the digit limit, or when [urlparse]
    refuses the URL, the result is the current URL unchanged. *)
Theorem get_next_page_url_cases `{CPython} (base current : str) :
  match urlparse current with
  | Raise _ => get_next_page_url base current = current
  | Ok parts =>
    match dict_get (u "p") (parse_qs (query parts)) with
    | None => get_next_page_url base current = base ++ u "?p=2"
    | Some values =>
      exists v others, values = v :: others /\
        match int_of_str v with
        | Raise _ => get_next_page_url base current = current
        | Ok k =>
          match str_of_int (k + 1) with
          | Ok digits =>
            get_next_page_url base current = base ++ u "?p=" ++ digits
          | Raise _ => get_next_page_url base current = current
          end
        end
    end
  end.
Proof.
  unfold get_next_page_url, next_page_url.
  destruct (urlparse current) as [parts|e]; simpl; [|reflexivity].
  destruct (dict_get (u "p") (parse_qs (query parts))) as [values|] eqn:Hp.
  - destruct (parse_qs_get _ _ Hp) as (v & others & ->).
    exists v, others. split; [reflexivity|].
    destruct (int_of_str v) as [k|e]; simpl; [|reflexivity].
    destruct (str_of_int (k + 1)); reflexivity.
  - reflexivity.
Qed.

(** C1 as the specification words it fails: a [p] that does not parse as an
    integer does not count as page 1; the URL comes back unchanged. *)
Lemma get_next_page_url_unparsable_counterexample :
  let base := u "https://www.avito.ru/adygeya/kvartiry/prodam" in
  let current := u "https://www.avito.ru/adygeya/kvartiry/prodam?p=abc" in
  (exists parts, urlparse current = Ok parts
     /\ dict_get (u "p") (parse_qs (query parts)) = Some [u "abc"])
  /\ int_of_str (u "abc") = Raise ValueError
  /\ get_next_page_url base current = current
  /\ get_next_page_url base current <> base ++ u "?p=2".
Proof.
  vm_compute.
  split; [eexists; split; reflexivity|].
  split; [reflexivity|]. split; [reflexivity|]. discriminate.
Qed.

(** ** The stateful methods *)

Section MonadFacts.
Context {D : Type} `{Env D}.
Local Open Scope monad_scope.
Local Abbreviation M := (@M D).

Lemma bind_returns {A B} (m : M A) (k : A -> M B) w a w' :
  m w = (Returns a, w') -> bind m k w = k a w'.
Proof. unfold bind. now intros ->. Qed.

(** A computation keeps a property of the state. *)
Definition keeps (I : state D -> Prop) {A} (m : M A) : Prop :=
  forall w, I w -> I (snd (m w)).

Lemma keeps_ret I {A} (a : A) : keeps I (ret a).
Proof. intros w Hw. exact Hw. Qed.

Lemma keeps_bind I {A B} (m : M A) (k : A -> M B) :
  keeps I m -> (forall a, keeps I (k a)) -> keeps I (bind m k).
Proof.
  intros Hm Hk w Hw. unfold bind. specialize (Hm w Hw).
  destruct (m w) as [[a|e] w']; simpl in *; [now apply Hk|assumption].
Qed.

(** The continuation only runs on what [m] returned. *)
Lemma keeps_bind_returned I {A B} (m : M A) (k : A -> M B) :
  keeps I m ->
  (forall a, (exists w w', m w = (Returns a, w')) -> keeps I (k a)) ->
  keeps I (bind m k).
Proof.
  intros Hm Hk w Hw. unfold bind. specialize (Hm w Hw).
  destruct (m w) as [[a|e] w'] eqn:E; simpl in *; [|assumption].
  apply Hk; [eauto|assumption].
Qed.

Lemma keeps_try I {A} (body : M A) (handler : exn -> M A) :
  keeps I body -> (forall e, keeps I (handler e)) ->
  keeps I (try_except body handler).
Proof.
  intros Hb Hh w Hw. unfold try_except. specialize (Hb w Hw).
  destruct (body w) as [[a|e] w']; simpl in *; [assumption|].
  now apply Hh.
Qed.

Lemma keeps_raise I {A} e : keeps I (raise e : M A).
Proof. intros w Hw. exact Hw. Qed.

Lemma keeps_lift_exc I {A} (r : exc A) : keeps I (lift_exc r).
Proof. intros w Hw. exact Hw. Qed.

Lemma keeps_gets I {A} (f : state D -> A) : keeps I (gets f).
Proof. intros w Hw. exact Hw. Qed.

Lemma keeps_modify I (f : state D -> state D) :
  (forall w, I w -> I (f w)) -> keeps I (modify f).
Proof. intros Hf w Hw. now apply Hf. Qed.

(** A property that reads nothing but the fields [f] of the state. *)
Definition reads {X} (f : state D -> X) (I : state D -> Prop) : Prop :=
  forall w w', f w = f w' -> I w -> I w'.

Lemma keeps_call {X} (f : state D -> X) I {A} (op : D -> exc A * D) :
  reads f I -> (forall d w, f (set_env d w) = f w) -> keeps I (call op).
Proof.
  intros Hr Hf w Hw. unfold call. destruct (op (env w)) as [r d]. simpl.
  apply (Hr w); [symmetry; apply Hf|assumption].
Qed.

Lemma keeps_randint {X} (f : state D -> X) I a b :
  reads f I -> (forall d w, f (set_env d w) = f w) ->
  keeps I (random_randint a b).
Proof.
  intros Hr Hf w Hw. unfold random_randint.
  destruct (randint a b (env w)) as [r d]. simpl.
  apply (Hr w); [symmetry; apply Hf|assumption].
Qed.

Lemma keeps_emit {X} (f : state D -> X) I e :
  reads f I -> (forall t w, f (set_trace t w) = f w) -> keeps I (emit e).
Proof.
  intros Hr Hf w Hw. unfold emit, modify. simpl.
  apply (Hr w); [symmetry; apply Hf|assumption].
Qed.

End MonadFacts.

(** *** Invariants of a run

    [I] is a property of a view [f] of the state that the surroundings, the
    current URL and the session do not touch.  What is asked of it: the
    events of the trace, the append of an ad that satisfies [P] and the
    writing of a file keep it.  Then every method keeps it. *)

Definition output {D} (w : state D) : list ad_data * list xml_file :=
  (data w, files w).

Section Invariant.
Context `{CPython} {D : Type} `{Env D}.
Local Open Scope monad_scope.
Variable X : Type.
Variable f : state D -> X.
Variable I : state D -> Prop.
Variable P : ad_data -> Prop.
Hypothesis I_reads : reads f I.
Hypothesis f_env : forall d w, f (set_env d w) = f w.
Hypothesis f_url : forall v w, f (set_url v w) = f w.
Hypothesis f_session : forall v w, f (set_session v w) = f w.
Hypothesis I_emit : forall e, is_titles_query e = false -> keeps I (emit e).
Hypothesis I_titles : keeps I (emit (EvFindElements TITLES)).
Hypothesis P_price :
  forall ad k, int_of_attr (ad_price ad) = Ok k -> P ad.
Hypothesis I_append : forall ad, P ad -> keeps I (append_ad ad).
Hypothesis I_save : keeps I save_to_xml.

Ltac step :=
  first
    [ apply keeps_ret | apply keeps_raise
    | apply keeps_lift_exc | apply keeps_gets
    | apply (keeps_call (f := f)); [exact I_reads|exact f_env]
    | apply (keeps_randint (f := f)); [exact I_reads|exact f_env]
    | apply I_emit; reflexivity
    | apply keeps_try; [|intros ?]
    | apply keeps_bind; [|intros ?] ].

Ltac steps := repeat step.

Lemma keeps_sleep s : keeps I (sleep s).
Proof. unfold sleep. steps. Qed.

Lemma keeps_driver_open t : keeps I (driver_open t).
Proof. unfold driver_open. steps. Qed.

Lemma keeps_driver_find_elements l :
  locator_eqb l TITLES = false -> keeps I (driver_find_elements l).
Proof.
  intros Hl. unfold driver_find_elements.
  destruct l; try discriminate Hl; steps.
Qed.

Lemma keeps_find_titles : keeps I (driver_find_elements TITLES).
Proof.
  unfold driver_find_elements.
  apply keeps_bind; [exact I_titles|intros _; steps].
Qed.

Lemma keeps_driver_get_title : keeps I driver_get_title.
Proof. unfold driver_get_title. steps. Qed.

Lemma keeps_first_text els : keeps I (first_text els).
Proof. destruct els; simpl; steps. Qed.

Lemma keeps_get_url_body again :
  keeps I again -> keeps I (get_url_body again).
Proof.
  intros IH. unfold get_url_body, logger_info, logger_error.
  apply keeps_bind; [steps|intros _].
  apply keeps_try.
  - apply keeps_bind; [steps|intros target].
    apply keeps_bind; [apply keeps_driver_open|intros _].
    apply keeps_bind; [apply keeps_driver_get_title|intros title].
    destruct (str_contains access_restricted title).
    + apply keeps_bind; [steps|intros _].
      apply keeps_bind; [steps|intros pause].
      apply keeps_bind; [apply keeps_sleep|intros _]. exact IH.
    + steps.
  - intros e. destruct (is_timeout e);
      (apply keeps_bind; [steps|intros _]);
      (apply keeps_bind; [apply keeps_sleep|intros _]); exact IH.
Qed.

Lemma keeps_get_url fuel : keeps I (get_url fuel).
Proof.
  induction fuel as [|fuel IH]; cbn [get_url]; apply keeps_get_url_body;
    [apply keeps_raise|exact IH].
Qed.

Lemma keeps_parse_detail_body again t :
  keeps I again -> keeps I (parse_detail_body again t).
Proof.
  intros IH. unfold parse_detail_body, logger_info, logger_debug.
  apply keeps_try; [|intros e; steps].
  apply keeps_bind; [apply keeps_driver_open|intros _].
  apply keeps_bind; [apply keeps_sleep|intros _].
  apply keeps_bind; [apply keeps_driver_get_title|intros title].
  destruct (str_contains access_restricted title).
  - apply keeps_bind; [steps|intros _].
    apply keeps_bind; [steps|intros pause].
    apply keeps_bind; [apply keeps_sleep|intros _]. exact IH.
  - apply keeps_bind; [now apply keeps_driver_find_elements|intros des].
    apply keeps_bind; [apply keeps_first_text|intros date].
    apply keeps_bind; [now apply keeps_driver_find_elements|intros ges].
    apply keeps_bind; [apply keeps_first_text|intros geo]. steps.
Qed.

Lemma keeps_parse_detail fuel t : keeps I (parse_detail fuel t).
Proof.
  induction fuel as [|fuel IH]; cbn [parse_detail];
    apply keeps_parse_detail_body; [apply keeps_raise|exact IH].
Qed.

Lemma keeps_getitem {A} (l : list A) i : keeps I (getitem l i).
Proof. unfold getitem. destruct (nth_error l i); steps. Qed.

Lemma keeps_process_elements fuel i current_url ads :
  keeps I (process_elements fuel i current_url ads).
Proof.
  unfold process_elements, logger_debug.
  apply keeps_bind; [apply keeps_getitem|intros ad].
  apply keeps_bind; [steps|intros name_el].
  apply keeps_bind; [steps|intros name].
  apply keeps_bind; [steps|intros found].
  apply keeps_bind; [destruct found; steps|intros description].
  apply keeps_bind; [steps|intros url_el].
  apply keeps_bind; [steps|intros href].
  apply keeps_bind; [steps|intros price_el].
  apply keeps_bind; [steps|intros price].
  apply keeps_bind_returned; [steps|intros k (w & w' & Hk)].
  apply keeps_bind; [apply keeps_parse_detail|intros detail].
  apply keeps_bind.
  - apply I_append. unfold lift_exc in Hk.
    destruct (int_of_attr price) as [z|e] eqn:E; [|discriminate].
    now apply P_price with (k := z).
  - intros _. apply keeps_bind; [apply keeps_driver_open|intros _].
    apply keeps_sleep.
Qed.

Lemma keeps_process_ad fuel i current_url :
  keeps I (process_ad fuel i current_url).
Proof.
  unfold process_ad.
  apply keeps_bind; [apply keeps_find_titles|intros ads].
  apply keeps_process_elements.
Qed.

Lemma keeps_retry_ad retries fuel i current_url :
  keeps I (retry_ad retries fuel i current_url).
Proof.
  induction retries as [|retries IH]; simpl; [steps|].
  unfold logger_debug.
  apply keeps_bind.
  - apply keeps_try.
    + apply keeps_bind; [apply keeps_process_ad|intros _; steps].
    + intros e. destruct (is_stale e); [|steps].
      apply keeps_bind; [steps|intros _].
      apply keeps_bind; [apply keeps_sleep|intros _; steps].
  - intros [|]; [steps|exact IH].
Qed.

Lemma keeps_for_each indices (body : nat -> M unit) :
  (forall i, keeps I (body i)) -> keeps I (for_each indices body).
Proof.
  intros Hb. induction indices as [|i rest IH]; simpl; [steps|].
  apply keeps_bind; [apply Hb|intros _; exact IH].
Qed.

Lemma keeps_parse_page fuel : keeps I (parse_page fuel).
Proof.
  unfold parse_page, stop_requested, driver_get_current_url, logger_info.
  apply keeps_bind; [steps|intros stop].
  destruct stop; [steps|].
  apply keeps_bind; [steps|intros current_url].
  apply keeps_bind; [apply keeps_find_titles|intros ads].
  destruct ads as [|a ads]; [steps|].
  apply keeps_bind; [steps|intros _].
  apply keeps_for_each. intros i. apply keeps_retry_ad.
Qed.

Lemma keeps_open_next_btn : keeps I open_next_btn.
Proof.
  unfold open_next_btn, logger_info.
  apply keeps_bind.
  - apply keeps_modify. intros w. apply I_reads. symmetry. apply f_url.
  - intros _. apply keeps_bind; [steps|intros _].
    apply keeps_bind; [steps|intros t]. apply keeps_driver_open.
Qed.

Lemma keeps_save_remaining : keeps I save_remaining.
Proof.
  unfold save_remaining.
  apply keeps_bind; [steps|intros ads].
  destruct ads; [steps|apply I_save].
Qed.

Lemma keeps_paginator_loop fuel n : keeps I (paginator_loop fuel n).
Proof.
  induction n as [|n IH]; simpl; [steps|].
  unfold stop_requested, driver_execute_script, logger_debug.
  apply keeps_bind; [steps|intros stop].
  destruct stop; [steps|].
  apply keeps_bind.
  { apply keeps_try; [|intros e; steps].
    apply keeps_bind; [steps|intros _; apply keeps_sleep]. }
  intros _. apply keeps_bind; [apply keeps_parse_page|intros _].
  apply keeps_bind; [steps|intros pause].
  apply keeps_bind; [apply keeps_sleep|intros _].
  apply keeps_bind; [apply keeps_open_next_btn|intros _]. exact IH.
Qed.

Lemma keeps_paginator fuel : keeps I (paginator fuel).
Proof.
  unfold paginator, logger_info.
  apply keeps_bind; [steps|intros _].
  apply keeps_bind; [steps|intros n].
  apply keeps_bind; [apply keeps_paginator_loop|intros _].
  apply keeps_save_remaining.
Qed.

Lemma keeps_with_SB {A} (body : M A) : keeps I body -> keeps I (with_SB body).
Proof.
  intros Hb w Hw. unfold with_SB.
  assert (Hs : I (set_session true w))
    by (revert Hw; apply I_reads; symmetry; apply f_session).
  specialize (Hb _ Hs).
  destruct (body (set_session true w)) as [r w']; simpl in *.
  revert Hb. apply I_reads. symmetry. apply f_session.
Qed.

Lemma keeps_parse fuel : keeps I (parse fuel).
Proof.
  unfold parse, logger_info, logger_error.
  apply keeps_bind; [|intros _; steps].
  apply keeps_with_SB. apply keeps_try.
  - apply keeps_bind; [apply keeps_get_url|intros _; apply keeps_paginator].
  - intros e. apply keeps_bind; [steps|intros _; apply keeps_save_remaining].
Qed.

End Invariant.

(** *** The two writers of the output *)

Section WriterFacts.
Context `{CPython} {D : Type} `{Env D}.

Lemma save_to_xml_eq (w : state D) :
  save_to_xml w =
  match data w with
  | [] => (Returns tt, w)
  | _ =>
    let f := xml_of (data w) (region w) (strftime_now (env w)) in
    match write_file f (env w) with
    | Ok _ => (Returns tt, set_files (files w ++ [f]) w)
    | Raise e => (Raises e, w)
    end
  end.
Proof.
  unfold save_to_xml, bind, gets, tree_write, logger_info, ret.
  destruct (data w); [reflexivity|]. cbv zeta.
  destruct (write_file _ (env w)); reflexivity.
Qed.

Lemma append_ad_eq ad (w : state D) :
  append_ad ad w =
  if Nat.leb 2000 (length (data w ++ [ad]))
  then
    let f := xml_of (data w ++ [ad]) (region w) (strftime_now (env w)) in
    match write_file f (env w) with
    | Ok _ =>
      (Returns tt,
       set_data [] (set_files (files w ++ [f]) (set_data (data w ++ [ad]) w)))
    | Raise e => (Raises e, set_data (data w ++ [ad]) w)
    end
  else (Returns tt, set_data (data w ++ [ad]) w).
Proof.
  unfold append_ad, bind, modify, logger_info, ret, gets.
  cbn [data set_data].
  destruct (Nat.leb 2000 (length (data w ++ [ad]))); [|reflexivity].
  rewrite save_to_xml_eq. cbn [data set_data env region files]. cbv zeta.
  destruct (data w ++ [ad]) eqn:Ed; [destruct (data w); discriminate|].
  destruct (write_file _ (env w)); reflexivity.
Qed.

End WriterFacts.

(** *** The price of every record is an integer *)

Section PriceFacts.
Context `{CPython} {D : Type} `{Env D}.

Lemma price_texts_xml_of ads r t :
  price_texts (xml_of ads r t) = map ad_price ads.
Proof.
  unfold price_texts, xml_of. simpl.
  induction ads as [|ad ads IH]; simpl; [reflexivity|]. now rewrite IH.
Qed.

Lemma prices_reads : reads (@output D) prices_are_int.
Proof.
  intros w w' E. unfold output in E. injection E as Ed Ef.
  unfold prices_are_int. now rewrite Ed, Ef.
Qed.

Lemma prices_save : keeps prices_are_int save_to_xml.
Proof.
  intros w Hw. rewrite save_to_xml_eq.
  destruct (data w) as [|ad ads] eqn:E; cbv zeta; [exact Hw|].
  destruct (write_file _ (env w)); cbn [snd]; [|exact Hw].
  destruct Hw as [Hd Hf].
  split; cbn [data files set_files]; [assumption|].
  apply Forall_app. split; [assumption|].
  constructor; [|constructor].
  rewrite price_texts_xml_of, Forall_map. now rewrite <- E.
Qed.

Lemma prices_append ad :
  price_is_int (ad_price ad) = true -> keeps prices_are_int (append_ad ad).
Proof.
  intros Had w [Hd Hf]. rewrite append_ad_eq.
  assert (Hd1 : Forall (fun a => price_is_int (ad_price a) = true)
                       (data w ++ [ad])).
  { apply Forall_app. split; [assumption|now constructor]. }
  destruct (Nat.leb 2000 (length (data w ++ [ad]))); cbv zeta;
    [destruct (write_file _ (env w))|]; cbn [snd].
  - split; cbn [data files set_data set_files]; [constructor|].
    apply Forall_app. split; [assumption|].
    constructor; [|constructor].
    rewrite price_texts_xml_of, Forall_map. exact Hd1.
  - split; cbn [data files set_data]; assumption.
  - split; cbn [data files set_data]; assumption.
Qed.

Lemma prices_kept_by_parse_page fuel :
  keeps prices_are_int (parse_page fuel).
Proof.
  apply keeps_parse_page
    with (f := @output D) (P := fun ad => price_is_int (ad_price ad) = true);
    try reflexivity.
  - exact prices_reads.
  - intros e _. apply (keeps_emit (f := @output D)); [exact prices_reads|reflexivity].
  - apply (keeps_emit (f := @output D)); [exact prices_reads|reflexivity].
  - intros ad k Hk. unfold price_is_int. now rewrite Hk.
  - exact prices_append.
Qed.

Lemma prices_kept_by_parse fuel : keeps prices_are_int (parse fuel).
Proof.
  apply keeps_parse
    with (f := @output D) (P := fun ad => price_is_int (ad_price ad) = true);
    try reflexivity.
  - exact prices_reads.
  - intros e _. apply (keeps_emit (f := @output D)); [exact prices_reads|reflexivity].
  - apply (keeps_emit (f := @output D)); [exact prices_reads|reflexivity].
  - intros ad k Hk. unfold price_is_int. now rewrite Hk.
  - exact prices_append.
  - exact prices_save.
Qed.

End PriceFacts.

(** C3: the per-page collection keeps the buffer and the files free of
    records whose price does not parse as an integer, and so does a whole
    run from a fresh parser, however far it gets: no such record is ever
    appended or written. *)
Theorem price_always_integer `{CPython} {D : Type} `{Env D} (fuel : nat) :
  (forall w : state D,
      prices_are_int w -> prices_are_int (snd (parse_page fuel w)))
  /\ (forall target pages stop region0 (d : D),
         prices_are_int (snd (parse fuel (init target pages stop region0 d)))).
Proof.
  split.
  - apply prices_kept_by_parse_page.
  - intros. apply prices_kept_by_parse. split; constructor.
Qed.

(** *** The flush at 2000 records *)

Section ThresholdFacts.
Context `{CPython} {D : Type} `{Env D}.

Lemma below_reads : reads (@output D) below_threshold.
Proof.
  intros w w' E. unfold output in E. injection E as Ed _.
  unfold below_threshold. now rewrite Ed.
Qed.

Lemma below_after_append ad (w : state D) :
  writes_succeed -> below_threshold (snd (append_ad ad w)).
Proof.
  intros Hws. rewrite append_ad_eq. unfold below_threshold.
  destruct (Nat.leb 2000 (length (data w ++ [ad]))) eqn:E; cbv zeta.
  - rewrite Hws. cbn [snd data set_data length]. apply Nat.lt_0_succ.
  - cbn [snd data set_data]. now apply Nat.leb_gt in E.
Qed.

Lemma below_save : keeps below_threshold save_to_xml.
Proof.
  intros w Hw. rewrite save_to_xml_eq.
  destruct (data w) eqn:E; cbv zeta; [exact Hw|].
  destruct (write_file _ (env w)); exact Hw.
Qed.

Lemma below_kept_by_parse_page fuel :
  writes_succeed -> keeps below_threshold (parse_page fuel).
Proof.
  intros Hws.
  apply keeps_parse_page with (f := @output D) (P := fun _ => True);
    try reflexivity; auto.
  - exact below_reads.
  - intros e _. apply (keeps_emit (f := @output D)); [exact below_reads|reflexivity].
  - apply (keeps_emit (f := @output D)); [exact below_reads|reflexivity].
  - intros ad _ w _. now apply below_after_append.
Qed.

Lemma below_kept_by_parse fuel :
  writes_succeed -> keeps below_threshold (parse fuel).
Proof.
  intros Hws.
  apply keeps_parse with (f := @output D) (P := fun _ => True);
    try reflexivity; auto.
  - exact below_reads.
  - intros e _. apply (keeps_emit (f := @output D)); [exact below_reads|reflexivity].
  - apply (keeps_emit (f := @output D)); [exact below_reads|reflexivity].
  - intros ad _ w _. now apply below_after_append.
  - exact below_save.
Qed.

End ThresholdFacts.

(** C4, as amended.  An append that brings the buffer to 2000 records
    hands them to the writer at once.  When the write succeeds, one file
    holds them all and the buffer is empty.  When the write fails, the
    append raises the exception of the write and the buffer keeps all its
    records: it is not cleared.  Where every write succeeds, the buffer is
    below 2000 records after every append, and the buffer of a page
    collection that starts below 2000, or of a run from a fresh parser,
    never exceeds 2000. *)
Theorem buffer_flushed_at_2000 `{CPython} {D : Type} `{Env D} :
  (forall ad (w : state D),
      2000 <= length (data w) + 1 ->
      let f := xml_of (data w ++ [ad]) (region w) (strftime_now (env w)) in
      match write_file f (env w) with
      | Ok _ =>
        fst (append_ad ad w) = Returns tt
        /\ data (snd (append_ad ad w)) = []
        /\ files (snd (append_ad ad w)) = files w ++ [f]
      | Raise e =>
        fst (append_ad ad w) = Raises e
        /\ data (snd (append_ad ad w)) = data w ++ [ad]
        /\ files (snd (append_ad ad w)) = files w
      end)
  /\ (writes_succeed ->
      (forall ad (w : state D), length (data (snd (append_ad ad w))) < 2000)
      /\ (forall fuel (w : state D),
             length (data w) < 2000 ->
             length (data (snd (parse_page fuel w))) <= 2000)
      /\ (forall fuel target pages stop region0 (d : D),
             length (data (snd (parse fuel (init target pages stop region0 d))))
             <= 2000)).
Proof.
  split.
  - intros ad w Hlen. rewrite append_ad_eq.
    assert (E : Nat.leb 2000 (length (data w ++ [ad])) = true).
    { apply Nat.leb_le. rewrite length_app. cbn [length].
      now rewrite Nat.add_comm in Hlen |- *. }
    rewrite E. cbv zeta.
    destruct (write_file _ (env w)); repeat split.
  - intros Hws. split; [|split].
    + intros ad w. now apply below_after_append.
    + intros fuel w Hw. apply Nat.lt_le_incl.
      now apply below_kept_by_parse_page.
    + intros. apply Nat.lt_le_incl. apply below_kept_by_parse; [assumption|].
      unfold below_threshold. cbn [data init length]. apply Nat.lt_0_succ.
Qed.

Lemma buffer_flushed_at_2000_witness :
  length (data (snd (parse_page 1 (init avito_url 1 false None two_ads))))
  <= 2000.
Proof.
  apply (proj1 (proj2 (proj2 (@buffer_flushed_at_2000 basic_runtime script
                                scripted)
                             (fun _ _ => eq_refl)))).
  cbn [data init length]. lia.
Defined.

(** C4 as the specification words it fails: the write of the file fails (the
    region names a directory that is missing), the fault is taken for one of
    the ad, and the buffer, at 2000 records, is neither written nor cleared;
    the next ad brings it to 2001. *)
Lemma buffer_exceeds_2000_counterexample :
  let r := @parse_page basic_runtime script flat_directory 1 nearly_full in
  length (data nearly_full) = 1999
  /\ fst r = Returns tt
  /\ length (data (snd r)) = 2001
  /\ files (snd r) = [].
Proof. vm_compute. repeat split. Qed.

(** *** The retries of one ad *)

Section RetryFacts.
Context `{CPython} {D : Type} `{Env D}.
Local Open Scope monad_scope.

Lemma title_queries_emit e (w : state D) :
  title_queries (snd (emit e w))
  = title_queries w + (if is_titles_query e then 1 else 0).
Proof.
  unfold title_queries, emit, modify. simpl.
  rewrite filter_app, length_app. simpl.
  destruct (is_titles_query e); reflexivity.
Qed.

(** Nothing after the first statement of the [try] resolves the
    collection again. *)
Lemma process_elements_quiet fuel i current_url ads (w : state D) :
  title_queries (snd (process_elements fuel i current_url ads w))
  = title_queries w.
Proof.
  apply (@keeps_process_elements _ _ _ _ (@title_queries D)
           (fun w' => title_queries w' = title_queries w) (fun _ => True));
    auto.
  - intros w1 w2 E H1. now rewrite <- E.
  - intros e He w1 H1. rewrite title_queries_emit, He. lia.
  - intros ad _ w1 H1. rewrite append_ad_eq.
    destruct (Nat.leb 2000 (length (data w1 ++ [ad]))); cbv zeta;
      [destruct (write_file _ (env w1))|]; exact H1.
Qed.

(** Every attempt resolves the collection once, as its first step. *)
Lemma process_ad_queries fuel i current_url (w : state D) :
  title_queries (snd (process_ad fuel i current_url w))
  = title_queries w + 1.
Proof.
  unfold process_ad, driver_find_elements.
  unfold bind at 1. unfold bind at 1.
  pose proof (title_queries_emit (EvFindElements TITLES) w) as He.
  destruct (emit (EvFindElements TITLES) w) as [[[]|e] w1] eqn:E1;
    try discriminate E1.
  simpl in He. unfold call.
  destruct (drv_find_elements TITLES (env w1)) as [[ads|e] d]; simpl.
  - rewrite process_elements_quiet. exact He.
  - exact He.
Qed.

Lemma retry_ad_success n fuel i current_url (w w' : state D) :
  process_ad fuel i current_url w = (Returns tt, w') ->
  retry_ad (S n) fuel i current_url w = (Returns tt, w').
Proof.
  intros E. simpl. unfold bind, try_except. now rewrite E.
Qed.

Lemma retry_ad_other n fuel i current_url (w w' : state D) e :
  process_ad fuel i current_url w = (Raises e, w') ->
  is_stale e = false ->
  retry_ad (S n) fuel i current_url w = (Returns tt, w').
Proof.
  intros E He. simpl. unfold bind, try_except. now rewrite E, He.
Qed.

Lemma retry_ad_stale n fuel i current_url (w w' : state D) :
  process_ad fuel i current_url w
  = (Raises StaleElementReferenceException, w') ->
  retry_ad (S n) fuel i current_url w
  = retry_ad n fuel i current_url (set_trace (trace w' ++ [EvSleep 1]) w').
Proof.
  intros E. simpl. unfold bind, try_except. now rewrite E.
Qed.

Lemma retry_ad_no_raise n fuel i current_url (w : state D) e :
  fst (retry_ad n fuel i current_url w) <> Raises e.
Proof.
  revert w. induction n as [|n IH]; intros w; [discriminate|].
  destruct (process_ad fuel i current_url w) as [[[]|e'] w'] eqn:E.
  - rewrite (retry_ad_success n _ _ _ _ E). discriminate.
  - destruct e';
      try (rewrite (retry_ad_other n _ _ _ _ E eq_refl); discriminate).
    rewrite (retry_ad_stale n _ _ _ _ E). apply IH.
Qed.

Lemma retry_ad_queries n fuel i current_url (w : state D) :
  title_queries w + Nat.min 1 n
  <= title_queries (snd (retry_ad n fuel i current_url w))
  <= title_queries w + n.
Proof.
  revert w. induction n as [|n IH]; intros w; [simpl; lia|].
  replace (Nat.min 1 (S n)) with 1 by (destruct n; reflexivity).
  pose proof (process_ad_queries fuel i current_url w) as Hq.
  destruct (process_ad fuel i current_url w) as [[[]|e'] w'] eqn:E;
    cbn [snd] in Hq.
  - rewrite (retry_ad_success n _ _ _ _ E). cbn [snd]. lia.
  - destruct e';
      try (rewrite (retry_ad_other n _ _ _ _ E eq_refl); cbn [snd]; lia).
    rewrite (retry_ad_stale n _ _ _ _ E).
    specialize (IH (set_trace (trace w' ++ [EvSleep 1]) w')).
    assert (Ht : title_queries (set_trace (trace w' ++ [EvSleep 1]) w')
                 = title_queries w').
    { pose proof (title_queries_emit (EvSleep 1) w') as Ht.
      cbn [is_titles_query] in Ht. rewrite Nat.add_0_r in Ht. exact Ht. }
    lia.
Qed.

(** The loop over the ads never raises, and when it returns it has been
    through every index. *)
Lemma for_each_retry indices fuel current_url (w : state D) :
  let r := for_each indices (fun i => retry_ad 3 fuel i current_url) w in
  (forall e, fst r <> Raises e)
  /\ (fst r = Returns tt ->
      title_queries w + length indices <= title_queries (snd r)
      <= title_queries w + 3 * length indices).
Proof.
  cbv zeta. revert w. induction indices as [|i rest IH]; intros w.
  - cbn [for_each ret fst snd length]. split; [discriminate|lia].
  - cbn [for_each length]. unfold bind.
    pose proof (retry_ad_queries 3 fuel i current_url w) as Hq.
    pose proof (@retry_ad_no_raise 3 fuel i current_url w) as Hn.
    destruct (retry_ad 3 fuel i current_url w) as [[[]|e] w1];
      cbn [fst snd Nat.min] in Hq, Hn.
    + destruct (IH w1) as [IHn IHq]. split; [exact IHn|].
      intros Hr. specialize (IHq Hr). lia.
    + exfalso. now apply (Hn e).
Qed.

End RetryFacts.


(** *** The way back to the list page *)

Section ReturnFacts.
Context `{CPython} {D : Type} `{Env D}.
Local Open Scope monad_scope.

Lemma bind_returns_inv {A B} (m : M A) (k : A -> M B) (w w' : state D) b :
  bind m k w = (Returns b, w') ->
  exists a w1, m w = (Returns a, w1) /\ k a w1 = (Returns b, w').
Proof.
  unfold bind. destruct (m w) as [[a|e] w1]; try discriminate. eauto.
Qed.

Lemma driver_open_trace t (w w' : state D) r :
  driver_open t w = (r, w') -> trace w' = trace w ++ [EvOpen t].
Proof.
  unfold driver_open, bind, emit, modify, call. simpl.
  destruct (drv_open t (env w)) as [[[]|e] d]; intros [= _ <-]; reflexivity.
Qed.

(** An attempt that completes ends with the navigation back to the list
    page and a pause of one second. *)
Lemma process_ad_returns fuel i current_url (w w' : state D) :
  process_ad fuel i current_url w = (Returns tt, w') ->
  exists t, trace w' = t ++ [EvOpen (Some current_url); EvSleep 1].
Proof.
  unfold process_ad. intros E.
  apply bind_returns_inv in E. destruct E as (ads & w1 & _ & E).
  unfold process_elements in E.
  do 12 (apply bind_returns_inv in E;
         let a := fresh "a" in let s := fresh "s" in
         destruct E as (a & s & _ & E); cbv beta zeta in E).
  apply bind_returns_inv in E. destruct E as ([] & back & Eopen & E).
  apply driver_open_trace in Eopen.
  unfold sleep, emit, modify in E. injection E as <-.
  cbn [trace set_trace]. rewrite Eopen, <- app_assoc. eauto.
Qed.

End ReturnFacts.

(** C6, as amended: an attempt on an ad that completes (the record is
    appended and the list page reopened) ends with the navigation back to
    the saved list URL and a pause of one second, and the loop goes on to
    the next index.  When the last attempt of the budget hits a staleness
    fault, what follows the fault is the one-second pause alone: the driver
    is not sent back to the list URL. *)
Theorem return_to_list_after_ad `{CPython} {D : Type} `{Env D}
        (fuel i : nat) (current_url : str) (w : state D) :
  (forall w',
      process_ad fuel i current_url w = (Returns tt, w') ->
      (exists t, trace w' = t ++ [EvOpen (Some current_url); EvSleep 1])
      /\ forall n, retry_ad (S n) fuel i current_url w = (Returns tt, w'))
  /\ (forall w1,
         process_ad fuel i current_url w
         = (Raises StaleElementReferenceException, w1) ->
         retry_ad 1 fuel i current_url w
         = (Returns tt, set_trace (trace w1 ++ [EvSleep 1]) w1)).
Proof.
  split.
  - intros w' E. split; [exact (process_ad_returns fuel i current_url w E)|].
    intros n. exact (retry_ad_success n fuel i current_url w E).
  - intros w1 E. now rewrite (retry_ad_stale 0 _ _ _ _ E).
Qed.

(** C6 as the specification words it fails: three staleness faults on the
    first ad of a page use up the budget, and the trace has no navigation
    back to the list URL. *)
Lemma no_return_after_stale_counterexample :
  let stale := [RElements [0]; RRaise StaleElementReferenceException] in
  let list_url := u "https://www.avito.ru/adygeya/kvartiry/prodam" in
  let w := init list_url 1 false None (play (stale ++ stale ++ stale)) in
  let r := retry_ad 3 1 0 list_url w in
  fst r = Returns tt
  /\ trace (snd r) = [EvFindElements TITLES; EvSleep 1;
                      EvFindElements TITLES; EvSleep 1;
                      EvFindElements TITLES; EvSleep 1]
  /\ ~ In (EvOpen (Some list_url)) (trace (snd r)).
Proof.
  split; [reflexivity|]. split; [reflexivity|].
  vm_compute. intros Hin.
  repeat (destruct Hin as [Hin|Hin]; [discriminate Hin|]). exact Hin.
Qed.

(** *** The load of a list page *)

Section LoadFacts.
Context `{CPython} {D : Type} `{Env D}.
Local Open Scope monad_scope.
Local Abbreviation M := (@M D).

Lemma call_ok {A} (op : D -> exc A * D) (w : state D) a d :
  op (env w) = (Ok a, d) -> call op w = (Returns a, set_env d w).
Proof. unfold call. now intros ->. Qed.

Lemma driver_open_ok t (w : state D) d :
  drv_open t (env w) = (Ok tt, d) ->
  driver_open t w
  = (Returns tt, set_env d (set_trace (trace w ++ [EvOpen t]) w)).
Proof.
  intros E. unfold driver_open, bind, emit, modify, call.
  cbn [env set_trace]. now rewrite E.
Qed.

Lemma random_randint_eq a b (w : state D) p d :
  randint a b (env w) = (p, d) ->
  random_randint a b w = (Returns p, set_env d w).
Proof. unfold random_randint. now intros ->. Qed.

Lemma bind_raises {A B} (m : M A) (k : A -> M B) (w w' : state D) e :
  m w = (Raises e, w') -> bind m k w = (Raises e, w').
Proof. unfold bind. now intros ->. Qed.

Lemma call_raise {A} (op : D -> exc A * D) (w : state D) e d :
  op (env w) = (Raise e, d) -> call op w = (Raises e, set_env d w).
Proof. unfold call. now intros ->. Qed.

Lemma driver_open_raise t (w : state D) e d :
  drv_open t (env w) = (Raise e, d) ->
  driver_open t w
  = (Raises e, set_env d (set_trace (trace w ++ [EvOpen t]) w)).
Proof.
  intros E. unfold driver_open, bind, emit, modify, call.
  cbn [env set_trace]. now rewrite E.
Qed.

Lemma trace_set_env d (w : state D) : trace (set_env d w) = trace w.
Proof. reflexivity. Qed.

Lemma trace_set_trace t (w : state D) : trace (set_trace t w) = t.
Proof. reflexivity. Qed.

Lemma set_env_env d d' (w : state D) : set_env d (set_env d' w) = set_env d w.
Proof. reflexivity. Qed.

Lemma set_trace_env t d (w : state D) :
  set_trace t (set_env d w) = set_env d (set_trace t w).
Proof. reflexivity. Qed.

Lemma set_trace_trace t t' (w : state D) :
  set_trace t (set_trace t' w) = set_trace t w.
Proof. reflexivity. Qed.

Ltac tidy :=
  repeat (rewrite trace_set_env || rewrite trace_set_trace
          || rewrite set_trace_env || rewrite set_env_env
          || rewrite set_trace_trace).

(** The method at any depth is its body around the nested call. *)
Lemma get_url_eq fuel :
  get_url fuel
  = get_url_body match fuel with
                 | O => raise RecursionError
                 | S fuel' => get_url fuel'
                 end.
Proof. destruct fuel; reflexivity. Qed.

(** The handlers of [__get_url]: both sleep five seconds and load again. *)
Lemma get_url_handler (again : M unit) e (w : state D) :
  (if is_timeout e
   then logger_error ;; sleep 5 ;; again
   else logger_error ;; sleep 5 ;; again) w
  = again (set_trace (trace w ++ [EvSleep 5]) w).
Proof. destruct (is_timeout e); reflexivity. Qed.

Lemma get_url_body_served (again : M unit) (w : state D) d' :
  serves_content (url w) (env w) d' ->
  get_url_body again w
  = (Returns tt, set_env d' (set_trace (trace w ++ [EvOpen (Some (url w))]) w)).
Proof.
  intros (d1 & title & d2 & Eo & Et & Eb & Ew).
  unfold get_url_body, logger_info. unfold bind at 1. cbn [ret].
  unfold try_except.
  unfold bind at 1. cbn [gets].
  erewrite bind_returns by (apply driver_open_ok; exact Eo).
  unfold driver_get_title.
  erewrite bind_returns by (apply call_ok; exact Et).
  rewrite Eb.
  erewrite bind_returns by (apply call_ok; exact Ew).
  reflexivity.
Qed.

(** After a soft block the method is called from inside the [try]: what
    the nested call raises is caught there, and the handler calls again. *)
Lemma get_url_body_blocked (again : M unit) (w : state D) d' pause :
  soft_blocks (url w) (env w) d' pause ->
  get_url_body again w
  = match again (set_env d' (set_trace (trace w ++ [EvOpen (Some (url w));
                                                    EvSleep pause]) w)) with
    | (Raises e, w2) => again (set_trace (trace w2 ++ [EvSleep 5]) w2)
    | r => r
    end.
Proof.
  intros (d1 & title & d2 & Eo & Et & Eb & Er).
  unfold get_url_body, logger_info. unfold bind at 1. cbn [ret].
  unfold try_except.
  unfold bind at 1. cbn [gets].
  erewrite bind_returns by (apply driver_open_ok; exact Eo).
  unfold driver_get_title.
  erewrite bind_returns by (apply call_ok; exact Et).
  rewrite Eb.
  unfold bind at 1. cbn [ret].
  erewrite bind_returns by (apply random_randint_eq; exact Er).
  unfold bind at 1. unfold sleep at 1, emit at 1, modify at 1.
  replace (set_trace _ _)
    with (set_env d' (set_trace (trace w ++ [EvOpen (Some (url w)); EvSleep pause]) w))
    by (tidy; now rewrite <- app_assoc).
  destruct (again _) as [[[]|e] w2]; [reflexivity|].
  apply get_url_handler.
Qed.

(** After a fault the method is called from the handler, outside the
    [try]. *)
Lemma get_url_body_fault (again : M unit) (w : state D) d' e :
  load_fails (url w) (env w) d' e ->
  get_url_body again w
  = again (set_env d' (set_trace (trace w ++ [EvOpen (Some (url w));
                                              EvSleep 5]) w)).
Proof.
  intros Hf.
  unfold get_url_body, logger_info. unfold bind at 1. cbn [ret].
  unfold try_except. unfold bind at 1. cbn [gets].
  destruct Hf as [Eo|[(d1 & Eo & Et)|(d1 & title & d2 & Eo & Et & Eb & Ew)]].
  - erewrite bind_raises by (apply driver_open_raise; exact Eo).
    rewrite get_url_handler. tidy. now rewrite <- app_assoc.
  - erewrite bind_returns by (apply driver_open_ok; exact Eo).
    unfold driver_get_title.
    erewrite bind_raises by (apply call_raise; exact Et).
    rewrite get_url_handler. tidy. now rewrite <- app_assoc.
  - erewrite bind_returns by (apply driver_open_ok; exact Eo).
    unfold driver_get_title.
    erewrite bind_returns by (apply call_ok; exact Et).
    rewrite Eb.
    erewrite bind_raises by (apply call_raise; exact Ew).
    rewrite get_url_handler. tidy. now rewrite <- app_assoc.
Qed.

Lemma blocked_pauses target n (d d' : D) pauses :
  blocked_times target n d d' pauses ->
  length pauses = n /\ Forall (fun p => (10 <= p <= 20)%Z) pauses.
Proof.
  induction 1 as [|n d d1 d' p ps Hb _ [IHl IHf]]; [now split|].
  split; [simpl; now rewrite IHl|]. constructor; [|assumption].
  destruct Hb as (d0 & title & d2 & _ & _ & _ & Er).
  assert (Hr : (10 <= fst (randint 10 20 d2) <= 20)%Z)
    by (apply randint_range; lia).
  rewrite Er in Hr. exact Hr.
Qed.

Lemma load_trace_counts target pauses :
  length (filter is_navigation (load_trace target pauses))
  = length pauses + 1
  /\ sleeps_of (load_trace target pauses) = pauses.
Proof.
  unfold load_trace. induction pauses as [|p ps [IHn IHs]]; simpl.
  - now split.
  - split; [now rewrite IHn|now rewrite IHs].
Qed.

Lemma get_url_blocked_then_served n : forall fuel (w : state D) d1 d2 pauses,
  blocked_times (url w) n (env w) d1 pauses ->
  serves_content (url w) d1 d2 ->
  n < fuel ->
  get_url fuel w
  = (Returns tt,
     set_env d2 (set_trace (trace w ++ load_trace (url w) pauses) w)).
Proof.
  induction n as [|n IH]; intros fuel w d1 d2 pauses Hb Hs Hf;
    destruct fuel as [|fuel]; try lia; cbn [get_url].
  - inversion Hb; subst. erewrite get_url_body_served by exact Hs.
    reflexivity.
  - inversion Hb as [|n' d0 dm d' p ps Hblock Hrest]; subst.
    erewrite get_url_body_blocked by exact Hblock.
    erewrite IH; [| exact Hrest | exact Hs | lia].
    f_equal. tidy. unfold load_trace. cbn [flat_map app].
    now rewrite <- app_assoc.
Qed.

End LoadFacts.

(** C8: let the driver show the access-restricted page on the first [n]
    navigations to the current URL and the listing on the next one.  With
    fuel for more than [n] retries the load returns normally; it has
    navigated [n + 1] times, each time to the same URL, and slept [n] times,
    once after each blocked navigation, each time for a number of seconds
    drawn from 10 to 20.  For [n = 2]: three navigations and exactly two
    sleeps. *)
Theorem get_url_retries_soft_block `{CPython} {D : Type} `{Env D}
        (n fuel : nat) (w : state D) (d1 d2 : D) (pauses : list Z) :
  blocked_times (url w) n (env w) d1 pauses ->
  serves_content (url w) d1 d2 ->
  n < fuel ->
  get_url fuel w
  = (Returns tt, set_env d2 (set_trace (trace w ++ load_trace (url w) pauses) w))
  /\ length (filter is_navigation (load_trace (url w) pauses)) = n + 1
  /\ sleeps_of (load_trace (url w) pauses) = pauses
  /\ length pauses = n
  /\ Forall (fun p => (10 <= p <= 20)%Z) pauses.
Proof.
  intros Hb Hs Hf.
  destruct (blocked_pauses Hb) as [Hl Hr].
  destruct (load_trace_counts (url w) pauses) as [Hn Hsl].
  split; [eapply get_url_blocked_then_served; eassumption|].
  split; [now rewrite Hn, Hl|]. auto.
Qed.

Lemma get_url_retries_soft_block_witness :
  let w := init avito_url 35 false (Some (u "adygeya")) blocked_twice in
  let d1 := after_randoms 2 (after_calls 4 blocked_twice) in
  let d2 := after_calls 3 d1 in
  get_url 3 w
  = (Returns tt, set_env d2 (set_trace (trace w ++ load_trace (url w) [13; 16]%Z) w))
  /\ length (filter is_navigation (load_trace (url w) [13; 16]%Z)) = 2 + 1
  /\ sleeps_of (load_trace (url w) [13; 16]%Z) = [13; 16]%Z
  /\ length [13; 16]%Z = 2
  /\ Forall (fun p => (10 <= p <= 20)%Z) [13; 16]%Z.
Proof.
  intros w d1 d2.
  apply (@get_url_retries_soft_block basic_runtime script scripted 2 3 w d1 d2).
  - apply blocked_S
      with (d1 := after_randoms 1 (after_calls 2 blocked_twice)).
    + exists (after_calls 1 blocked_twice),
        (u "Доступ ограничен: проблема с IP"), (after_calls 2 blocked_twice).
      repeat split; reflexivity.
    + apply blocked_S with (d1 := d1).
      * exists (after_randoms 1 (after_calls 3 blocked_twice)),
          (u "Доступ ограничен: проблема с IP"),
          (after_randoms 1 (after_calls 4 blocked_twice)).
        repeat split; reflexivity.
      * apply blocked_0.
  - exists (after_calls 1 d1), (u "Купить квартиру в Адыгее"), (after_calls 2 d1).
    repeat split; reflexivity.
  - lia.
Defined.

(** *** The stop signal and the end of a run *)

Section RunFacts.
Context `{CPython} {D : Type} `{Env D}.
Local Open Scope monad_scope.

(** [if self.data: self.__save_to_xml()] does what [__save_to_xml] does. *)
Lemma save_remaining_eq (w : state D) :
  save_remaining w =
  match data w with
  | [] => (Returns tt, w)
  | _ =>
    let f := xml_of (data w) (region w) (strftime_now (env w)) in
    match write_file f (env w) with
    | Ok _ => (Returns tt, set_files (files w ++ [f]) w)
    | Raise e => (Raises e, w)
    end
  end.
Proof.
  unfold save_remaining, bind, gets.
  destruct (data w) eqn:E; [reflexivity|].
  rewrite save_to_xml_eq. now rewrite E.
Qed.

Lemma save_remaining_returns (w w' : state D) :
  save_remaining w = (Returns tt, w') -> w' = flushed w.
Proof.
  rewrite save_remaining_eq. unfold flushed.
  destruct (data w); [now intros [= <-]|]. cbv zeta.
  destruct (write_file _ (env w)); [now intros [= <-]|discriminate].
Qed.

Lemma save_remaining_raises (w w' : state D) e :
  save_remaining w = (Raises e, w') -> w' = w.
Proof.
  rewrite save_remaining_eq.
  destruct (data w); [discriminate|]. cbv zeta.
  destruct (write_file _ (env w)); [discriminate|now intros [= _ <-]].
Qed.

Lemma parse_page_stopped fuel (w : state D) :
  stop_event w && stop_is_set (env w) = true ->
  parse_page fuel w = (Returns tt, w).
Proof.
  intros Hs. unfold parse_page, stop_requested, bind, gets.
  now rewrite Hs.
Qed.

Lemma paginator_loop_stopped fuel n (w : state D) :
  stop_event w && stop_is_set (env w) = true ->
  paginator_loop fuel n w = (Returns tt, w).
Proof.
  intros Hs. destruct n as [|n]; [reflexivity|].
  cbn [paginator_loop]. unfold stop_requested, bind, gets.
  now rewrite Hs.
Qed.

(** A scroll that fails is passed over. *)
Lemma scroll_returns (w : state D) :
  fst (try_except (driver_execute_script scroll_script ;; sleep 1)
                  (fun _ => logger_debug) w) = Returns tt.
Proof.
  unfold try_except.
  destruct ((driver_execute_script scroll_script ;; sleep 1) w)
    as [[[]|e0] w1]; reflexivity.
Qed.

(** An iteration of the page loop whose page is not collected: the pause is
    drawn and slept, the URL advanced and the next page opened. *)
Lemma paginator_loop_page_stopped fuel n (w w1 : state D) pause d :
  stop_event w && stop_is_set (env w) = false ->
  snd (try_except (driver_execute_script scroll_script ;; sleep 1)
                  (fun _ => logger_debug) w) = w1 ->
  stop_event w1 && stop_is_set (env w1) = true ->
  randint 2 4 (env w1) = (pause, d) ->
  let next := get_next_page_url (base_url w1) (url w1) in
  let w2 := set_trace (trace w1 ++ [EvSleep pause; EvOpen (Some next)])
                      (set_url next (set_env d w1)) in
  paginator_loop fuel (S n) w
  = match drv_open (Some next) d with
    | (Ok _, d') => paginator_loop fuel n (set_env d' w2)
    | (Raise e, d') => (Raises e, set_env d' w2)
    end.
Proof.
  intros Hhead Hscroll Hpage Hr. cbv zeta.
  cbn [paginator_loop]. unfold stop_requested.
  unfold bind at 1, gets at 1. rewrite Hhead.
  unfold bind at 1. pose proof (scroll_returns w) as Hs.
  destruct (try_except _ _ w) as [[[]|e0] w1']; [|discriminate].
  cbn [snd] in Hscroll. subst w1'.
  unfold bind at 1. rewrite (parse_page_stopped fuel w1 Hpage).
  unfold bind at 1, random_randint at 1. rewrite Hr.
  unfold bind at 1, sleep at 1, emit at 1, modify at 1.
  unfold bind at 1.
  unfold open_next_btn, driver_open, bind, modify, logger_info, ret, gets,
    emit, modify, call.
  cbn [env set_url set_trace set_env url base_url trace].
  destruct (drv_open _ d) as [[[]|e] d'].
  - f_equal. destruct w1; unfold set_env, set_trace, set_url; cbn.
    now rewrite <- app_assoc.
  - f_equal. destruct w1; unfold set_env, set_trace, set_url; cbn.
    now rewrite <- app_assoc.
Qed.

Lemma parse_eq fuel (w : state D) :
  parse fuel w =
  match (get_url fuel ;; paginator fuel) (set_session true w) with
  | (Returns _, w1) => (Returns tt, set_session false w1)
  | (Raises _, w1) =>
    match save_remaining w1 with
    | (Returns _, w2) => (Returns tt, set_session false w2)
    | (Raises e, w2) => (Raises e, set_session false w2)
    end
  end.
Proof.
  unfold parse, with_SB, try_except, logger_info, logger_error.
  unfold bind at 1.
  destruct ((get_url fuel ;; paginator fuel) (set_session true w))
    as [[[]|e] w1]; try reflexivity.
  unfold bind at 1. cbn [ret].
  destruct (save_remaining w1) as [[[]|e'] w2]; reflexivity.
Qed.

End RunFacts.

(** C5, as amended.  The stop signal is read at the head of every iteration
    of the page loop and at the start of every page collection.  When the
    read at the head finds it set, the loop ends at once, without a driver
    call or a sleep and without raising, and what remains is the flush: a
    buffer that is not empty goes to the writer, and when the write
    succeeds one file holds all of it, while a failed write raises.  When
    the read at the start of a page collection finds it set, the page is
    not collected, but the iteration goes on: it sleeps the pause drawn
    from 2 to 4, advances the URL and opens the next list page, which may
    raise; the loop ends at the next read at its head that finds the signal
    set.  (The ads of a page that is being collected when the signal is set
    are not interrupted.) *)
Theorem stop_observed_ends_run `{CPython} {D : Type} `{Env D}
        (fuel n : nat) (w : state D) :
  (stop_event w && stop_is_set (env w) = true ->
   paginator_loop fuel n w = (Returns tt, w)
   /\ parse_page fuel w = (Returns tt, w)
   /\ bind (paginator_loop fuel n) (fun _ => save_remaining) w
      = save_remaining w)
  /\ save_remaining w
     = match data w with
       | [] => (Returns tt, w)
       | _ =>
         let f := xml_of (data w) (region w) (strftime_now (env w)) in
         match write_file f (env w) with
         | Ok _ => (Returns tt, set_files (files w ++ [f]) w)
         | Raise e => (Raises e, w)
         end
       end
  /\ (forall (w1 : state D) pause d,
         stop_event w && stop_is_set (env w) = false ->
         snd (try_except (bind (driver_execute_script scroll_script)
                               (fun _ => sleep 1))
                         (fun _ => logger_debug) w) = w1 ->
         stop_event w1 && stop_is_set (env w1) = true ->
         randint 2 4 (env w1) = (pause, d) ->
         let next := get_next_page_url (base_url w1) (url w1) in
         let w2 := set_trace (trace w1 ++ [EvSleep pause; EvOpen (Some next)])
                             (set_url next (set_env d w1)) in
         (2 <= pause <= 4)%Z
         /\ title_queries w1 = title_queries w
         /\ paginator_loop fuel (S n) w
            = match drv_open (Some next) d with
              | (Ok _, d') => paginator_loop fuel n (set_env d' w2)
              | (Raise e, d') => (Raises e, set_env d' w2)
              end).
Proof.
  split; [|split].
  - intros Hs.
    split; [now apply paginator_loop_stopped|].
    split; [now apply parse_page_stopped|].
    unfold bind. now rewrite (paginator_loop_stopped fuel n w Hs).
  - apply save_remaining_eq.
  - intros w1 pause d Hhead Hscroll Hpage Hr. cbv zeta.
    split; [|split].
    + assert (Hp : (2 <= fst (randint 2 4 (env w1)) <= 4)%Z)
        by (apply randint_range; lia).
      now rewrite Hr in Hp.
    + subst w1. unfold try_except, driver_execute_script, sleep.
      unfold bind at 1. unfold bind at 1.
      unfold emit at 1, modify at 1, call at 1. cbn [env set_trace].
      destruct (drv_execute_script scroll_script (env w)) as [[[]|e] d0];
        unfold logger_debug, emit, modify, ret; cbn [snd];
        unfold title_queries; cbn [trace set_trace set_env];
        rewrite ?filter_app, ?length_app; cbn [filter is_titles_query length];
        lia.
    + now apply paginator_loop_page_stopped.
Qed.

Lemma stop_observed_ends_run_witness :
  let w := init avito_url 35 true None stop_during_scroll in
  let next := u "https://www.avito.ru/adygeya/kvartiry/prodam?p=2" in
  paginator_loop 1 35 w
  = (Returns tt,
     set_env (after_randoms 1 (after_calls 2 stop_during_scroll))
       (set_trace [EvScript; EvSleep 1; EvSleep 3; EvOpen (Some next)]
                  (set_url next w)))
  /\ stop_is_set (after_calls 1 stop_during_scroll) = true.
Proof.
  intros w next. split; [|vm_compute; reflexivity].
  set (w1 := set_env (after_calls 1 stop_during_scroll)
                     (set_trace [EvScript; EvSleep 1] w)).
  set (d := after_randoms 1 (after_calls 1 stop_during_scroll)).
  assert (Hhead : stop_event w && stop_is_set (env w) = false)
    by (vm_compute; reflexivity).
  assert (Hscroll :
            snd (try_except (bind (driver_execute_script scroll_script)
                                  (fun _ => sleep 1))
                            (fun _ => logger_debug) w) = w1)
    by (vm_compute; reflexivity).
  assert (Hpage : stop_event w1 && stop_is_set (env w1) = true)
    by (vm_compute; reflexivity).
  assert (Hr : randint 2 4 (env w1) = (3%Z, d))
    by (vm_compute; reflexivity).
  destruct (proj2 (proj2 (@stop_observed_ends_run basic_runtime script
                            scripted 1 34 w))
                  w1 3%Z d Hhead Hscroll Hpage Hr) as (_ & _ & E).
  rewrite E. vm_compute. reflexivity.
Defined.

(** C5 as the specification words it fails: the signal is set while the
    first driver call of a page is made, before any ad is read, and all
    three ads of the page are still collected. *)
Lemma stop_mid_page_counterexample :
  let w := init avito_url 1 true None (three_ads (Some 1)) in
  let w1 := snd (driver_get_current_url w) in
  stop_event w && stop_is_set (env w) = false
  /\ stop_event w1 && stop_is_set (env w1) = true
  /\ data w1 = []
  /\ fst (parse_page 1 w) = Returns tt
  /\ length (data (snd (parse_page 1 w))) = 3.
Proof. vm_compute. repeat split. Qed.




(** *** Worked examples *)

(** The scenario of the specification: a list page with two ads, the first
    with its area in the title, the second with its area in the
    description, and detail pages that give a date and an address.  After
    one collection pass the buffer holds two records, with areas 45 and 30
    and the fields of their detail pages. *)
Example two_ads_scenario :
  let r := parse_page 1 (init avito_url 1 false None two_ads) in
  fst r = Returns tt
  /\ map ad_area (data (snd r)) = [u "45"; u "30"]
  /\ map ad_price (data (snd r)) = [Some (u "3500000"); Some (u "2100000")]
  /\ map ad_url (data (snd r)) = [Some (u "https://x/1"); Some (u "https://x/2")]
  /\ map ad_date_public (data (snd r)) = [u "10 января"; u "10 января"]
  /\ map ad_address (data (snd r)) = [u "ул. Ленина"; u "ул. Ленина"]
  /\ files (snd r) = [].
Proof. vm_compute. repeat split. Qed.

(** Flushing an empty buffer writes no file and does not raise. *)
Lemma save_to_xml_empty `{CPython} {D : Type} `{Env D} (w : state D) :
  save_to_xml (set_data [] w) = (Returns tt, set_data [] w).
Proof. rewrite save_to_xml_eq. reflexivity. Qed.

(** ** [int] and [str] on decimal numerals *)

Section IntegerFacts.
Context `{CPython}.

Lemma digits_value_snoc ds c :
  digits_value (ds ++ [c]) = (digits_value ds * 10 + (c - 48))%N.
Proof. unfold digits_value. now rewrite fold_left_app. Qed.

Lemma decimal_digits_spec fuel : forall n,
  (n < 10 ^ N.of_nat fuel)%N -> fuel <> 0 ->
  ascii_digits (decimal_digits fuel n)
  /\ decimal_digits fuel n <> []
  /\ digits_value (decimal_digits fuel n) = n.
Proof.
  induction fuel as [|fuel IH]; intros n Hn Hf; [contradiction|].
  cbn [decimal_digits]. destruct (N.ltb_spec n 10) as [Hlt|Hge].
  - split; [constructor; [lia|constructor]|].
    split; [discriminate|]. unfold digits_value. cbn [fold_left]. lia.
  - assert (Hf' : fuel <> 0).
    { intros ->. change (10 ^ N.of_nat 1)%N with 10%N in Hn. lia. }
    assert (Hn' : (n / 10 < 10 ^ N.of_nat fuel)%N).
    { apply N.Div0.div_lt_upper_bound.
      rewrite Nat2N.inj_succ, N.pow_succ_r' in Hn. exact Hn. }
    destruct (IH _ Hn' Hf') as (Hd & Hne & Hv).
    split; [apply Forall_app; split; [assumption|]|].
    { constructor; [|constructor].
      assert (n mod 10 < 10)%N by (apply N.mod_lt; lia). cbv beta.
      generalize dependent (n mod 10)%N. clear. intros; lia. }
    split; [intros E; apply app_eq_nil in E; destruct E; contradiction|].
    rewrite digits_value_snoc, Hv.
    assert (n = 10 * (n / 10) + n mod 10)%N by (apply N.div_mod; lia).
    assert (n mod 10 < 10)%N by (apply N.mod_lt; lia).
    generalize dependent (n mod 10)%N. generalize dependent (n / 10)%N.
    clear. intros; lia.
Qed.

Lemma str_of_N_spec n :
  ascii_digits (str_of_N n) /\ str_of_N n <> []
  /\ digits_value (str_of_N n) = n.
Proof.
  unfold str_of_N. apply decimal_digits_spec; [|discriminate].
  rewrite Nat2N.inj_succ, N2Nat.id.
  destruct (N.eq_dec n 0) as [->|Hn]; [reflexivity|].
  destruct (N.log2_spec n) as [_ Hlt]; [lia|].
  eapply N.lt_le_trans; [exact Hlt|].
  apply N.pow_le_mono_l. lia.
Qed.

Lemma scan_digits_ascii ds :
  ascii_digits ds ->
  forall acc nd,
    scan_digits ds false acc nd
    = Some (fold_left (fun a c => (a * 10 + (c - 48))%N) ds acc,
            (nd + N.of_nat (length ds))%N, []).
Proof.
  induction 1 as [|c ds Hc _ IH]; intros acc nd; cbn [scan_digits].
  - cbn [fold_left length]. now rewrite N.add_0_r.
  - unfold digit_value.
    replace ((48 <=? c) && (c <=? 57))%N with true
      by (symmetry; apply andb_true_iff; split; apply N.leb_le; lia).
    rewrite IH. cbn [fold_left length].
    do 3 f_equal. lia.
Qed.

Lemma transform_numeral ds :
  Forall numeral_char ds -> transform_decimal_and_space_to_ascii ds = ds.
Proof.
  induction 1 as [|c ds Hc _ IH]; cbn [transform_decimal_and_space_to_ascii];
    [reflexivity|].
  replace (c <? 127)%N with true
    by (symmetry; apply N.ltb_lt; destruct Hc; lia).
  now rewrite IH.
Qed.

Lemma ascii_digits_numeral ds : ascii_digits ds -> Forall numeral_char ds.
Proof. apply Forall_impl. intros c Hc. now right. Qed.

(** [int] on an optional minus sign and ASCII digits. *)
Lemma int_of_str_digits (negative : bool) ds :
  ascii_digits ds -> ds <> [] ->
  int_of_str ((if negative then [45%N] else []) ++ ds)
  = if over_digit_limit (N.of_nat (length ds)) (N.of_nat (length ds))
    then Raise ValueError
    else Ok (if negative then (- Z.of_N (digits_value ds))%Z
             else Z.of_N (digits_value ds)).
Proof.
  intros Hd Hne. unfold int_of_str.
  rewrite transform_numeral.
  2:{ apply Forall_app. split; [|now apply ascii_digits_numeral].
      destruct negative; [constructor; [now left|constructor]|constructor]. }
  unfold long_from_string.
  destruct ds as [|c ds]; [contradiction|].
  assert (Hc : (48 <= c <= 57)%N) by (inversion Hd; assumption).
  assert (Hs : forall s : str, skip_spaces (c :: s) = c :: s).
  { intros s. cbn [skip_spaces]. unfold Py_ISSPACE.
    replace (c <=? 13)%N with false by (symmetry; apply N.leb_gt; lia).
    replace (c =? 32)%N with false by (symmetry; apply N.eqb_neq; lia).
    now rewrite andb_false_r. }
  assert (Hm : (c =? 45)%N = false) by (apply N.eqb_neq; lia).
  assert (Hp : (c =? 43)%N = false) by (apply N.eqb_neq; lia).
  assert (Hu : (c =? 95)%N = false) by (apply N.eqb_neq; lia).
  assert (Hl : (N.of_nat (length (c :: ds)) =? 0)%N = false)
    by (apply N.eqb_neq; cbn [length]; lia).
  destruct negative; cbv zeta; cbn [app].
  - change (skip_spaces (45%N :: c :: ds)) with (45%N :: c :: ds).
    cbn [startswith N.eqb Pos.eqb andb orb tl].
    rewrite Hu. cbn [andb].
    rewrite (scan_digits_ascii Hd), N.add_0_l, Hl.
    reflexivity.
  - rewrite !Hs. cbn [startswith]. rewrite Hm, Hp. cbn [andb orb].
    cbn [startswith]. rewrite Hu. cbn [andb].
    rewrite (scan_digits_ascii Hd), N.add_0_l, Hl.
    reflexivity.
Qed.

Lemma over_digit_limit_longer n :
  over_digit_limit n (n + 1) = false -> over_digit_limit n n = false.
Proof.
  unfold over_digit_limit. intros E.
  destruct (0 <? int_max_str_digits)%N; [|now rewrite andb_false_r].
  destruct (int_max_str_digits <? n)%N; [|now rewrite andb_false_r].
  rewrite !andb_true_r in *. apply N.ltb_ge. apply N.ltb_ge in E. lia.
Qed.

Lemma decimal_digits_length fuel : forall n k,
  (n < 10 ^ N.of_nat k)%N -> 0 < k -> length (decimal_digits fuel n) <= k.
Proof.
  induction fuel as [|fuel IH]; intros n k Hn Hk; cbn [decimal_digits];
    [cbn [length]; lia|].
  destruct (N.ltb_spec n 10) as [Hlt|Hge]; [cbn [length]; lia|].
  destruct k as [|[|k]]; [lia| |].
  - change (10 ^ N.of_nat 1)%N with 10%N in Hn. lia.
  - rewrite length_app. cbn [length].
    assert (Hn' : (n / 10 < 10 ^ N.of_nat (S k))%N).
    { apply N.Div0.div_lt_upper_bound.
      rewrite (Nat2N.inj_succ (S k)), N.pow_succ_r' in Hn. exact Hn. }
    specialize (IH _ (S k) Hn'). lia.
Qed.

(** Below the size at which [str] applies its digit limit. *)
Lemma str_of_int_small (n : N) :
  (n < 10 ^ 640)%N -> str_of_int (Z.of_N n) = Ok (str_of_N n).
Proof.
  intros Hn. unfold str_of_int. cbv zeta. rewrite Zabs2N.id.
  replace (Z.of_N n <? 0)%Z with false by (symmetry; apply Z.ltb_ge; lia).
  assert (Hl : length (str_of_N n) <= 640).
  { unfold str_of_N. apply decimal_digits_length; [|lia].
    now change (N.of_nat 640) with 640%N. }
  unfold over_digit_limit.
  replace (640 <? N.of_nat (length (str_of_N n)))%N with false
    by (symmetry; apply N.ltb_ge; lia).
  reflexivity.
Qed.

(** What [str] returns: an optional minus sign and the digits of the
    absolute value, no more of them than [int] reads. *)
Lemma str_of_int_inv (z : Z) (ds : str) :
  str_of_int z = Ok ds ->
  exists (negative : bool) (digits : str),
    ds = (if negative then [45%N] else []) ++ digits
    /\ ascii_digits digits /\ digits <> []
    /\ over_digit_limit (N.of_nat (length digits)) (N.of_nat (length digits))
       = false
    /\ z = if negative then (- Z.of_N (digits_value digits))%Z
           else Z.of_N (digits_value digits).
Proof.
  unfold str_of_int. cbv zeta.
  destruct (str_of_N_spec (Z.abs_N z)) as (Hd & Hne & Hv).
  destruct (Z.ltb_spec z 0) as [Hneg|Hpos];
    (destruct (over_digit_limit _ _) eqn:E; [discriminate|]);
    intros [= <-].
  - exists true, (str_of_N (Z.abs_N z)). apply over_digit_limit_longer in E.
    repeat split; try assumption. rewrite Hv, N2Z.inj_abs_N. lia.
  - exists false, (str_of_N (Z.abs_N z)).
    repeat split; try assumption. rewrite Hv, N2Z.inj_abs_N. lia.
Qed.

End IntegerFacts.

(** What [str] renders of an integer, [int] reads back: the page number
    that [get_next_page_url] formats into a URL is the one it parses from
    that URL on its next call. *)
Theorem int_of_str_of_int `{CPython} (z : Z) (ds : str) :
  str_of_int z = Ok ds -> int_of_str ds = Ok z.
Proof.
  intros Hz.
  destruct (str_of_int_inv _ Hz) as (negative & digits & -> & Hd & Hne & E & ->).
  rewrite (@int_of_str_digits _ negative _ Hd Hne), E.
  reflexivity.
Qed.

Lemma int_of_str_of_int_witness :
  str_of_int (-35) = Ok (u "-35") /\ int_of_str (u "-35") = Ok (-35)%Z.
Proof.
  split; [reflexivity|].
  apply (@int_of_str_of_int basic_runtime (-35)%Z (u "-35")). reflexivity.
Defined.

(** ** The URLs of the list pages *)

Section UrlShape.
Context `{CPython}.

Lemma char_in_false c s : char_in c s = false <-> ~ In c s.
Proof.
  unfold char_in. split.
  - intros E Hin. assert (X : existsb (N.eqb c) s = true).
    { apply existsb_exists. exists c. split; [assumption|apply N.eqb_refl]. }
    congruence.
  - intros Hn. destruct (existsb (N.eqb c) s) eqn:E; [|reflexivity].
    apply existsb_exists in E. destruct E as (x & Hx & Ex).
    apply N.eqb_eq in Ex. subst x. contradiction.
Qed.

Lemma partition_char_miss (sep : char) (a b : str) :
  ~ In sep a ->
  partition_char sep (a ++ b)
  = (a ++ fst (partition_char sep b), snd (partition_char sep b)).
Proof.
  induction a as [|c a IH]; intros Hn; cbn [app partition_char].
  - now destruct (partition_char sep b).
  - destruct (N.eqb_spec c sep) as [->|Hc]; [exfalso; apply Hn; now left|].
    rewrite IH by (intros Hin; apply Hn; now right). reflexivity.
Qed.

Lemma partition_char_none (sep : char) (a : str) :
  ~ In sep a -> partition_char sep a = (a, None).
Proof.
  intros Hn. rewrite <- (app_nil_r a) at 1.
  rewrite (@partition_char_miss sep a [] Hn). cbn [partition_char fst snd].
  now rewrite !app_nil_r.
Qed.

Lemma partition_char_hit (sep : char) (a x y b : str) :
  partition_char sep a = (x, Some y) ->
  partition_char sep (a ++ b) = (x, Some (y ++ b)) /\ a = x ++ sep :: y.
Proof.
  revert x. induction a as [|c a IH]; intros x; cbn [app partition_char];
    [discriminate|].
  destruct (N.eqb_spec c sep) as [->|Hc].
  - intros [= <- <-]. now split.
  - destruct (partition_char sep a) as [x' o] eqn:E. intros [= <- ->].
    destruct (IH x' eq_refl) as [E1 E2]. rewrite E1. split; [reflexivity|].
    now rewrite E2.
Qed.

Lemma partition_char_some_or_none (sep : char) (a : str) :
  (exists x y, partition_char sep a = (x, Some y))
  \/ (partition_char sep a = (a, None) /\ ~ In sep a).
Proof.
  induction a as [|c a IH]; cbn [partition_char].
  - right. split; [reflexivity|intros []].
  - destruct (N.eqb_spec c sep) as [->|Hc]; [left; eauto|].
    destruct IH as [(x & y & E)|[E Hn]]; rewrite E.
    + left. eauto.
    + right. split; [reflexivity|]. intros [Hin|Hin]; [now apply Hc|contradiction].
Qed.

Lemma lstrip_app (b t : str) (c : N) :
  (32 < c)%N ->
  lstrip_c0_or_space (b ++ c :: t) = lstrip_c0_or_space b ++ c :: t.
Proof.
  intros Hc. induction b as [|x b IH]; cbn [app lstrip_c0_or_space].
  - now replace (c <=? 32)%N with false by (symmetry; apply N.leb_gt; lia).
  - destruct (x <=? 32)%N; [exact IH|reflexivity].
Qed.

Lemma remove_unsafe_query (q : str) :
  Forall query_char q -> remove_unsafe q = q.
Proof.
  unfold remove_unsafe.
  induction 1 as [|c q (_ & _ & H9 & H10 & H13) _ IH]; cbn [filter];
    [reflexivity|].
  replace (c =? 9)%N with false by (symmetry; now apply N.eqb_neq).
  replace (c =? 13)%N with false by (symmetry; now apply N.eqb_neq).
  replace (c =? 10)%N with false by (symmetry; now apply N.eqb_neq).
  cbn [orb negb]. now rewrite IH.
Qed.

Lemma remove_unsafe_app (b q : str) :
  Forall query_char q ->
  remove_unsafe (b ++ 63%N :: q) = remove_unsafe b ++ 63%N :: q.
Proof.
  intros Hq. pose proof (remove_unsafe_query Hq) as Eq.
  unfold remove_unsafe in *. rewrite filter_app. cbn [filter].
  f_equal. change (negb ((63 =? 9)%N || (63 =? 13)%N || (63 =? 10)%N)) with true.
  cbv iota. f_equal. exact Eq.
Qed.

Lemma remove_unsafe_in c b : In c (remove_unsafe b) -> In c b.
Proof. unfold remove_unsafe. intros Hin. now apply filter_In in Hin. Qed.

Lemma lstrip_in c b : In c (lstrip_c0_or_space b) -> In c b.
Proof.
  induction b as [|x b IH]; cbn [lstrip_c0_or_space]; [auto|].
  destruct (x <=? 32)%N; [intros Hin; right; auto|auto].
Qed.

Lemma startswith_slashes (r q : str) :
  startswith (r ++ 63%N :: q) (u "//") = startswith r (u "//").
Proof.
  change (u "//") with [47%N; 47%N].
  assert (Hnil : forall s : str, startswith s [] = true) by (now intros []).
  destruct r as [|a [|b r]]; cbn [app startswith]; rewrite ?Hnil;
    try reflexivity.
Qed.

Lemma splitnetloc_app (r t : str) :
  ~ In 63%N r -> ~ In 35%N r ->
  splitnetloc (r ++ 63%N :: t)
  = (fst (splitnetloc r), snd (splitnetloc r) ++ 63%N :: t).
Proof.
  change (u "/?#") with [47%N; 63%N; 35%N].
  induction r as [|c r IH]; intros H63 H35; cbn [app splitnetloc].
  - reflexivity.
  - destruct (char_in c (u "/?#")) eqn:E; [reflexivity|].
    rewrite IH by (intros Hin; (apply H63 + apply H35); now right).
    now destruct (splitnetloc r).
Qed.

Lemma splitnetloc_in (c : char) (r : str) :
  In c (snd (splitnetloc r)) -> In c r.
Proof.
  induction r as [|x r IH]; cbn [splitnetloc]; [auto|].
  destruct (char_in x (u "/?#")); [auto|].
  destruct (splitnetloc r) as [a b]. cbn [snd] in *. intros Hin. right. auto.
Qed.

Lemma split_scheme_app (b q : str) :
  Forall query_char q ->
  split_scheme (b ++ 63%N :: q)
  = (fst (split_scheme b), snd (split_scheme b) ++ 63%N :: q).
Proof.
  intros Hq. unfold split_scheme.
  destruct (partition_char_some_or_none 58%N b) as [(x & y & E)|[E Hn]].
  - destruct (@partition_char_hit 58%N b x y (63%N :: q) E) as [E' _]. rewrite E, E'.
    destruct x as [|c before]; [reflexivity|].
    destruct (is_ascii_alpha c && forallb scheme_char (c :: before));
      reflexivity.
  - rewrite E, (@partition_char_miss 58%N b (63%N :: q) Hn).
    assert (Hn' : ~ In 58%N (63%N :: q)).
    { intros [Hin|Hin]; [discriminate|].
      rewrite Forall_forall in Hq. now destruct (Hq _ Hin) as (_ & H58 & _). }
    rewrite (@partition_char_none 58%N (63%N :: q) Hn'). cbn [fst snd].
    destruct b; reflexivity.
Qed.

Lemma split_scheme_in (c : char) (b : str) : In c (snd (split_scheme b)) -> In c b.
Proof.
  unfold split_scheme.
  destruct (partition_char_some_or_none 58%N b) as [(x & y & E)|[E Hn]];
    rewrite E.
  - destruct (@partition_char_hit 58%N b x y [] E) as [_ Eb].
    destruct x as [|a before]; [auto|].
    destruct (is_ascii_alpha a && forallb scheme_char (a :: before));
      cbn [snd]; [|auto].
    intros Hin. rewrite Eb. apply in_or_app. right. now right.
  - destruct b; auto.
Qed.

Lemma split_netloc_app (r q : str) :
  ~ In 63%N r -> ~ In 35%N r ->
  split_netloc (r ++ 63%N :: q)
  = match split_netloc r with
    | Ok (nl, rest) => Ok (nl, rest ++ 63%N :: q)
    | Raise e => Raise e
    end.
Proof.
  intros H63 H35. unfold split_netloc. rewrite startswith_slashes.
  destruct (startswith r (u "//")) eqn:Es; [|reflexivity].
  change (u "//") with [47%N; 47%N] in Es.
  destruct r as [|a [|b r]]; cbn [startswith] in Es;
    try discriminate Es; try (rewrite andb_false_r in Es; discriminate Es).
  cbn [app skipn].
  rewrite splitnetloc_app
    by (intros Hin; (apply H63 + apply H35); right; now right).
  destruct (splitnetloc r) as [nl rest]. cbn [fst snd].
  destruct (char_in 91%N nl && negb (char_in 93%N nl)
            || char_in 93%N nl && negb (char_in 91%N nl)); [reflexivity|].
  destruct (char_in 91%N nl && char_in 93%N nl && negb (check_bracketed nl));
    reflexivity.
Qed.

Lemma split_netloc_in (c : char) (r nl rest : str) :
  split_netloc r = Ok (nl, rest) -> In c rest -> In c r.
Proof.
  unfold split_netloc. destruct (startswith r (u "//")).
  - destruct (splitnetloc (skipn 2 r)) as [nl' rest'] eqn:E.
    destruct (char_in 91%N nl' && negb (char_in 93%N nl')
              || char_in 93%N nl' && negb (char_in 91%N nl'));
      [discriminate|].
    destruct (char_in 91%N nl' && char_in 93%N nl' && negb (check_bracketed nl'));
      [discriminate|].
    intros [= <- <-] Hin.
    assert (Hs : In c (skipn 2 r)).
    { apply splitnetloc_in. now rewrite E. }
    rewrite <- (firstn_skipn 2 r). apply in_or_app. now right.
  - now intros [= <- <-].
Qed.

Lemma split_path_plain (sch nl rest : str) :
  ~ In 63%N rest -> ~ In 35%N rest ->
  split_path sch nl rest
  = if checknetloc_ok nl
    then Ok {| scheme := sch; netloc := nl; path := rest;
               query := []; fragment := [] |}
    else Raise ValueError.
Proof.
  intros H63 H35. unfold split_path.
  rewrite (@partition_char_none 35%N rest H35), (@partition_char_none 63%N rest H63).
  reflexivity.
Qed.

Lemma split_path_query (sch nl rest q : str) :
  ~ In 63%N rest -> ~ In 35%N rest -> Forall query_char q ->
  split_path sch nl (rest ++ 63%N :: q)
  = if checknetloc_ok nl
    then Ok {| scheme := sch; netloc := nl; path := rest;
               query := q; fragment := [] |}
    else Raise ValueError.
Proof.
  intros H63 H35 Hq. unfold split_path.
  assert (Hq35 : ~ In 35%N (63%N :: q)).
  { intros [Hin|Hin]; [discriminate|].
    rewrite Forall_forall in Hq. now destruct (Hq _ Hin) as (Hc & _). }
  rewrite (@partition_char_miss 35%N rest (63%N :: q) H35),
    (@partition_char_none 35%N (63%N :: q) Hq35).
  cbn [fst snd].
  rewrite (@partition_char_miss 63%N rest (63%N :: q) H63).
  cbn [partition_char N.eqb Pos.eqb fst snd]. now rewrite app_nil_r.
Qed.

(** A query added to a URL that has none is the query of the result, and
    the other components are those of the URL. *)
Lemma urlsplit_add_query (base q : str) parts :
  ~ In 63%N base -> ~ In 35%N base -> Forall query_char q ->
  urlsplit base = Ok parts ->
  urlsplit (base ++ 63%N :: q)
  = Ok {| scheme := scheme parts; netloc := netloc parts;
          path := path parts; query := q; fragment := [] |}.
Proof.
  intros H63 H35 Hq. unfold urlsplit. cbv zeta.
  rewrite lstrip_app by lia.
  rewrite (@remove_unsafe_app (lstrip_c0_or_space base) q Hq).
  set (b := remove_unsafe (lstrip_c0_or_space base)).
  assert (Hb : forall c, In c b -> In c base).
  { intros c Hin. apply lstrip_in. now apply remove_unsafe_in. }
  rewrite (@split_scheme_app b q Hq).
  pose proof (fun c => @split_scheme_in c b) as Hr.
  destruct (split_scheme b) as [sch r]. cbn [fst snd] in *.
  assert (Hr63 : ~ In 63%N r) by (intros Hin; apply H63; auto).
  assert (Hr35 : ~ In 35%N r) by (intros Hin; apply H35; auto).
  rewrite (@split_netloc_app r q Hr63 Hr35).
  pose proof (fun c => @split_netloc_in c r) as Ht.
  destruct (split_netloc r) as [[nl rest]|e]; cbn [exc_bind fst snd];
    [|discriminate].
  assert (Ht63 : ~ In 63%N rest) by (intros Hin; apply Hr63; eauto).
  assert (Ht35 : ~ In 35%N rest) by (intros Hin; apply Hr35; eauto).
  rewrite (@split_path_plain sch nl rest Ht63 Ht35).
  rewrite (@split_path_query sch nl rest q Ht63 Ht35 Hq).
  destruct (checknetloc_ok nl); [|discriminate].
  now intros [= <-].
Qed.



Lemma urlsplit_no_query (base : str) parts :
  ~ In 63%N base -> ~ In 35%N base ->
  urlsplit base = Ok parts -> query parts = [].
Proof.
  intros H63 H35. unfold urlsplit. cbv zeta.
  set (b := remove_unsafe (lstrip_c0_or_space base)).
  assert (Hb : forall c, In c b -> In c base).
  { intros c Hin. apply lstrip_in. now apply remove_unsafe_in. }
  pose proof (fun c => @split_scheme_in c b) as Hr.
  destruct (split_scheme b) as [sch r]. cbn [fst snd] in *.
  pose proof (fun c => @split_netloc_in c r) as Ht.
  destruct (split_netloc r) as [[nl rest]|e]; cbn [exc_bind fst snd];
    [|discriminate].
  assert (Ht63 : ~ In 63%N rest) by (intros Hin; apply H63; eauto).
  assert (Ht35 : ~ In 35%N rest) by (intros Hin; apply H35; eauto).
  rewrite (@split_path_plain sch nl rest Ht63 Ht35).
  destruct (checknetloc_ok nl); [|discriminate].
  now intros [= <-].
Qed.

Lemma split_char_none (sep : char) (s : str) :
  ~ In sep s -> split_char sep s = [s].
Proof.
  induction s as [|c s IH]; intros Hn; cbn [split_char]; [reflexivity|].
  destruct (N.eqb_spec c sep) as [->|Hc]; [exfalso; apply Hn; now left|].
  rewrite IH by (intros Hin; apply Hn; now right). reflexivity.
Qed.

Lemma replace_char_none (old new : char) (s : str) :
  ~ In old s -> replace_char old new s = s.
Proof.
  unfold replace_char.
  induction s as [|c s IH]; intros Hn; cbn [map]; [reflexivity|].
  destruct (N.eqb_spec c old) as [->|Hc]; [exfalso; apply Hn; now left|].
  rewrite IH by (intros Hin; apply Hn; now right). reflexivity.
Qed.

Lemma unquote_plain (s : str) : ~ In 37%N s -> unquote s = s.
Proof.
  intros Hn. unfold unquote.
  now replace (char_in 37%N s) with false
    by (symmetry; now apply char_in_false).
Qed.

Lemma numeral_not_in (c : char) (ds : str) :
  Forall numeral_char ds -> (c < 45)%N -> ~ In c ds.
Proof.
  intros Hd Hc Hin. rewrite Forall_forall in Hd.
  destruct (Hd _ Hin) as [->|Hr]; lia.
Qed.

Lemma numeral_query (ds : str) :
  Forall numeral_char ds -> Forall query_char (u "p=" ++ ds).
Proof.
  intros Hd. change (u "p=") with [112%N; 61%N]. cbn [app].
  constructor; [repeat split; discriminate|].
  constructor; [repeat split; discriminate|].
  revert Hd. apply Forall_impl. intros c [->|Hc]; repeat split; lia.
Qed.

(** The query that [get_next_page_url] writes holds one parameter. *)
Lemma parse_qs_page (ds : str) :
  Forall numeral_char ds -> ds <> [] ->
  parse_qs (u "p=" ++ ds) = [(u "p", [ds])].
Proof.
  intros Hd Hne. unfold parse_qs, parse_qsl. cbv zeta.
  change (u "p=") with [112%N; 61%N]. cbn [app].
  match goal with
  | |- context [split_char ?c ?x] =>
    rewrite (@split_char_none c x)
      by (intros [E|[E|Hin]]; try discriminate E;
          revert Hin; apply numeral_not_in; [assumption|lia])
  end.
  cbn [flat_map app].
  match goal with
  | |- context [partition_char ?c ?x] =>
    change (partition_char c x) with ([112%N], Some ds)
  end.
  destruct ds as [|d ds]; [contradiction|].
  rewrite (@replace_char_none 43%N 32%N (d :: ds))
    by (apply numeral_not_in; [assumption|lia]).
  rewrite (@unquote_plain (d :: ds))
    by (apply numeral_not_in; [assumption|lia]).
  reflexivity.
Qed.

Lemma str_of_int_numeral (z : Z) (ds : str) :
  str_of_int z = Ok ds -> Forall numeral_char ds /\ ds <> [].
Proof.
  unfold str_of_int. cbv zeta.
  destruct (str_of_N_spec (Z.abs_N z)) as (Hd & Hne & _).
  apply ascii_digits_numeral in Hd.
  destruct (over_digit_limit _ _); [discriminate|].
  destruct (z <? 0)%Z; intros [= <-].
  - split; [constructor; [now left|assumption]|discriminate].
  - now split.
Qed.

Lemma next_page_url_first (base : str) parts :
  ~ In 63%N base -> ~ In 35%N base -> urlparse base = Ok parts ->
  next_page_url base base = Ok (base ++ u "?p=2").
Proof.
  intros H63 H35 Hb. unfold next_page_url. rewrite Hb. cbn [exc_bind].
  unfold urlparse in Hb. rewrite (@urlsplit_no_query _ _ H63 H35 Hb).
  change (parse_qs []) with (@nil (str * list str)).
  cbn [dict_get exc_bind]. reflexivity.
Qed.

Lemma next_page_url_step (base : str) (z : Z) (ds ds' : str) parts :
  ~ In 63%N base -> ~ In 35%N base -> urlparse base = Ok parts ->
  str_of_int z = Ok ds -> str_of_int (z + 1) = Ok ds' ->
  next_page_url base (base ++ u "?p=" ++ ds) = Ok (base ++ u "?p=" ++ ds').
Proof.
  intros H63 H35 Hb Hz Hz'. unfold next_page_url, urlparse in *.
  destruct (@str_of_int_numeral _ _ Hz) as [Hn Hne].
  change (u "?p=" ++ ds) with (63%N :: (u "p=" ++ ds)).
  rewrite (@urlsplit_add_query _ _ _ H63 H35 (@numeral_query _ Hn) Hb).
  cbn [exc_bind query]. rewrite (@parse_qs_page _ Hn Hne).
  change (dict_get (u "p") [(u "p", [ds])]) with (Some [ds]).
  destruct (@str_of_int_inv _ _ _ Hz)
    as (negative & digits & -> & Hd & Hd0 & E & ->).
  rewrite (@int_of_str_digits _ negative _ Hd Hd0), E. cbn [exc_bind].
  rewrite Hz'. reflexivity.
Qed.

End UrlShape.

(** The next page of the start URL is page 2, and the next page of page [z]
    is page [z + 1]: the URL that [get_next_page_url] returns is read back
    by its next call.  The base URL has no query and no fragment and is one
    that [urlparse] accepts; the numerals are within the digit limit of
    [str]. *)
Theorem next_page_after_page `{CPython} (base : str) (z : Z) (ds ds' : str)
        parts :
  ~ In 63%N base -> ~ In 35%N base -> urlparse base = Ok parts ->
  str_of_int z = Ok ds -> str_of_int (z + 1) = Ok ds' ->
  get_next_page_url base base = base ++ u "?p=2"
  /\ get_next_page_url base (base ++ u "?p=" ++ ds) = base ++ u "?p=" ++ ds'.
Proof.
  intros H63 H35 Hb Hz Hz'. unfold get_next_page_url. split.
  - now rewrite (@next_page_url_first _ _ _ H63 H35 Hb).
  - now rewrite (@next_page_url_step _ _ _ _ _ _ H63 H35 Hb Hz Hz').
Qed.

Lemma next_page_after_page_witness :
  let base := region_url (u "adygeya") in
  get_next_page_url base base = base ++ u "?p=2"
  /\ get_next_page_url base (base ++ u "?p=35") = base ++ u "?p=36".
Proof.
  eapply (@next_page_after_page basic_runtime (region_url (u "adygeya"))
            35%Z (u "35") (u "36")).
  - vm_compute. intuition discriminate.
  - vm_compute. intuition discriminate.
  - vm_compute. reflexivity.
  - reflexivity.
  - reflexivity.
Defined.

(** The list URLs of a run are numbered from 2: after [n + 1] calls of
    [open_next_btn] the parser is at [?p={n + 2}] of its base URL, which has
    no query and no fragment and is one that [urlparse] accepts. *)
Theorem page_url_numbered `{CPython} (base : str) (n : nat) parts :
  ~ In 63%N base -> ~ In 35%N base -> urlparse base = Ok parts ->
  (N.of_nat n + 2 < 10 ^ 640)%N ->
  page_url base (S n) = base ++ u "?p=" ++ str_of_N (N.of_nat n + 2).
Proof.
  intros H63 H35 Hb. induction n as [|n IH]; intros Hn.
  - cbn [page_url]. unfold get_next_page_url.
    now rewrite (@next_page_url_first _ _ _ H63 H35 Hb).
  - change (page_url base (S (S n)))
      with (get_next_page_url base (page_url base (S n))).
    rewrite IH by lia. unfold get_next_page_url.
    rewrite (@next_page_url_step _ base (Z.of_N (N.of_nat n + 2))
               (str_of_N (N.of_nat n + 2)) (str_of_N (N.of_nat (S n) + 2))
               parts H63 H35 Hb).
    + reflexivity.
    + apply str_of_int_small. lia.
    + replace (Z.of_N (N.of_nat n + 2) + 1)%Z
        with (Z.of_N (N.of_nat (S n) + 2)) by lia.
      apply str_of_int_small. exact Hn.
Qed.

Lemma page_url_numbered_witness :
  page_url (region_url (u "sevastopol")) 35
  = region_url (u "sevastopol") ++ u "?p=36".
Proof.
  eapply (@page_url_numbered basic_runtime (region_url (u "sevastopol")) 34).
  - vm_compute. intuition discriminate.
  - vm_compute. intuition discriminate.
  - vm_compute. reflexivity.
  - vm_compute. reflexivity.
Defined.

(** ** Properties of a whole run

    A family [I j] of properties of a view [f] of the state that the
    surroundings, the trace and the session do not touch; [j] counts the
    pages left behind.  What is asked of it: the append of a record that
    [__parse_page] builds and the writing of a file keep [I j], and
    [open_next_btn] leads from [I j] to [I (S j)]. *)

Section RunInvariant.
Context `{CPython} {D : Type} `{Env D}.
Local Open Scope monad_scope.
Local Abbreviation M := (@M D).

(** From a state in [P], the computation ends in a state in [Q], however
    it ends. *)
Definition leads (P : state D -> Prop) {A} (m : M A) (Q : state D -> Prop)
  : Prop :=
  forall w, P w -> Q (snd (m w)).

Lemma leads_bind (P Q R : state D -> Prop) {A B} (m : M A) (k : A -> M B) :
  leads P m Q -> (forall w, Q w -> R w) -> (forall a, leads Q (k a) R) ->
  leads P (bind m k) R.
Proof.
  intros Hm HQR Hk w Hw. unfold bind. specialize (Hm w Hw).
  destruct (m w) as [[a|e] w']; cbn [snd] in *; auto.
  now apply Hk.
Qed.

Variable X : Type.
Variable f : state D -> X.
Variable I : nat -> state D -> Prop.
Hypothesis I_reads : forall j, reads f (I j).
Hypothesis f_env : forall d w, f (set_env d w) = f w.
Hypothesis f_trace : forall t w, f (set_trace t w) = f w.
Hypothesis f_session : forall v w, f (set_session v w) = f w.
Hypothesis I_mono : forall j w, I j w -> I (S j) w.
Hypothesis I_append :
  forall j name description href price detail k,
    int_of_attr price = Ok k ->
    keeps (I j)
          (append_ad {| ad_name := name; ad_url := href; ad_price := price;
                        ad_area := area_of name description;
                        ad_date_public := date_public detail;
                        ad_address := address detail |}).
Hypothesis I_save : forall j, keeps (I j) save_to_xml.
Hypothesis I_next : forall j, leads (I j) open_next_btn (I (S j)).

Lemma run_emit j e : keeps (I j) (emit e).
Proof. apply (keeps_emit (f := f)); [apply I_reads|exact f_trace]. Qed.

Ltac step j :=
  first
    [ apply keeps_ret | apply keeps_raise
    | apply keeps_lift_exc | apply keeps_gets
    | apply (keeps_call (f := f)); [apply I_reads|exact f_env]
    | apply (keeps_randint (f := f)); [apply I_reads|exact f_env]
    | apply run_emit
    | apply keeps_try; [|intros ?]
    | apply keeps_bind; [|intros ?] ].

Ltac steps j := repeat step j.

Lemma run_driver_open j t : keeps (I j) (driver_open t).
Proof. unfold driver_open. steps j. Qed.

Lemma run_find_elements j l : keeps (I j) (driver_find_elements l).
Proof. unfold driver_find_elements. steps j. Qed.

Lemma run_get_url j fuel : keeps (I j) (get_url fuel).
Proof.
  apply (keeps_get_url (f := f)); [apply I_reads|exact f_env|].
  intros e _. apply run_emit.
Qed.

Lemma run_parse_detail j fuel t : keeps (I j) (parse_detail fuel t).
Proof.
  apply (keeps_parse_detail (f := f)); [apply I_reads|exact f_env|].
  intros e _. apply run_emit.
Qed.

Lemma run_process_elements j fuel i current_url ads :
  keeps (I j) (process_elements fuel i current_url ads).
Proof.
  unfold process_elements, logger_debug, sleep.
  apply keeps_bind; [apply keeps_getitem|intros ad].
  apply keeps_bind; [steps j|intros name_el].
  apply keeps_bind; [steps j|intros name].
  apply keeps_bind; [steps j|intros found].
  apply keeps_bind; [destruct found; steps j|intros description].
  apply keeps_bind; [steps j|intros url_el].
  apply keeps_bind; [steps j|intros href].
  apply keeps_bind; [steps j|intros price_el].
  apply keeps_bind; [steps j|intros price].
  apply keeps_bind_returned; [steps j|intros k (w & w' & Hk)].
  apply keeps_bind; [apply run_parse_detail|intros detail].
  apply keeps_bind.
  - unfold lift_exc in Hk.
    destruct (int_of_attr price) as [z|e] eqn:E; [|discriminate].
    exact (@I_append j name description href price detail z E).
  - intros _. apply keeps_bind; [apply run_driver_open|intros _].
    apply run_emit.
Qed.

Lemma run_retry_ad j retries fuel i current_url :
  keeps (I j) (retry_ad retries fuel i current_url).
Proof.
  induction retries as [|retries IH]; cbn [retry_ad]; [steps j|].
  unfold logger_debug, process_ad, sleep.
  apply keeps_bind.
  - apply keeps_try.
    + apply keeps_bind; [|intros _; steps j].
      apply keeps_bind; [apply run_find_elements|intros ads].
      apply run_process_elements.
    + intros e. destruct (is_stale e); steps j.
  - intros [|]; [steps j|exact IH].
Qed.

Lemma run_parse_page j fuel : keeps (I j) (parse_page fuel).
Proof.
  unfold parse_page, stop_requested, driver_get_current_url, logger_info.
  apply keeps_bind; [steps j|intros stop].
  destruct stop; [steps j|].
  apply keeps_bind; [steps j|intros current_url].
  apply keeps_bind; [apply run_find_elements|intros ads].
  destruct ads as [|a ads]; [steps j|].
  apply keeps_bind; [steps j|intros _].
  apply keeps_for_each. intros i. apply run_retry_ad.
Qed.

Lemma run_mono j n w : I j w -> I (j + n) w.
Proof.
  intros Hw. induction n as [|n IH]; [now rewrite Nat.add_0_r|].
  rewrite Nat.add_succ_r. now apply I_mono.
Qed.

Lemma run_paginator_loop fuel n :
  forall j, leads (I j) (paginator_loop fuel n) (I (j + n)).
Proof.
  induction n as [|n IH]; intros j; cbn [paginator_loop].
  - intros w Hw. now apply run_mono.
  - unfold stop_requested, driver_execute_script, logger_debug, sleep.
    apply leads_bind with (Q := I j);
      [apply keeps_gets|intros w; apply run_mono|intros stop].
    destruct stop; [intros w Hw; now apply run_mono|].
    apply leads_bind with (Q := I j);
      [steps j|intros w; apply run_mono|intros _].
    apply leads_bind with (Q := I j);
      [apply run_parse_page|intros w; apply run_mono|intros _].
    apply leads_bind with (Q := I j);
      [steps j|intros w; apply run_mono|intros pause].
    apply leads_bind with (Q := I j);
      [apply run_emit|intros w; apply run_mono|intros _].
    apply leads_bind with (Q := I (S j)); [apply I_next| |intros _].
    + intros w Hw. rewrite Nat.add_succ_r.
      now apply (@run_mono (S j) n).
    + rewrite Nat.add_succ_r. apply (IH (S j)).
Qed.

Lemma run_save_remaining j : keeps (I j) save_remaining.
Proof.
  unfold save_remaining.
  apply keeps_bind; [steps j|intros ads].
  destruct ads; [steps j|apply I_save].
Qed.

Lemma run_paginator fuel (w : state D) :
  I 0 w -> I (Z.to_nat (count w)) (snd (paginator fuel w)).
Proof.
  intros Hw. unfold paginator, logger_info.
  unfold bind at 1. cbn [ret]. unfold bind at 1. unfold gets at 1.
  apply (@leads_bind (I 0) (I (Z.to_nat (count w))) (I (Z.to_nat (count w)))
           _ _ (paginator_loop fuel (Z.to_nat (count w)))
           (fun _ => save_remaining)).
  - apply (@run_paginator_loop fuel (Z.to_nat (count w)) 0).
  - auto.
  - intros _. apply run_save_remaining.
  - exact Hw.
Qed.

Lemma get_url_count fuel (w : state D) :
  count (snd (get_url fuel w)) = count w.
Proof.
  apply (@keeps_get_url _ _ _ (@count D) (fun w' => count w' = count w));
    try reflexivity.
  - intros w1 w2 E Hw. now rewrite <- E.
  - intros e _. apply (keeps_emit (f := @count D)); [|reflexivity].
    intros w1 w2 E Hw. now rewrite <- E.
Qed.

Lemma run_parse fuel (w : state D) :
  I 0 w -> I (Z.to_nat (count w)) (snd (parse fuel w)).
Proof.
  intros Hw. rewrite parse_eq.
  assert (Hs : forall j v w', I j w' -> I j (set_session v w')).
  { intros j v w'. apply I_reads. symmetry. apply f_session. }
  assert (Hw0 : I 0 (set_session true w)) by now apply Hs.
  unfold bind.
  pose proof (run_get_url fuel Hw0) as H1.
  pose proof (get_url_count fuel (set_session true w)) as Hc.
  cbn [count set_session] in Hc.
  destruct (get_url fuel (set_session true w)) as [[[]|e] w1];
    cbn [snd] in *.
  - pose proof (run_paginator fuel H1) as H2. rewrite Hc in H2.
    destruct (paginator fuel w1) as [[[]|e] w2]; cbn [snd] in *; auto.
    pose proof (run_save_remaining H2) as H3.
    destruct (save_remaining w2) as [[[]|e'] w3]; cbn [snd] in *; auto.
  - pose proof (run_save_remaining H1) as H3.
    destruct (save_remaining w1) as [[[]|e'] w3]; cbn [snd] in *;
      apply Hs; now apply (@run_mono 0 (Z.to_nat (count w))).
Qed.

End RunInvariant.

(** *** The pages of a run *)

Section PageFacts.
Context `{CPython} {D : Type} `{Env D}.

Definition list_url (w : state D) : str * str := (base_url w, url w).

Lemma at_page_reads base j : reads list_url (at_page base j).
Proof.
  intros w w' E. unfold list_url in E. injection E as Eb Eu.
  unfold at_page. now rewrite Eb, Eu.
Qed.

Lemma at_page_append base j ad : keeps (at_page base j) (append_ad ad).
Proof.
  intros w Hw. rewrite append_ad_eq.
  destruct (Nat.leb 2000 (length (data w ++ [ad]))); cbv zeta;
    [destruct (write_file _ (env w))|]; exact Hw.
Qed.

Lemma at_page_save base j : keeps (at_page base j) save_to_xml.
Proof.
  intros w Hw. rewrite save_to_xml_eq.
  destruct (data w); cbv zeta; [|destruct (write_file _ (env w))]; exact Hw.
Qed.

Lemma open_next_btn_url (w : state D) :
  list_url (snd (open_next_btn w))
  = (base_url w, get_next_page_url (base_url w) (url w)).
Proof.
  unfold open_next_btn, driver_open, bind, modify, logger_info, ret, gets,
    emit, modify, call.
  cbn [env set_url set_trace url].
  destruct (drv_open _ _) as [[[]|e] d]; reflexivity.
Qed.

Lemma open_next_btn_output (w : state D) :
  (region w, output w)
  = (region (snd (open_next_btn w)), output (snd (open_next_btn w))).
Proof.
  unfold open_next_btn, driver_open, bind, modify, logger_info, ret, gets,
    emit, modify, call.
  cbn [env set_url set_trace url].
  destruct (drv_open _ _) as [[[]|e] d]; reflexivity.
Qed.

Lemma at_page_next base j :
  leads (at_page base j) open_next_btn (at_page base (S j)).
Proof.
  intros w [Hb (k & Hk & Hu)].
  pose proof (open_next_btn_url w) as E. unfold list_url in E.
  injection E as Eb Eu. unfold at_page. rewrite Eb, Eu, Hb, Hu.
  split; [reflexivity|]. exists (S k). split; [lia|reflexivity].
Qed.

End PageFacts.

(** A run visits the list pages in their order and goes no further than
    [count] pages past the first: whenever and however [parse] ends, the
    parser is on the start URL or on what [k] calls of
    [get_next_page_url] make of it, for some [k] up to [count], and its
    base URL is the one it was made for. *)
Theorem run_within_pages `{CPython} {D : Type} `{Env D}
        (fuel : nat) (base : str) (pages : Z) (stop : bool)
        (region0 : option str) (d : D) :
  let w := snd (parse fuel (init base pages stop region0 d)) in
  base_url w = base
  /\ exists k, k <= Z.to_nat pages /\ url w = page_url base k.
Proof.
  apply (@run_parse _ _ _ _ list_url (at_page base)).
  - apply at_page_reads.
  - reflexivity.
  - reflexivity.
  - reflexivity.
  - intros j w [Hb (k & Hk & Hu)]. split; [assumption|]. exists k. split; [lia|assumption].
  - intros. apply at_page_append.
  - apply at_page_save.
  - apply at_page_next.
  - split; [reflexivity|]. exists 0. split; [lia|reflexivity].
Qed.

(** *** The files of a run *)

Section FileFacts.
Context `{CPython} {D : Type} `{Env D}.

Definition region_output (w : state D)
  : option str * (list ad_data * list xml_file) :=
  (region w, output w).

Lemma files_reads r : reads region_output (files_well_formed r).
Proof.
  intros w w' E. unfold region_output, output in E. injection E as Er Ed Ef.
  unfold files_well_formed. now rewrite Er, Ed, Ef.
Qed.

Lemma files_append r ad :
  writes_succeed -> keeps (files_well_formed r) (append_ad ad).
Proof.
  intros Hws w (Hr & Hd & Hf). rewrite append_ad_eq.
  destruct (Nat.leb 2000 (length (data w ++ [ad]))) eqn:E; cbv zeta;
    [rewrite Hws|]; cbn [snd];
    unfold files_well_formed; cbn [region data files set_data set_files].
  - split; [assumption|]. split; [cbn [length]; lia|].
    apply Forall_app. split; [assumption|]. constructor; [|constructor].
    exists (strftime_now (env w)), (data w ++ [ad]). rewrite Hr.
    split; [reflexivity|]. rewrite length_app. cbn [length]. lia.
  - apply Nat.leb_gt in E. now repeat split.
Qed.

Lemma files_save r : keeps (files_well_formed r) save_to_xml.
Proof.
  intros w Hw. rewrite save_to_xml_eq.
  destruct (data w) as [|ad ads] eqn:E; cbv zeta; [exact Hw|].
  destruct (write_file _ (env w)); cbn [snd]; [|exact Hw].
  destruct Hw as (Hr & Hd & Hf).
  unfold files_well_formed; cbn [region data files set_files].
  split; [assumption|]. split; [assumption|].
  apply Forall_app. split; [assumption|]. constructor; [|constructor].
  exists (strftime_now (env w)), (ad :: ads). rewrite Hr.
  split; [reflexivity|]. rewrite E in Hd. cbn [length] in *. lia.
Qed.

Lemma files_kept_by_parse r fuel :
  writes_succeed -> keeps (files_well_formed r) (parse fuel).
Proof.
  intros Hws w Hw.
  apply (@run_parse _ _ _ _ region_output (fun _ => files_well_formed r));
    try reflexivity; auto.
  - intros _. apply files_reads.
  - intros. now apply files_append.
  - intros _. apply files_save.
  - intros _ w' Hw'. revert Hw'. apply files_reads.
    apply open_next_btn_output.
Qed.

End FileFacts.

(** Where every write succeeds, no file holds no record and none holds
    more than 2000: every file that a run from a fresh parser writes has
    the name and the records of [__save_to_xml] for the region of the
    parser, between 1 and 2000 of them, and the buffer stays below 2000
    records. *)
Theorem files_hold_1_to_2000 `{CPython} {D : Type} `{Env D}
        (fuel : nat) (target : str) (pages : Z) (stop : bool)
        (region0 : option str) (d : D) :
  writes_succeed ->
  let w := snd (parse fuel (init target pages stop region0 d)) in
  Forall (well_formed_file region0) (files w) /\ length (data w) < 2000.
Proof.
  intros Hws w.
  assert (Hw : files_well_formed region0 w).
  { apply files_kept_by_parse; [exact Hws|]. unfold files_well_formed.
    cbn [region data files init length]. repeat split; [lia|constructor]. }
  destruct Hw as (_ & Hd & Hf). split; assumption.
Qed.

Lemma files_hold_1_to_2000_witness :
  let w := snd (parse 2 (init avito_url 2 false (Some (u "adygeya"))
                              one_page_then_error)) in
  (Forall (well_formed_file (Some (u "adygeya"))) (files w)
   /\ length (data w) < 2000)
  /\ length (files w) = 1.
Proof.
  split; [|vm_compute; reflexivity].
  apply (@files_hold_1_to_2000 basic_runtime script scripted 2 avito_url 2
           false (Some (u "adygeya")) one_page_then_error).
  intros f d. reflexivity.
Defined.

(** *** The records of a run *)

Section RecordFacts.
Context `{CPython} {D : Type} `{Env D}.
Variable P : ad_data -> Prop.

Lemma records_reads : reads (@output D) (records_satisfy P).
Proof.
  intros w w' E. unfold output in E. injection E as Ed Ef.
  unfold records_satisfy. now rewrite Ed, Ef.
Qed.

Lemma records_written (w : state D) ads :
  Forall P ads -> records_satisfy P w ->
  Forall (fun f => exists ads,
              root f = El (u "real_estate") None (map ad_element ads)
              /\ Forall P ads)
         (files w ++ [xml_of ads (region w) (strftime_now (env w))]).
Proof.
  intros Ha [_ Hf]. apply Forall_app. split; [assumption|].
  constructor; [|constructor]. exists ads. now split.
Qed.

Lemma records_append ad :
  P ad -> keeps (records_satisfy P) (append_ad ad).
Proof.
  intros Had w Hw. rewrite append_ad_eq.
  assert (Ha : Forall P (data w ++ [ad])).
  { apply Forall_app. split; [apply Hw|now constructor]. }
  destruct (Nat.leb 2000 (length (data w ++ [ad]))); cbv zeta;
    [destruct (write_file _ (env w))|]; cbn [snd];
    unfold records_satisfy; cbn [data files set_data set_files].
  - split; [constructor|now apply records_written].
  - split; [assumption|apply Hw].
  - split; [assumption|apply Hw].
Qed.

Lemma records_save : keeps (records_satisfy P) save_to_xml.
Proof.
  intros w Hw. rewrite save_to_xml_eq.
  destruct (data w) as [|ad ads] eqn:E; cbv zeta; [assumption|].
  destruct (write_file _ (env w)); cbn [snd]; [|assumption].
  unfold records_satisfy. cbn [data files set_files].
  split; [apply Hw|].
  rewrite <- E. apply records_written; [apply Hw|assumption].
Qed.

End RecordFacts.

Lemma area_of_from_title `{CPython} name description href price date geo :
  area_from_title {| ad_name := name; ad_url := href; ad_price := price;
                     ad_area := area_of name description;
                     ad_date_public := date; ad_address := geo |}.
Proof.
  unfold area_from_title, area_of. cbn [ad_name ad_area].
  destruct (extract_area name) as [|c a]; split; try congruence.
  intros _. now exists description.
Qed.

(** The title comes first: in the buffer and in every file that a run from
    a fresh parser writes, the area of a record is the one that
    [__extract_area] finds in its title and, only when it finds none there,
    the one it finds in the description; and every file is a
    [real_estate] element of one [ad] element per record. *)
Theorem area_from_title_first `{CPython} {D : Type} `{Env D}
        (fuel : nat) (target : str) (pages : Z) (stop : bool)
        (region0 : option str) (d : D) :
  records_satisfy area_from_title
                  (snd (parse fuel (init target pages stop region0 d))).
Proof.
  apply (@run_parse _ _ _ _ (@output D)
                    (fun _ => records_satisfy area_from_title));
    try reflexivity; auto.
  - intros _. apply records_reads.
  - intros. apply records_append. apply area_of_from_title.
  - intros _. apply records_save.
  - intros _ w Hw. revert Hw. apply records_reads.
    exact (f_equal snd (open_next_btn_output w)).
  - split; constructor.
Qed.

(** ** What [__extract_area] returns *)

Section AreaSound.
Context `{CPython}.
Hypothesis sep_uncased : iscased 46%N = false /\ iscased 44%N = false.

Lemma extract_area_occurs (text : str) :
  extract_area text = []
  \/ exists i, occurs_at text i (extract_area text).
Proof.
  unfold extract_area.
  destruct (re_search pattern text) as [caps|] eqn:E; [|now left].
  destruct (re_search_some _ _ E) as (i & rest & others & Hi & _ & Hm).
  assert (Hin : In (rest, caps) (rmatch pattern (skipn i text) []))
    by (rewrite Hm; now left).
  destruct (pattern_sound _ _ _ sep_uncased Hin) as (n & Hg & Ha).
  rewrite Hg. right. exists i. now split.
Qed.

Lemma number_starts_with_digit (n : str) :
  is_number n -> exists c rest, n = c :: rest /\ isdecimal c = true.
Proof.
  intros (d1 & Hne & Hd & Hn).
  destruct d1 as [|c d1]; [contradiction|].
  exists c. inversion Hd as [|? ? Hc _]; subst.
  destruct Hn as [->|(sep & d2 & _ & _ & _ & ->)].
  - exists d1. now split.
  - exists (d1 ++ sep :: d2). now split.
Qed.

End AreaSound.

(** [__extract_area] returns nothing of its own: its result is empty, or
    it is a number (digits, or digits, a dot or a comma, and digits) that
    stands in the text, followed there by optional white space and a unit.
    So a text without a digit has no area, and the area that
    [__parse_page] records for a title and a description is empty or a
    number.  Asked of the Unicode tables: the dot and the comma have no
    case. *)
Theorem extract_area_sound `{CPython} (text : str) :
  iscased 46%N = false /\ iscased 44%N = false ->
  (extract_area text = []
   \/ exists i, occurs_at text i (extract_area text))
  /\ (Forall (fun c => isdecimal c = false) text -> extract_area text = [])
  /\ (forall description,
         area_of text description = []
         \/ is_number (area_of text description)).
Proof.
  intros Hsep.
  assert (Hnum : forall t, extract_area t = [] \/ is_number (extract_area t)).
  { intros t. destruct (extract_area_occurs Hsep t) as [E|(i & _ & Ha)];
      [now left|right].
    now destruct Ha as (ws & w & post & _ & Hn & _). }
  split; [apply (extract_area_occurs Hsep)|split].
  - intros Hnone.
    destruct (extract_area_occurs Hsep text) as [E|(i & _ & Ha)];
      [exact E|exfalso].
    destruct Ha as (ws & w & post & Et & Hn & _).
    destruct (number_starts_with_digit Hn) as (c & rest & En & Hc).
    assert (Hin : In c text).
    { rewrite <- (firstn_skipn i text), Et, En.
      apply in_or_app. right. now left. }
    rewrite Forall_forall in Hnone. rewrite (Hnone _ Hin) in Hc.
    discriminate.
  - intros description. unfold area_of. cbv zeta.
    destruct (Hnum text) as [E|Hn].
    + rewrite E. apply Hnum.
    + right. destruct (extract_area text); [|exact Hn].
      now destruct (number_starts_with_digit Hn) as (c & rest & En & _).
Qed.

Lemma extract_area_sound_witness :
  let text := u "2-к. квартира, 45,5 м², 3/9 эт." in
  (extract_area text = []
   \/ exists i, occurs_at text i (extract_area text))
  /\ (Forall (fun c => isdecimal c = false) text -> extract_area text = [])
  /\ (forall description,
         area_of text description = []
         \/ is_number (area_of text description)).
Proof.
  apply (@extract_area_sound basic_runtime
           (u "2-к. квартира, 45,5 м², 3/9 эт.")).
  split; reflexivity.
Defined.

(** ** Faults of the driver *)

Section FaultFacts.
Context `{CPython} {D : Type} `{Env D}.
Local Open Scope monad_scope.
Local Abbreviation M := (@M D).

Ltac tidy :=
  repeat (rewrite trace_set_env || rewrite trace_set_trace
          || rewrite set_trace_env || rewrite set_env_env
          || rewrite set_trace_trace).

Lemma get_url_retried : forall target (d d1 : D) pauses,
  retried target d d1 pauses ->
  forall fuel (w : state D) d2,
    url w = target -> env w = d ->
    serves_content target d1 d2 ->
    length pauses <= fuel ->
    get_url fuel w
    = (Returns tt,
       set_env d2 (set_trace (trace w ++ load_trace target pauses) w)).
Proof.
  induction 1 as [d|d dm d' p ps Hb _ IH|d dm d' e ps Hb _ IH];
    intros fuel w d2 Eu Ee Hs Hf; subst; rewrite get_url_eq.
  - erewrite get_url_body_served by exact Hs. reflexivity.
  - destruct fuel as [|fuel]; [cbn [length] in Hf; lia|].
    erewrite get_url_body_blocked by exact Hb.
    erewrite IH; [|reflexivity|reflexivity|exact Hs|cbn [length] in Hf; lia].
    f_equal. tidy. unfold load_trace. cbn [flat_map app].
    now rewrite <- app_assoc.
  - destruct fuel as [|fuel]; [cbn [length] in Hf; lia|].
    erewrite get_url_body_fault by exact Hb.
    erewrite IH; [|reflexivity|reflexivity|exact Hs|cbn [length] in Hf; lia].
    f_equal. tidy. unfold load_trace. cbn [flat_map app].
    now rewrite <- app_assoc.
Qed.

Lemma retried_pauses target (d d' : D) pauses :
  retried target d d' pauses ->
  Forall (fun p => p = 5 \/ 10 <= p <= 20)%Z pauses.
Proof.
  induction 1 as [|d d1 d' p ps Hb _ IH|d d1 d' e ps _ _ IH];
    constructor; try assumption; [|now left].
  right. destruct Hb as (d0 & title & d2 & _ & _ & _ & Er).
  assert (Hp : (10 <= fst (randint 10 20 d2) <= 20)%Z)
    by (apply randint_range; lia).
  now rewrite Er in Hp.
Qed.

(** What leaves the body of [__get_url] is what the nested call raised. *)
Lemma get_url_body_raises (again : M unit) (w : state D) e :
  fst (get_url_body again w) = Raises e ->
  exists w', fst (again w') = Raises e.
Proof.
  unfold get_url_body, logger_info. unfold bind at 1. cbn [ret].
  unfold try_except.
  match goal with
  | |- fst (match ?b with _ => _ end) = _ -> _ =>
    destruct b as [[[]|e0] w1]
  end; [discriminate|].
  rewrite get_url_handler. intros E. eexists. exact E.
Qed.

Lemma get_url_raises fuel : forall (w : state D) e,
  fst (get_url fuel w) = Raises e -> e = RecursionError.
Proof.
  induction fuel as [|fuel IH]; intros w e E; rewrite get_url_eq in E;
    apply get_url_body_raises in E; destruct E as [w' E].
  - now injection E.
  - exact (IH w' e E).
Qed.

(** One fault more than the stack has room for, and no soft block: the
    innermost call cannot call again. *)
Lemma get_url_exhausted fuel : forall (w : state D) d1 pauses,
  retried (url w) (env w) d1 pauses ->
  Forall (fun p => p = 5%Z) pauses ->
  length pauses = S fuel ->
  get_url fuel w
  = (Raises RecursionError,
     set_env d1
       (set_trace (trace w ++ flat_map (fun p => [EvOpen (Some (url w));
                                                  EvSleep p]) pauses) w)).
Proof.
  induction fuel as [|fuel IH]; intros w d1 pauses Hr Hp Hl;
    inversion Hr as [d|d dm d' p ps Hb Hrest|d dm d' e ps Hb Hrest]; subst;
    try discriminate.
  - exfalso. inversion Hp as [|? ? Hp5 _]; subst.
    destruct Hb as (d0 & title & d2 & _ & _ & _ & Er).
    assert (Hq : (10 <= fst (randint 10 20 d2) <= 20)%Z)
      by (apply randint_range; lia).
    rewrite Er in Hq. cbn [fst] in Hq. lia.
  - destruct ps; [|discriminate]. inversion Hrest; subst.
    rewrite get_url_eq. erewrite get_url_body_fault by exact Hb.
    unfold raise. f_equal.
  - exfalso. inversion Hp as [|? ? Hp5 _]; subst.
    destruct Hb as (d0 & title & d2 & _ & _ & _ & Er).
    assert (Hq : (10 <= fst (randint 10 20 d2) <= 20)%Z)
      by (apply randint_range; lia).
    rewrite Er in Hq. cbn [fst] in Hq. lia.
  - rewrite get_url_eq. erewrite get_url_body_fault by exact Hb.
    erewrite IH with (pauses := ps);
      [|exact Hrest|now inversion Hp|cbn [length] in Hl; lia].
    f_equal. tidy. cbn [flat_map app url set_env set_trace].
    now rewrite <- app_assoc.
Qed.

Lemma parse_detail_eq fuel target :
  parse_detail fuel target
  = parse_detail_body match fuel with
                      | O => raise RecursionError
                      | S fuel' => parse_detail fuel' target
                      end target.
Proof. destruct fuel; reflexivity. Qed.

Lemma parse_detail_body_no_raise (again : M detail_data) target
      (w : state D) e :
  fst (parse_detail_body again target w) <> Raises e.
Proof.
  unfold parse_detail_body, try_except.
  match goal with
  | |- fst (match ?b with _ => _ end) <> _ =>
    destruct b as [[r|e0] w1]
  end; discriminate.
Qed.

Lemma parse_detail_no_raise fuel target (w : state D) e :
  fst (parse_detail fuel target w) <> Raises e.
Proof. rewrite parse_detail_eq. apply parse_detail_body_no_raise. Qed.

Lemma first_text_eq els (w : state D) text d' :
  first_text_is els (env w) text d' ->
  first_text els w = (Returns text, set_env d' w).
Proof.
  destruct els as [|el els]; cbn [first_text_is first_text].
  - intros [-> ->]. unfold ret. f_equal. now destruct w.
  - apply call_ok.
Qed.

Lemma parse_detail_body_served (again : M detail_data) target
      (w : state D) d' detail :
  detail_served target (env w) d' detail ->
  parse_detail_body again target w
  = (Returns detail,
     set_env d' (set_trace (trace w ++ detail_trace target []) w)).
Proof.
  intros (d1 & title & d2 & dates & d3 & d4 & geos & d5
          & Eo & Et & Eb & Ed & Ex & Eg & Ey).
  unfold parse_detail_body, try_except.
  erewrite bind_returns by (apply driver_open_ok; exact Eo).
  unfold sleep at 1. unfold bind at 1, emit at 1, modify at 1.
  unfold driver_get_title.
  erewrite bind_returns by (apply call_ok; exact Et).
  rewrite Eb.
  unfold driver_find_elements at 1.
  unfold bind at 1. unfold bind at 1, emit at 1, modify at 1.
  erewrite call_ok by exact Ed.
  erewrite bind_returns by (apply first_text_eq; exact Ex).
  unfold driver_find_elements at 1.
  unfold bind at 1. unfold bind at 1, emit at 1, modify at 1.
  erewrite call_ok by exact Eg.
  erewrite bind_returns by (apply first_text_eq; exact Ey).
  unfold ret. destruct detail as [date geo]. cbn [date_public address].
  f_equal. tidy. unfold detail_trace. cbn [flat_map app].
  now rewrite <- !app_assoc.
Qed.

(** After a blocked visit the method is called from inside the [try]: what
    the nested call raises is caught there, and the empty pair returned. *)
Lemma parse_detail_body_blocked (again : M detail_data) target
      (w : state D) d' pause :
  detail_blocked target (env w) d' pause ->
  parse_detail_body again target w
  = match again (set_env d' (set_trace (trace w ++ [EvOpen target; EvSleep 2;
                                                    EvSleep pause]) w)) with
    | (Raises e, w2) => (Returns empty_detail, w2)
    | r => r
    end.
Proof.
  intros (d1 & title & d2 & Eo & Et & Eb & Er).
  unfold parse_detail_body, try_except.
  erewrite bind_returns by (apply driver_open_ok; exact Eo).
  unfold sleep at 1. unfold bind at 1, emit at 1, modify at 1.
  unfold driver_get_title.
  erewrite bind_returns by (apply call_ok; exact Et).
  rewrite Eb. unfold logger_info.
  unfold bind at 1. cbn [ret].
  erewrite bind_returns by (apply random_randint_eq; exact Er).
  unfold bind at 1. unfold sleep, emit, modify.
  match goal with
  | |- context [again ?s] =>
    replace s
      with (set_env d' (set_trace (trace w ++ [EvOpen target; EvSleep 2;
                                               EvSleep pause]) w))
      by (tidy; now rewrite <- !app_assoc)
  end.
  destruct (again _) as [[r|e] w2]; reflexivity.
Qed.

Lemma parse_detail_blocked_then_served :
  forall target (d d1 : D) pauses,
    detail_blocked_times target d d1 pauses ->
    forall fuel (w : state D) d2 detail,
      env w = d ->
      detail_served target d1 d2 detail ->
      length pauses <= fuel ->
      parse_detail fuel target w
      = (Returns detail,
         set_env d2 (set_trace (trace w ++ detail_trace target pauses) w)).
Proof.
  induction 1 as [d|d dm d' p ps Hblock _ IH];
    intros fuel w d2 detail Ee Hs Hf; subst; rewrite parse_detail_eq.
  - erewrite parse_detail_body_served by exact Hs. reflexivity.
  - destruct fuel as [|fuel]; [cbn [length] in Hf; lia|].
    erewrite parse_detail_body_blocked by exact Hblock.
    erewrite IH; [|reflexivity|exact Hs|cbn [length] in Hf; lia].
    f_equal. tidy. unfold detail_trace. cbn [flat_map].
    now rewrite <- !app_assoc.
Qed.

(** One blocked visit more than the stack has room for: the innermost call
    cannot call again, and the handler around it returns the empty pair,
    which every call above passes on. *)
Lemma parse_detail_exhausted fuel : forall target (w : state D) d1 pauses,
  detail_blocked_times target (env w) d1 pauses ->
  length pauses = S fuel ->
  parse_detail fuel target w
  = (Returns empty_detail,
     set_env d1
       (set_trace (trace w ++ flat_map (fun p => [EvOpen target; EvSleep 2;
                                                  EvSleep p]) pauses) w)).
Proof.
  induction fuel as [|fuel IH]; intros target w d1 pauses Hb Hl;
    inversion Hb as [d|d dm d' p ps Hblock Hrest]; subst; try discriminate;
    rewrite parse_detail_eq;
    erewrite parse_detail_body_blocked by exact Hblock.
  - destruct ps; [|discriminate]. inversion Hrest; subst.
    unfold raise. f_equal.
  - erewrite IH with (pauses := ps);
      [|exact Hrest|cbn [length] in Hl; lia].
    f_equal. tidy. cbn [flat_map app].
    now rewrite <- !app_assoc.
Qed.

End FaultFacts.

(** [__get_url] loads until the page is served or the stack is full.  Let
    the driver meet the load of the list page with a run of soft blocks
    and faults (a failed navigation, a failed title query, a timeout of
    the wait or any other exception of it); the method has paused before
    each retry, five seconds after a fault and the number drawn from 10 to
    20 after a soft block.  When the page is then served and the stack has
    room for one nested call for each retry, the load returns normally,
    having navigated to the same URL once more after each of them.  When
    the run is of faults only and one longer than the stack has room for,
    [RecursionError] leaves the method: the calls of the handlers are not
    inside any [try].  No other exception ever leaves it. *)
Theorem get_url_retries_until_served `{CPython} {D : Type} `{Env D}
        (fuel : nat) (w : state D) (d1 : D) (pauses : list Z) :
  retried (url w) (env w) d1 pauses ->
  Forall (fun p => p = 5 \/ 10 <= p <= 20)%Z pauses
  /\ (forall d2,
         serves_content (url w) d1 d2 ->
         length pauses <= fuel ->
         get_url fuel w
         = (Returns tt,
            set_env d2 (set_trace (trace w ++ load_trace (url w) pauses) w)))
  /\ (Forall (fun p => p = 5%Z) pauses ->
      length pauses = S fuel ->
      get_url fuel w
      = (Raises RecursionError,
         set_env d1
           (set_trace (trace w
                       ++ flat_map (fun p => [EvOpen (Some (url w));
                                              EvSleep p]) pauses) w)))
  /\ (forall fuel' (w' : state D) e,
         fst (get_url fuel' w') = Raises e -> e = RecursionError).
Proof.
  intros Hr. split; [|split; [|split]].
  - eapply retried_pauses; eassumption.
  - intros d2 Hs Hf. eapply get_url_retried; try eassumption; reflexivity.
  - intros Hp Hl. now apply get_url_exhausted.
  - intros fuel' w' e. apply get_url_raises.
Qed.

Lemma get_url_retries_until_served_witness :
  let w := init avito_url 35 false (Some (u "adygeya")) faulty_load in
  let d1 := after_calls 3 (after_randoms 1 (after_calls 3 faulty_load)) in
  let d2 := after_calls 3 d1 in
  let w0 := init avito_url 35 false (Some (u "adygeya")) (play []) in
  get_url 3 w
  = (Returns tt,
     set_env d2 (set_trace (trace w ++ load_trace (url w) [5; 14; 5]%Z) w))
  /\ get_url 1 w0
     = (Raises RecursionError,
        set_env (after_calls 2 (play []))
          (set_trace (trace w0 ++ [EvOpen (Some (url w0)); EvSleep 5;
                                   EvOpen (Some (url w0)); EvSleep 5]) w0)).
Proof.
  intros w d1 d2 w0. split.
  - refine (proj1 (proj2
      (@get_url_retries_until_served basic_runtime script scripted 3 w d1
         [5; 14; 5]%Z _)) d2 _ _).
    + apply retried_fault
        with (d1 := after_calls 1 faulty_load) (e := WebDriverException);
        [left; reflexivity|].
      apply retried_block
        with (d1 := after_randoms 1 (after_calls 3 faulty_load)).
      { exists (after_calls 2 faulty_load),
          (u "Доступ ограничен: проблема с IP"), (after_calls 3 faulty_load).
        repeat split; reflexivity. }
      apply retried_fault with (d1 := d1) (e := TimeoutException);
        [|apply retried_nil].
      right. right.
      exists (after_calls 1 (after_randoms 1 (after_calls 3 faulty_load))),
        (u "Купить квартиру в Адыгее"),
        (after_calls 2 (after_randoms 1 (after_calls 3 faulty_load))).
      repeat split; reflexivity.
    + exists (after_calls 1 d1), (u "Купить квартиру в Адыгее"),
        (after_calls 2 d1).
      repeat split; reflexivity.
    + cbn [length]. lia.
  - refine (proj1 (proj2 (proj2
      (@get_url_retries_until_served basic_runtime script scripted 1 w0
         (after_calls 2 (play [])) [5; 5]%Z _))) _ _).
    + apply retried_fault
        with (d1 := after_calls 1 (play [])) (e := WebDriverException);
        [left; reflexivity|].
      apply retried_fault
        with (d1 := after_calls 2 (play [])) (e := WebDriverException);
        [left; reflexivity|].
      apply retried_nil.
    + repeat constructor.
    + reflexivity.
Defined.

(** [__parse_detail] is all or nothing.  It never raises; and when a call
    fails after the date has been read (here the query for the address),
    the date is dropped with the rest: the result is the empty pair, and
    the list page is not reopened by this method. *)
Theorem parse_detail_all_or_nothing `{CPython} {D : Type} `{Env D}
        (fuel : nat) (target : option str) (w : state D)
        (d1 d2 d3 d4 d5 : D) (title date : str) (el : element)
        (els : list element) (e : exn) :
  drv_open target (env w) = (Ok tt, d1) ->
  drv_get_title d1 = (Ok title, d2) ->
  str_contains access_restricted title = false ->
  drv_find_elements DATE_PUBLIC d2 = (Ok (el :: els), d3) ->
  el_text el d3 = (Ok date, d4) ->
  drv_find_elements GEO d4 = (Raise e, d5) ->
  parse_detail (S fuel) target w
  = (Returns empty_detail,
     set_env d5
       (set_trace (trace w ++ [EvOpen target; EvSleep 2;
                               EvFindElements DATE_PUBLIC;
                               EvFindElements GEO]) w))
  /\ forall fuel' target' (w' : state D) e',
      fst (parse_detail fuel' target' w') <> Raises e'.
Proof.
  intros Eo Et Eb Ed Ex Eg. split.
  - rewrite parse_detail_eq. unfold parse_detail_body, try_except.
    erewrite bind_returns by (apply driver_open_ok; exact Eo).
    unfold sleep at 1. unfold bind at 1, emit at 1, modify at 1.
    unfold driver_get_title.
    erewrite bind_returns by (apply call_ok; exact Et).
    rewrite Eb.
    unfold driver_find_elements at 1.
    unfold bind at 1. unfold bind at 1, emit at 1, modify at 1.
    erewrite call_ok by exact Ed.
    unfold first_text at 1.
    erewrite bind_returns by (apply call_ok; exact Ex).
    unfold driver_find_elements at 1.
    unfold bind at 1. unfold bind at 1, emit at 1, modify at 1.
    erewrite call_raise by exact Eg.
    unfold logger_debug, bind, ret. f_equal.
    repeat (rewrite trace_set_env || rewrite trace_set_trace
            || rewrite set_trace_env || rewrite set_env_env
            || rewrite set_trace_trace).
    now rewrite <- !app_assoc.
  - intros fuel' target' w' e'. apply parse_detail_no_raise.
Qed.

Lemma parse_detail_all_or_nothing_witness :
  let w := init avito_url 35 false None detail_fails_late in
  parse_detail 1 (Some (u "https://x/1")) w
  = (Returns empty_detail,
     set_env (after_calls 5 detail_fails_late)
       (set_trace (trace w ++ [EvOpen (Some (u "https://x/1")); EvSleep 2;
                               EvFindElements DATE_PUBLIC;
                               EvFindElements GEO]) w))
  /\ forall fuel' target' (w' : state script) e',
      fst (parse_detail fuel' target' w') <> Raises e'.
Proof.
  intros w.
  apply (@parse_detail_all_or_nothing basic_runtime script scripted 0
           (Some (u "https://x/1")) w
           (after_calls 1 detail_fails_late) (after_calls 2 detail_fails_late)
           (after_calls 3 detail_fails_late) (after_calls 4 detail_fails_late)
           (after_calls 5 detail_fails_late)
           (u "Квартира на Авито") (u "10 января") 20 [] WebDriverException);
    reflexivity.
Defined.

(** *** Where an exception can come from *)

Section AbortFacts.
Context `{CPython} {D : Type} `{Env D}.
Local Open Scope monad_scope.

Lemma parse_page_raises fuel (w : state D) e :
  fst (parse_page fuel w) = Raises e -> listing_fails (env w) e.
Proof.
  unfold parse_page, stop_requested. unfold bind at 1, gets at 1.
  destruct (stop_event w && stop_is_set (env w)); [discriminate|].
  unfold driver_get_current_url. unfold bind at 1, call at 1.
  destruct (drv_get_current_url (env w)) as [[current_url|e0] d1] eqn:Ec;
    [|intros [= <-]; left; eauto].
  unfold driver_find_elements. unfold bind at 1. unfold bind at 1.
  unfold emit at 1, modify at 1, call at 1. cbn [env set_trace set_env].
  destruct (drv_find_elements TITLES d1) as [[ads|e0] d2] eqn:Ef;
    [|intros [= <-]; right; exists current_url, d1, d2; now split].
  destruct ads as [|a ads]; [discriminate|].
  unfold logger_info. unfold bind at 1, ret at 1.
  intros E. exfalso.
  match type of E with
  | fst (for_each ?l _ ?s) = _ =>
    exact (proj1 (for_each_retry l fuel current_url s) e E)
  end.
Qed.

Lemma parse_page_raises_polled fuel (w : state D) e :
  fst (parse_page fuel w) = Raises e ->
  stop_event w && stop_is_set (env w) = false.
Proof.
  unfold parse_page, stop_requested. unfold bind at 1, gets at 1.
  destruct (stop_event w && stop_is_set (env w));
    [discriminate|reflexivity].
Qed.

Lemma parse_page_fails fuel (w : state D) e :
  stop_event w && stop_is_set (env w) = false ->
  listing_fails (env w) e ->
  fst (parse_page fuel w) = Raises e.
Proof.
  intros Es Hl.
  unfold parse_page, stop_requested. unfold bind at 1, gets at 1.
  rewrite Es. unfold driver_get_current_url.
  destruct Hl as [[d' Ec]|(current_url & d1 & d' & Ec & Ef)].
  - erewrite bind_raises by (apply call_raise; exact Ec). reflexivity.
  - erewrite bind_returns by (apply call_ok; exact Ec).
    unfold driver_find_elements. unfold bind at 1. unfold bind at 1.
    unfold emit at 1, modify at 1.
    erewrite call_raise by exact Ef. reflexivity.
Qed.

Lemma open_next_btn_eq (w : state D) :
  let next := get_next_page_url (base_url w) (url w) in
  let w1 := set_trace (trace w ++ [EvOpen (Some next)]) (set_url next w) in
  open_next_btn w
  = match drv_open (Some next) (env w) with
    | (Ok _, d') => (Returns tt, set_env d' w1)
    | (Raise e, d') => (Raises e, set_env d' w1)
    end.
Proof.
  cbv zeta.
  unfold open_next_btn, driver_open, bind, modify, logger_info, ret, gets,
    emit, modify, call.
  cbn [env set_url set_trace url trace].
  destruct (drv_open _ _) as [[[]|e0] d]; reflexivity.
Qed.

(** The page loop, one iteration at a time. *)
Lemma paginator_loop_S fuel n (w : state D) :
  paginator_loop fuel (S n) w
  = if stop_event w && stop_is_set (env w)
    then (Returns tt, w)
    else match page_iteration fuel w with
         | (Returns _, w1) => paginator_loop fuel n w1
         | (Raises e, w1) => (Raises e, w1)
         end.
Proof.
  cbn [paginator_loop]. unfold stop_requested.
  unfold bind at 1, gets at 1.
  destruct (stop_event w && stop_is_set (env w)); [reflexivity|].
  unfold page_iteration, bind.
  destruct (try_except _ _ w) as [[[]|e0] w1]; [|reflexivity].
  destruct (parse_page fuel w1) as [[[]|e1] w2]; [|reflexivity].
  destruct (random_randint 2 4 w2) as [[pause|e2] w3]; [|reflexivity].
  destruct (sleep pause w3) as [[[]|e3] w4]; [|reflexivity].
  destruct (open_next_btn w4) as [[[]|e4] w5]; reflexivity.
Qed.

Lemma page_iteration_raises fuel (w : state D) e :
  fst (page_iteration fuel w) = Raises e <-> iteration_fails fuel w e.
Proof.
  unfold page_iteration, iteration_fails. cbv zeta.
  unfold bind at 1. pose proof (scroll_returns w) as Hs.
  destruct (try_except _ _ w) as [[[]|e0] w2]; [|discriminate].
  cbn [snd]. clear Hs. unfold bind at 1.
  split.
  - destruct (parse_page fuel w2) as [[[]|e1] w3] eqn:Ep.
    + unfold bind at 1, random_randint at 1.
      destruct (randint 2 4 (env w3)) as [pause d] eqn:Er.
      unfold bind at 1, sleep at 1, emit at 1, modify at 1.
      rewrite open_next_btn_eq. cbv zeta.
      cbn [env set_env set_trace base_url url].
      destruct (drv_open _ d) as [[[]|e2] d'] eqn:Eo; [discriminate|].
      intros [= <-]. right. exists w3, pause, d, d'. now repeat split.
    + intros [= <-]. left. split.
      * apply (@parse_page_raises_polled fuel w2 e1). now rewrite Ep.
      * apply (@parse_page_raises fuel w2 e1). now rewrite Ep.
  - intros [[Es Hl]|(w3 & pause & d & d' & Ep & Er & Eo)].
    + pose proof (parse_page_fails fuel w2 Es Hl) as E.
      destruct (parse_page fuel w2) as [[[]|e1] w3]; [discriminate|].
      exact E.
    + rewrite Ep.
      unfold bind at 1, random_randint at 1. rewrite Er.
      unfold bind at 1, sleep at 1, emit at 1, modify at 1.
      rewrite open_next_btn_eq. cbv zeta.
      cbn [env set_env set_trace base_url url].
      now rewrite Eo.
Qed.

Lemma loop_reaches_returns fuel n (w : state D) k w' :
  loop_reaches fuel n w k w' ->
  k = 0 \/ stop_event w' && stop_is_set (env w') = true ->
  paginator_loop fuel n w = (Returns tt, w').
Proof.
  induction 1 as [n w|n w w1 k w' Es Ei _ IH]; intros Hend.
  - destruct n as [|n]; [reflexivity|].
    rewrite paginator_loop_S.
    destruct Hend as [Hk|Hs]; [discriminate|now rewrite Hs].
  - rewrite paginator_loop_S, Es, Ei. now apply IH.
Qed.

Lemma loop_reaches_raises fuel n (w : state D) k w' e :
  loop_reaches fuel n w k w' ->
  k <> 0 ->
  stop_event w' && stop_is_set (env w') = false ->
  fst (page_iteration fuel w') = Raises e ->
  fst (paginator_loop fuel n w) = Raises e.
Proof.
  induction 1 as [n w|n w w1 k w' Es Ei _ IH]; intros Hk Hs He.
  - destruct n as [|n]; [now destruct Hk|].
    rewrite paginator_loop_S, Hs.
    destruct (page_iteration fuel w) as [[[]|e1] w1]; [discriminate|].
    exact He.
  - rewrite paginator_loop_S, Es, Ei. now apply IH.
Qed.

Lemma paginator_loop_reaches fuel n : forall (w : state D),
  match paginator_loop fuel n w with
  | (Returns _, w') =>
    exists k, loop_reaches fuel n w k w'
              /\ (k = 0 \/ stop_event w' && stop_is_set (env w') = true)
  | (Raises e, _) =>
    exists k w1, loop_reaches fuel n w k w1
                 /\ k <> 0
                 /\ stop_event w1 && stop_is_set (env w1) = false
                 /\ fst (page_iteration fuel w1) = Raises e
  end.
Proof.
  induction n as [|n IH]; intros w.
  - cbn [paginator_loop ret]. exists 0. split; [constructor|now left].
  - rewrite paginator_loop_S.
    destruct (stop_event w && stop_is_set (env w)) eqn:Es.
    + exists (S n). split; [constructor|now right].
    + destruct (page_iteration fuel w) as [[[]|e] w1] eqn:Ei.
      * specialize (IH w1).
        destruct (paginator_loop fuel n w1) as [[[]|e] w'].
        -- destruct IH as (k & Hr & Hend). exists k.
           split; [|exact Hend]. econstructor; eassumption.
        -- destruct IH as (k & w2 & Hr & Hk & Hs & He). exists k, w2.
           repeat split; try assumption. econstructor; eassumption.
      * exists (S n), w. repeat split; try assumption;
          [constructor|discriminate|now rewrite Ei].
Qed.

Lemma paginator_eq fuel (w : state D) :
  paginator fuel w
  = match paginator_loop fuel (Z.to_nat (count w)) w with
    | (Returns _, w1) => save_remaining w1
    | (Raises e, w1) => (Raises e, w1)
    end.
Proof.
  unfold paginator, logger_info.
  unfold bind at 1, ret at 1. unfold bind at 1, gets at 1.
  unfold bind at 1.
  destruct (paginator_loop fuel (Z.to_nat (count w)) w) as [[[]|e] w1];
    reflexivity.
Qed.

Lemma save_remaining_raises_iff (w : state D) e :
  fst (save_remaining w) = Raises e <-> flush_fails w e.
Proof.
  rewrite save_remaining_eq. unfold flush_fails.
  destruct (data w) as [|ad ads].
  - split; [discriminate|]. now intros [Hd _].
  - cbv zeta. destruct (write_file _ (env w)) as [[]|e0].
    + split; [discriminate|]. intros [_ E]. discriminate.
    + split.
      * intros [= <-]. split; [discriminate|reflexivity].
      * intros [_ [= <-]]. reflexivity.
Qed.

End AbortFacts.

(** Only the head of [__parse_page] can fail.  When [__parse_page] raises,
    the exception is the one of its query for the current URL or of its
    first query for the ads: no fault met while the ads are read leaves
    the method.  On a page without ads it returns at once, the buffer and
    the files as they were. *)
Theorem parse_page_raises_only_at_head `{CPython} {D : Type} `{Env D}
        (fuel : nat) (w : state D) :
  (forall e,
      fst (parse_page fuel w) = Raises e ->
      (exists d', drv_get_current_url (env w) = (Raise e, d'))
      \/ (exists current_url d1 d',
             drv_get_current_url (env w) = (Ok current_url, d1)
             /\ drv_find_elements TITLES d1 = (Raise e, d')))
  /\ (forall current_url d1 d2,
         stop_event w && stop_is_set (env w) = false ->
         drv_get_current_url (env w) = (Ok current_url, d1) ->
         drv_find_elements TITLES d1 = (Ok [], d2) ->
         parse_page fuel w
         = (Returns tt,
            set_env d2 (set_trace (trace w ++ [EvFindElements TITLES]) w))).
Proof.
  split.
  - intros e. apply parse_page_raises.
  - intros current_url d1 d2 Es Ec Ef.
    unfold parse_page, stop_requested. unfold bind at 1, gets at 1.
    rewrite Es. unfold driver_get_current_url.
    erewrite bind_returns by (apply call_ok; exact Ec).
    unfold driver_find_elements. unfold bind at 1. unfold bind at 1.
    unfold emit at 1, modify at 1.
    erewrite call_ok by exact Ef.
    unfold logger_info, ret. f_equal.
Qed.

(** What ends [__paginator] with an exception, and where in the run.
    [__paginator] raises [e] exactly when the page loop, entered at the
    state the method is called in, reaches the head of an iteration
    through iterations that all returned normally, and there either
    iterations are left, the stop signal is clear and the iteration is
    ended by [e], raised by the driver at the query for the current URL
    or at the first query for the ads of the page or at the opening of the
    next list page; or the loop is over, records are left in the buffer
    and the write of their file raises [e].  Nothing else leaves the
    method: a failed scroll is passed over, and the faults of the ads and
    of the detail pages are handled where they occur. *)
Theorem paginator_abort_origin `{CPython} {D : Type} `{Env D}
        (fuel : nat) (w : state D) (e : exn) :
  fst (paginator fuel w) = Raises e
  <-> exists k w1,
      loop_reaches fuel (Z.to_nat (count w)) w k w1
      /\ ((k <> 0
           /\ stop_event w1 && stop_is_set (env w1) = false
           /\ iteration_fails fuel w1 e)
          \/ ((k = 0 \/ stop_event w1 && stop_is_set (env w1) = true)
              /\ flush_fails w1 e)).
Proof.
  rewrite paginator_eq. split.
  - pose proof (paginator_loop_reaches fuel (Z.to_nat (count w)) w) as Hl.
    destruct (paginator_loop fuel (Z.to_nat (count w)) w) as [[[]|e0] w1].
    + destruct Hl as (k & Hr & Hend). intros E.
      exists k, w1. split; [exact Hr|]. right. split; [exact Hend|].
      now apply save_remaining_raises_iff.
    + destruct Hl as (k & w2 & Hr & Hk & Hs & He). intros [= <-].
      exists k, w2. split; [exact Hr|]. left.
      repeat split; try assumption. now apply page_iteration_raises.
  - intros (k & w1 & Hr & [(Hk & Hs & Hi)|(Hend & Hf)]).
    + apply page_iteration_raises in Hi.
      pose proof (loop_reaches_raises Hr Hk Hs Hi) as E.
      destruct (paginator_loop fuel (Z.to_nat (count w)) w)
        as [[[]|e0] w2]; [discriminate|exact E].
    + rewrite (loop_reaches_returns Hr Hend).
      now apply save_remaining_raises_iff.
Qed.

Lemma paginator_abort_origin_witness :
  let w := init avito_url 1 false None (play []) in
  fst (paginator 1 w) = Raises WebDriverException
  /\ exists k w1,
      loop_reaches 1 (Z.to_nat (count w)) w k w1
      /\ ((k <> 0
           /\ stop_event w1 && stop_is_set (env w1) = false
           /\ iteration_fails 1 w1 WebDriverException)
          \/ ((k = 0 \/ stop_event w1 && stop_is_set (env w1) = true)
              /\ flush_fails w1 WebDriverException)).
Proof.
  intros w.
  assert (E : fst (paginator 1 w) = Raises WebDriverException)
    by (vm_compute; reflexivity).
  split; [exact E|].
  exact (proj1 (@paginator_abort_origin basic_runtime script scripted 1 w
                  WebDriverException) E).
Defined.

(** A detail page that shows the access-restricted page is visited again,
    by a call from inside the [try] of the method.  Let the driver show
    the access-restricted page at the first [n] visits; after each of them
    the method has slept two seconds and then the number of seconds drawn
    from 10 to 20.  When the page is then served and the stack has room
    for [n] nested calls, [__parse_detail] returns the text of the first
    date element and of the first address element, each the empty string
    when there is no such element, having opened the same URL [n + 1]
    times.  When the stack has room for [n - 1] nested calls only, the
    innermost call cannot call again: the exception is caught by the
    handler around that call and the method returns the empty pair,
    having opened the URL [n] times and read nothing. *)
Theorem parse_detail_reads_first_elements `{CPython} {D : Type} `{Env D}
        (fuel : nat) (target : option str) (w : state D) (d1 : D)
        (pauses : list Z) :
  detail_blocked_times target (env w) d1 pauses ->
  Forall (fun p => 10 <= p <= 20)%Z pauses
  /\ length (filter is_navigation (detail_trace target pauses))
     = length pauses + 1
  /\ (forall d2 detail,
         detail_served target d1 d2 detail ->
         length pauses <= fuel ->
         parse_detail fuel target w
         = (Returns detail,
            set_env d2 (set_trace (trace w ++ detail_trace target pauses) w)))
  /\ (length pauses = S fuel ->
      parse_detail fuel target w
      = (Returns empty_detail,
         set_env d1
           (set_trace (trace w
                       ++ flat_map (fun p => [EvOpen target; EvSleep 2;
                                              EvSleep p]) pauses) w))).
Proof.
  intros Hb. split; [|split; [|split]].
  - induction Hb as [|d d0 d' p ps Hblock _ IH]; constructor;
      [|assumption].
    destruct Hblock as (d3 & title & d4 & _ & _ & _ & Er).
    assert (Hp : (10 <= fst (randint 10 20 d4) <= 20)%Z)
      by (apply randint_range; lia).
    now rewrite Er in Hp.
  - unfold detail_trace. rewrite filter_app, length_app.
    cbn [filter is_navigation length].
    clear. induction pauses as [|p ps IH]; cbn [flat_map app filter
      is_navigation length] in *; lia.
  - intros d2 detail Hs Hf.
    eapply parse_detail_blocked_then_served; try eassumption; reflexivity.
  - intros Hl. now apply parse_detail_exhausted.
Qed.

Lemma parse_detail_reads_first_elements_witness :
  let w := init avito_url 35 false None detail_blocked_once in
  let d1 := after_randoms 1 (after_calls 2 detail_blocked_once) in
  let d2 := after_calls 5 d1 in
  let target := Some (u "https://x/1") in
  let detail := {| date_public := u "10 января"; address := [] |} in
  parse_detail 1 target w
  = (Returns detail,
     set_env d2 (set_trace (trace w ++ detail_trace target [17%Z]) w))
  /\ parse_detail 0 target w
     = (Returns empty_detail,
        set_env d1 (set_trace (trace w ++ [EvOpen target; EvSleep 2;
                                           EvSleep 17]) w)).
Proof.
  intros w d1 d2 target detail.
  assert (Hb : detail_blocked_times target (env w) d1 [17%Z]).
  { apply detail_blocked_S with (d1 := d1); [|apply detail_blocked_0].
    exists (after_calls 1 detail_blocked_once),
      (u "Доступ ограничен: проблема с IP"),
      (after_calls 2 detail_blocked_once).
    repeat split; reflexivity. }
  split.
  - refine (proj1 (proj2 (proj2
      (@parse_detail_reads_first_elements basic_runtime script scripted 1
         target w d1 [17%Z] Hb))) d2 detail _ _).
    + exists (after_calls 1 d1), (u "Квартира на Авито"), (after_calls 2 d1),
        [20; 22], (after_calls 3 d1), (after_calls 4 d1), [],
        (after_calls 5 d1).
      repeat split; reflexivity.
    + cbn [length]. lia.
  - exact (proj2 (proj2 (proj2
      (@parse_detail_reads_first_elements basic_runtime script scripted 0
         target w d1 [17%Z] Hb))) eq_refl).
Defined.

(** ** The end of a run *)

Section EndFacts.
Context `{CPython} {D : Type} `{Env D}.
Local Open Scope monad_scope.

Lemma paginator_returns fuel (w w' : state D) :
  paginator fuel w = (Returns tt, w') -> exists w0, w' = flushed w0.
Proof.
  unfold paginator, logger_info. intros E.
  apply bind_returns_inv in E. destruct E as (_ & w1 & _ & E).
  apply bind_returns_inv in E. destruct E as (n & w2 & _ & E).
  apply bind_returns_inv in E. destruct E as (_ & w3 & _ & E).
  exists w3. now apply save_remaining_returns.
Qed.

Lemma parse_returns fuel (w : state D) :
  fst (parse fuel w) = Returns tt ->
  exists w0, snd (parse fuel w) = set_session false (flushed w0).
Proof.
  rewrite parse_eq.
  destruct (bind (get_url fuel) (fun _ => paginator fuel) (set_session true w))
    as [[[]|e] w1] eqn:E.
  - cbn [fst snd]. intros _.
    apply bind_returns_inv in E. destruct E as (_ & w2 & _ & E).
    destruct (paginator_returns _ _ E) as (w0 & ->). now exists w0.
  - destruct (save_remaining w1) as [[[]|e'] w2] eqn:Es; cbn [fst snd];
      intros Hr; [|discriminate].
    exists w1. now rewrite (save_remaining_returns _ Es).
Qed.


End EndFacts.

(** Whenever [parse] returns, nothing collected is left unwritten: the
    buffer is empty, or the last file written holds exactly the records of
    the buffer, under the name of the parser's region.  (This is so on
    the normal path, where [__paginator] ends with the flush, and on the
    path of an exception.) *)
Theorem run_leaves_nothing_unwritten `{CPython} {D : Type} `{Env D}
        (fuel : nat) (w : state D) :
  fst (parse fuel w) = Returns tt ->
  let w' := snd (parse fuel w) in
  data w' = []
  \/ exists earlier,
      files w' = earlier ++ [xml_of (data w') (region w')
                                    (strftime_now (env w'))].
Proof.
  intros Hr. destruct (parse_returns fuel w Hr) as (w0 & E).
  cbv zeta. rewrite E.
  unfold flushed. destruct (data w0) as [|ad ads] eqn:Ed.
  - left. exact Ed.
  - right. exists (files w0). cbn [files data region env set_session set_files].
    now rewrite Ed.
Qed.

Lemma run_leaves_nothing_unwritten_witness :
  let w := init avito_url 2 false (Some (u "adygeya")) one_page_then_error in
  let w' := snd (parse 2 w) in
  data w' = []
  \/ exists earlier,
      files w' = earlier ++ [xml_of (data w') (region w')
                                    (strftime_now (env w'))].
Proof.
  intros w.
  apply (@run_leaves_nothing_unwritten basic_runtime script scripted 2 w).
  vm_compute. reflexivity.
Defined.

(** *** The regions *)

Section MainFacts.
Context `{CPython} {D : Type} `{Env D}.




End MainFacts.



(** ** How many records a page adds *)

Section CountFacts.
Context `{CPython} {D : Type} `{Env D}.
Local Open Scope monad_scope.
Local Abbreviation M := (@M D).
Variable c : nat.

Lemma leads_try (P Q R : state D -> Prop) {A} (body : M A)
      (handler : exn -> M A) :
  leads P body Q -> (forall w, Q w -> R w) ->
  (forall e, leads Q (handler e) R) ->
  leads P (try_except body handler) R.
Proof.
  intros Hb HQR Hh w Hw. unfold try_except. specialize (Hb w Hw).
  destruct (body w) as [[a|e] w']; cbn [snd] in *; auto.
  now apply Hh.
Qed.

Lemma at_most_reads k : reads (@output D) (at_most c k).
Proof.
  intros w w' E. unfold output in E. injection E as Ed Ef.
  unfold at_most, recorded. now rewrite Ed, Ef.
Qed.

Lemma at_most_mono k k' (w : state D) :
  k <= k' -> at_most c k w -> at_most c k' w.
Proof. unfold at_most. lia. Qed.

Lemma recorded_xml_of ads r t :
  length (children_of (root (xml_of ads r t))) = length ads.
Proof. unfold xml_of. cbn [root children_of]. apply length_map. Qed.

Lemma recorded_append ad (w : state D) :
  recorded (snd (append_ad ad w)) = S (recorded w).
Proof.
  rewrite append_ad_eq. unfold recorded.
  destruct (Nat.leb 2000 (length (data w ++ [ad])));
    [cbv zeta; destruct (write_file _ (env w))|];
    cbn [snd data files set_data set_files length].
  - rewrite map_app, list_sum_app. unfold list_sum at 2.
    cbn [map fold_right].
    rewrite recorded_xml_of, length_app. cbn [length]. lia.
  - rewrite length_app. cbn [length]. lia.
  - rewrite length_app. cbn [length]. lia.
Qed.

Lemma at_most_append k ad :
  leads (at_most c k) (append_ad ad) (at_most c (S k)).
Proof.
  intros w Hw. unfold at_most in *. rewrite recorded_append. lia.
Qed.

Ltac quiet k :=
  first
    [ apply keeps_ret | apply keeps_raise
    | apply keeps_lift_exc | apply keeps_gets | apply keeps_getitem
    | apply (keeps_call (f := @output D)); [apply at_most_reads|reflexivity]
    | apply (keeps_randint (f := @output D));
      [apply at_most_reads|reflexivity]
    | apply (keeps_emit (f := @output D)); [apply at_most_reads|reflexivity]
    | apply (keeps_parse_detail (f := @output D));
      [apply at_most_reads|reflexivity
      |intros ? _; apply (keeps_emit (f := @output D));
       [apply at_most_reads|reflexivity]]
    | apply keeps_try; [|intros ?]
    | apply keeps_bind; [|intros ?] ].

Ltac skip k :=
  apply leads_bind with (Q := at_most c k);
  [repeat quiet k
  |intros ?; apply at_most_mono; lia
  |intros ?].

Lemma process_elements_count k fuel i current_url ads :
  leads (at_most c k) (process_elements fuel i current_url ads)
        (at_most c (S k)).
Proof.
  unfold process_elements, logger_debug, sleep, driver_open.
  do 4 skip k.
  apply leads_bind with (Q := at_most c k);
    [match goal with
     | |- context [match ?found with [] => _ | _ :: _ => _ end] =>
       destruct found
     end; repeat quiet k
    |intros ?; apply at_most_mono; lia
    |intros description].
  do 6 skip k.
  apply leads_bind with (Q := at_most c (S k));
    [apply at_most_append|auto|intros _].
  repeat quiet (S k).
Qed.

Lemma retry_ad_count retries fuel i current_url :
  forall k,
    leads (at_most c k) (retry_ad retries fuel i current_url)
          (at_most c (k + retries)).
Proof.
  induction retries as [|retries IH]; intros k; cbn [retry_ad].
  - intros w. apply at_most_mono. lia.
  - unfold logger_debug, process_ad, sleep, driver_find_elements.
    apply leads_bind with (Q := at_most c (S k)).
    + apply leads_try with (Q := at_most c (S k)); [|auto|].
      * apply leads_bind with (Q := at_most c (S k));
          [|auto|intros _; apply keeps_ret].
        skip k. apply process_elements_count.
      * intros e. destruct (is_stale e); repeat quiet (S k).
    + intros w. apply at_most_mono. lia.
    + intros [|].
      * intros w. apply at_most_mono. lia.
      * rewrite Nat.add_succ_r. apply (IH (S k)).
Qed.

Lemma for_each_count indices fuel current_url :
  forall k,
    leads (at_most c k)
          (for_each indices (fun i => retry_ad 3 fuel i current_url))
          (at_most c (k + 3 * length indices)).
Proof.
  induction indices as [|i rest IH]; intros k; cbn [for_each length].
  - intros w. apply at_most_mono. lia.
  - apply leads_bind with (Q := at_most c (k + 3)).
    + apply retry_ad_count.
    + intros w. apply at_most_mono. lia.
    + intros _. intros w Hw. specialize (IH (k + 3) w Hw).
      revert IH. apply at_most_mono. lia.
Qed.

End CountFacts.

(** A page of [n] ads adds at most [3 n] records, one for each attempt on
    an ad: the record is appended before the list page is reopened, so an
    attempt that fails after the append and is repeated records the ad
    again. *)
Theorem page_adds_at_most_three_per_ad `{CPython} {D : Type} `{Env D}
        (fuel : nat) (w : state D) (current_url : str)
        (ads : list element) (d1 d2 : D) :
  drv_get_current_url (env w) = (Ok current_url, d1) ->
  drv_find_elements TITLES d1 = (Ok ads, d2) ->
  recorded (snd (parse_page fuel w)) <= recorded w + 3 * length ads.
Proof.
  intros Ec Ef. unfold parse_page, stop_requested.
  unfold bind at 1, gets at 1.
  destruct (stop_event w && stop_is_set (env w));
    [unfold logger_info, ret; cbn [snd]; lia|].
  unfold driver_get_current_url.
  erewrite bind_returns by (apply call_ok; exact Ec).
  unfold driver_find_elements. unfold bind at 1. unfold bind at 1.
  unfold emit at 1, modify at 1.
  erewrite call_ok by exact Ef.
  destruct ads as [|a ads]; [unfold logger_info, ret; cbn [snd length]|].
  - unfold recorded. cbn [data files set_env set_trace]. lia.
  - unfold logger_info. unfold bind at 1, ret at 1.
    match goal with
    | |- recorded (snd (for_each ?l _ ?s)) <= _ =>
      pose proof (@for_each_count _ _ _ (recorded w) l fuel current_url 0 s)
        as Hc
    end.
    unfold at_most in Hc. rewrite length_seq in Hc.
    rewrite Nat.add_0_r in Hc. apply Hc.
    unfold recorded. cbn [data files set_env set_trace]. lia.
Qed.

Lemma page_adds_at_most_three_per_ad_witness :
  let w := init avito_url 1 false None stale_return in
  recorded (snd (parse_page 1 w)) <= recorded w + 3 * length [0]
  /\ recorded (snd (parse_page 1 w)) = 2.
Proof.
  intros w. split; [|vm_compute; reflexivity].
  apply (@page_adds_at_most_three_per_ad basic_runtime script scripted 1 w
           avito_url [0] (after_calls 1 stale_return)
           (after_calls 2 stale_return)); reflexivity.
Defined.
